(** * raplcap-msr: the MSR backend of raplcap

    A shallow embedding of [src/msr/raplcap-msr.c] and the properties of
    its register codec, topology discovery, session set-up and teardown.

    Conventions of the embedding.
    - A [uint64_t] is a [Z] in [0, 2^64); shifts and complement are written
      with their wrap-around.
    - An execution that trips an [assert] or that has no defined result in C
      (an over-wide shift, a conversion of an out-of-range [double]) yields
      [Stuck]; every other execution yields [Ok].
    - A [double] is a rational number ([Q]) and arithmetic on it is exact:
      the rounding of binary64 is left out. Scaling by the units, which are
      powers of two, is exact in binary64 as well; the factor 0.1, the
      divisions by 5, 6 and 7 and the logarithm are rounded there.
    - The text of [/proc/cpuinfo] is a list of lines, and the shell pipelines
      the code runs through [popen] are functions on lists of lines.
    - What a system call returns is a parameter: the words of the register
      device, the results of [open] and [close], the success of [popen] and
      of the allocations. *)

From Stdlib Require Import ZArith QArith Qround Qpower Qabs Lia Lqa Bool String Ascii.
From Stdlib Require Import Sorted.
From stdpp Require Import base list.

Local Open Scope Z_scope.

(** * The program *)

(** ** Outcomes of C executions *)

Inductive fault : Type :=
| AssertFail   (* an [assert] failed: the process aborts *)
| Undefined.   (* the C standard gives the execution no meaning *)

Inductive res (A : Type) : Type :=
| Ok (a : A)
| Stuck (f : fault).

Arguments Ok {A} a.
Arguments Stuck {A} f.

Definition res_bind {A B : Type} (m : res A) (k : A -> res B) : res B :=
  match m with
  | Ok a => k a
  | Stuck f => Stuck f
  end.

Notation "'do' x <- m ; k" := (res_bind m (fun x => k))
  (at level 10, x name, m at level 100, k at level 200).

Definition c_assert (b : bool) : res unit :=
  if b then Ok tt else Stuck AssertFail.

(** ** Machine integers *)

Module U64.

Definition modulus : Z := 2 ^ 64.
Definition max : Z := modulus - 1.

Definition wrap (x : Z) : Z := x mod modulus.

Definition in_range (x : Z) : Prop := 0 <= x < modulus.

(** [x << n] on [uint64_t]: defined for a shift count below the width. *)
Definition shl (x n : Z) : res Z :=
  if (0 <=? n) && (n <? 64) then Ok (wrap (Z.shiftl x n)) else Stuck Undefined.

(** [x >> n] on [uint64_t]. *)
Definition shr (x n : Z) : res Z :=
  if (0 <=? n) && (n <? 64) then Ok (Z.shiftr x n) else Stuck Undefined.

(** [~x] on [uint64_t]. *)
Definition lnot (x : Z) : Z := Z.lxor x max.

End U64.

Module I32.

Definition max : Z := 2 ^ 31 - 1.

(** [x << n] on a non-negative [int]: defined when the count is below the
    width and the result is representable. *)
Definition shl (x n : Z) : res Z :=
  if (0 <=? n) && (n <? 32) && (Z.shiftl x n <=? max)
  then Ok (Z.shiftl x n) else Stuck Undefined.

End I32.

(** ** Register addresses *)

Definition MSR_RAPL_POWER_UNIT : Z := 0x606.
Definition MSR_PKG_POWER_LIMIT : Z := 0x610.
Definition MSR_PP0_POWER_LIMIT : Z := 0x638.
Definition MSR_PP1_POWER_LIMIT : Z := 0x640.
Definition MSR_DRAM_POWER_LIMIT : Z := 0x618.
Definition MSR_PLATFORM_POWER_LIMIT : Z := 0x65C.

(** The enumeration of [raplcap.h]; [RAPLCAP_ZONE_OTHER] stands for any
    value outside of it, which the [default] branches catch. *)
Inductive raplcap_zone : Type :=
| RAPLCAP_ZONE_PACKAGE
| RAPLCAP_ZONE_CORE
| RAPLCAP_ZONE_UNCORE
| RAPLCAP_ZONE_DRAM
| RAPLCAP_ZONE_PSYS
| RAPLCAP_ZONE_OTHER.

Inductive errno_t : Type :=
| EINVAL
| ENOENT
| EOTHER.   (* whatever a failing system call left in errno *)

(** [zone_to_msr_offset]: the register of a zone; -1 (with errno EINVAL)
    for a value outside the enumeration. *)
Definition zone_to_msr_offset (z : raplcap_zone) : Z :=
  match z with
  | RAPLCAP_ZONE_PACKAGE => MSR_PKG_POWER_LIMIT
  | RAPLCAP_ZONE_CORE => MSR_PP0_POWER_LIMIT
  | RAPLCAP_ZONE_UNCORE => MSR_PP1_POWER_LIMIT
  | RAPLCAP_ZONE_DRAM => MSR_DRAM_POWER_LIMIT
  | RAPLCAP_ZONE_PSYS => MSR_PLATFORM_POWER_LIMIT
  | RAPLCAP_ZONE_OTHER => -1
  end.

(** ** Bit fields of a register word *)

(** [get_bits]: [(msrval >> first) & ((1 << (last - first + 1)) - 1)].
    The literal [1] is an [int], so the mask is computed in [int]. *)
Definition get_bits (msrval first last : Z) : res Z :=
  do _ <- c_assert (first <=? last);
  do _ <- c_assert (last <? 64);
  do hi <- U64.shr msrval first;
  do one <- I32.shl 1 (last - first + 1);
  Ok (Z.land hi (one - 1)).

(** [replace_bits]: the mask is computed in [uint64_t]. *)
Definition replace_bits (msrval data first last : Z) : res Z :=
  do _ <- c_assert (first <=? last);
  do _ <- c_assert (last <? 64);
  do one <- U64.shl 1 (last - first + 1);
  do mask <- U64.shl (one - 1) first;
  do data' <- U64.shl data first;
  Ok (Z.lor (Z.land msrval (U64.lnot mask)) (Z.land data' mask)).

(** The [int] that C's [&&] and [?:] see: zero is false. *)
Definition truthy (x : Z) : bool := negb (x =? 0).
Definition of_bool (b : bool) : Z := if b then 1 else 0.

Definition is_pkg_platform_enabled (msrval : Z) : res Z :=
  do en_long <- get_bits msrval 15 15;
  if truthy en_long
  then do en_short <- get_bits msrval 47 47; Ok (of_bool (truthy en_short))
  else Ok 0.

Definition is_core_uncore_dram_enabled (msrval : Z) : res Z :=
  get_bits msrval 15 15.

Definition set_pkg_platform_enabled (msrval enabled : Z) : res Z :=
  let set := if truthy enabled then 1 else 0 in
  do msrval <- replace_bits msrval set 15 15;
  do msrval <- replace_bits msrval set 47 47;
  do msrval <- replace_bits msrval set 16 16;
  replace_bits msrval set 48 48.

Definition set_core_uncore_dram_enabled (msrval enabled : Z) : res Z :=
  let set := if truthy enabled then 1 else 0 in
  do msrval <- replace_bits msrval set 15 15;
  replace_bits msrval set 16 16.

(** ** Doubles *)

Local Open Scope Q_scope.

(** [x > 0] on doubles. *)
Definition Qpositive (x : Q) : bool := negb (Qle_bool x 0).

(** The integral part of a rational: truncation toward zero. *)
Definition Qtrunc (x : Q) : Z :=
  if Qle_bool 0 x then Qfloor x else Qceiling x.

(** Conversion of a [double] to [uint64_t], as at the call sites that pass
    a [double] for the [uint64_t data] of [replace_bits]: the fraction is
    discarded, and the conversion is undefined when the integral part is
    not a [uint64_t]. *)
Definition u64_of_double (d : Q) : res Z :=
  let t := Qtrunc d in
  if ((0 <=? t) && (t <=? U64.max))%Z then Ok t else Stuck Undefined.

(** The integral part of [log2 x]. The logarithm itself is irrational in
    general and the code uses nothing but its conversion to [uint64_t], so
    the two steps are one here: for [x >= 1] the integral part is the
    position of the leading bit of the integral part of [x]; for
    [1/2 < x < 1] the logarithm lies in (-1, 0) and truncates to 0; below
    that the integral part is negative (or the logarithm is not a number)
    and the conversion is undefined. *)
Definition u64_of_log2 (x : Q) : res Z :=
  if Qle_bool 1 x then Ok (Z.log2 (Qfloor x))
  else if Qle_bool x (1 # 2) then Stuck Undefined
  else Ok 0%Z.

(** [pow(2.0, (double) y)] and [pow(0.5, (double) y)] for a [uint64_t] y. *)
Definition pow2 (y : Z) : Q := Qpower 2 y.
Definition pow_half (y : Z) : Q := Qpower (1 # 2) y.

(** ** Limits and session state *)

Record raplcap_limit : Type := mk_limit {
  seconds : Q;
  watts : Q
}.

Record raplcap_msr : Type := mk_msr {
  fds : option (list Z);   (* [None]: the array was not allocated *)
  power_units : Q;
  time_units : Q
}.

(** [raplcap] of [raplcap.h], as the code uses it. *)
Record raplcap : Type := mk_raplcap {
  nsockets : Z;
  state : option raplcap_msr
}.

Definition to_raplcap (seconds watts : Q) : raplcap_limit :=
  mk_limit seconds watts.

(** ** Decoding a register word *)

Definition to_time_window_F (bits : Z) : res Q :=
  do _ <- c_assert (bits <=? 3)%Z;
  Ok (1 + (1 # 10) * inject_Z bits).

(** [get_pkg_platform]: each limit is decoded when its pointer is not
    NULL ([want_long], [want_short]). *)
Definition get_pkg_platform (msrval : Z) (st : raplcap_msr)
    (want_long want_short : bool)
  : res (option raplcap_limit * option raplcap_limit) :=
  do limit_long <-
    (if want_long then
       do p <- get_bits msrval 0 14;
       let watts := power_units st * inject_Z p in
       do y <- get_bits msrval 17 21;
       do z <- get_bits msrval 22 23;
       let seconds := pow2 y * (1 + inject_Z z / 4) * time_units st in
       Ok (Some (to_raplcap seconds watts))
     else Ok None);
  do limit_short <-
    (if want_short then
       do p <- get_bits msrval 32 46;
       let watts := power_units st * inject_Z p in
       do y <- get_bits msrval 49 53;
       do z <- get_bits msrval 54 55;
       let seconds := pow2 y * (1 + inject_Z z / 4) * time_units st in
       Ok (Some (to_raplcap seconds watts))
     else Ok None);
  Ok (limit_long, limit_short).

Definition get_core_uncore_dram (msrval : Z) (st : raplcap_msr)
    (want_long : bool) : res (option raplcap_limit) :=
  if want_long then
    do p <- get_bits msrval 0 14;
    let watts := power_units st * inject_Z p in
    do y <- get_bits msrval 17 21;
    do z <- get_bits msrval 22 23;
    do f <- to_time_window_F z;
    let seconds := pow2 y * f * time_units st in
    Ok (Some (to_raplcap seconds watts))
  else Ok None.

(** ** Encoding limits into a register word *)

(** [set_pkg_platform]: a limit pointer that is NULL is [None]. The
    [double]s [msr_pwr] and [msr_time] are converted to the [uint64_t]
    parameter of [replace_bits]. *)
Definition set_pkg_platform (msrval : Z) (st : raplcap_msr)
    (limit_long limit_short : option raplcap_limit) : res Z :=
  do msrval <-
    match limit_long with
    | Some l =>
        do msrval <-
          (if Qpositive (watts l) then
             do msr_pwr <- u64_of_double (watts l / power_units st);
             replace_bits msrval msr_pwr 0 14
           else Ok msrval);
        if Qpositive (seconds l) then
          do z <- get_bits msrval 22 23;
          do msr_time <- u64_of_log2
            ((4 * seconds l) / (time_units st * (inject_Z z + 4)));
          replace_bits msrval msr_time 17 21
        else Ok msrval
    | None => Ok msrval
    end;
  match limit_short with
  | Some l =>
      do msrval <-
        (if Qpositive (watts l) then
           do msr_pwr <- u64_of_double (watts l / power_units st);
           replace_bits msrval msr_pwr 32 46
         else Ok msrval);
      if Qpositive (seconds l) then
        do z <- get_bits msrval 54 55;
        do msr_time <- u64_of_log2
          ((4 * seconds l) / (time_units st * (inject_Z z + 4)));
        replace_bits msrval msr_time 49 53
      else Ok msrval
  | None => Ok msrval
  end.

Definition set_core_uncore_dram (msrval : Z) (st : raplcap_msr)
    (limit_long : option raplcap_limit) : res Z :=
  match limit_long with
  | Some l =>
      do msrval <-
        (if Qpositive (watts l) then
           do msr_pwr <- u64_of_double (watts l / power_units st);
           replace_bits msrval msr_pwr 0 14
         else Ok msrval);
      if Qpositive (seconds l) then
        do z <- get_bits msrval 22 23;
        do f <- to_time_window_F z;
        do msr_time <- u64_of_log2 (seconds l / f);
        replace_bits msrval msr_time 17 21
      else Ok msrval
  | None => Ok msrval
  end.

Local Close Scope Q_scope.

(** ** The register device *)

(** The MSR device files, as the session sees them: [dev fd off] is the word
    an 8-byte [pread] at offset [off] of descriptor [fd] returns, and [None]
    when the read fails or is short. An 8-byte [pwrite] succeeds on the
    registers that can be read, and the register then holds the word
    written. *)
Definition msr_dev : Type := Z -> Z -> option Z.

Definition dev_store (dev : msr_dev) (fd off w : Z) : msr_dev :=
  fun fd' off' => if (fd' =? fd) && (off' =? off) then Some w else dev fd' off'.

Definition read_msr_by_offset (dev : msr_dev) (fd msr : Z) : Z + errno_t :=
  if msr <? 0 then inr EINVAL
  else match dev fd msr with
       | Some data => inl data
       | None => inr EOTHER
       end.

Definition write_msr_by_offset (dev : msr_dev) (fd msr data : Z)
  : msr_dev * (Z + errno_t) :=
  if msr <? 0 then (dev, inr EINVAL)
  else match dev fd msr with
       | Some _ => (dev_store dev fd msr data, inl 0)
       | None => (dev, inr EOTHER)
       end.

(** ** Session operations *)

(** [state->fds[socket]]: reading through a NULL array or past its end is
    undefined. *)
Definition socket_fd (st : raplcap_msr) (socket : Z) : res Z :=
  match fds st with
  | None => Stuck Undefined
  | Some a =>
      match a !! Z.to_nat socket with
      | Some fd => Ok fd
      | None => Stuck Undefined
      end
  end.

(** The guard that opens every operation on a session:
    [rc == NULL || rc->state == NULL || socket >= rc->nsockets]. *)
Definition session_state (socket : Z) (rc : option raplcap) : option raplcap_msr :=
  match rc with
  | None => None
  | Some r =>
      match state r with
      | None => None
      | Some st => if socket >=? nsockets r then None else Some st
      end
  end.

Definition raplcap_is_zone_enabled (dev : msr_dev) (socket : Z)
    (rc : option raplcap) (zone : raplcap_zone) : res (Z + errno_t) :=
  match session_state socket rc with
  | None => Ok (inr EINVAL)
  | Some st =>
      do fd <- socket_fd st socket;
      match read_msr_by_offset dev fd (zone_to_msr_offset zone) with
      | inr e => Ok (inr e)
      | inl msrval =>
          match zone with
          | RAPLCAP_ZONE_PACKAGE | RAPLCAP_ZONE_PSYS =>
              do r <- is_pkg_platform_enabled msrval; Ok (inl r)
          | RAPLCAP_ZONE_CORE | RAPLCAP_ZONE_UNCORE | RAPLCAP_ZONE_DRAM =>
              do r <- is_core_uncore_dram_enabled msrval; Ok (inl r)
          | RAPLCAP_ZONE_OTHER => Ok (inr EINVAL)
          end
      end
  end.

Definition raplcap_set_zone_enabled (dev : msr_dev) (socket : Z)
    (rc : option raplcap) (zone : raplcap_zone) (enabled : Z)
  : res (msr_dev * (Z + errno_t)) :=
  match session_state socket rc with
  | None => Ok (dev, inr EINVAL)
  | Some st =>
      let msr := zone_to_msr_offset zone in
      do fd <- socket_fd st socket;
      match read_msr_by_offset dev fd msr with
      | inr e => Ok (dev, inr e)
      | inl msrval =>
          match zone with
          | RAPLCAP_ZONE_PACKAGE | RAPLCAP_ZONE_PSYS =>
              do msrval <- set_pkg_platform_enabled msrval enabled;
              Ok (write_msr_by_offset dev fd msr msrval)
          | RAPLCAP_ZONE_CORE | RAPLCAP_ZONE_UNCORE | RAPLCAP_ZONE_DRAM =>
              do msrval <- set_core_uncore_dram_enabled msrval enabled;
              Ok (write_msr_by_offset dev fd msr msrval)
          | RAPLCAP_ZONE_OTHER => Ok (dev, inr EINVAL)
          end
      end
  end.

(** [raplcap_get_limits]: [want_long] and [want_short] say which of the two
    result pointers are not NULL. *)
Definition raplcap_get_limits (dev : msr_dev) (socket : Z)
    (rc : option raplcap) (zone : raplcap_zone) (want_long want_short : bool)
  : res ((option raplcap_limit * option raplcap_limit) + errno_t) :=
  match session_state socket rc with
  | None => Ok (inr EINVAL)
  | Some st =>
      do fd <- socket_fd st socket;
      match read_msr_by_offset dev fd (zone_to_msr_offset zone) with
      | inr e => Ok (inr e)
      | inl msrval =>
          match zone with
          | RAPLCAP_ZONE_PACKAGE | RAPLCAP_ZONE_PSYS =>
              do r <- get_pkg_platform msrval st want_long want_short;
              Ok (inl r)
          | RAPLCAP_ZONE_CORE | RAPLCAP_ZONE_UNCORE | RAPLCAP_ZONE_DRAM =>
              do r <- get_core_uncore_dram msrval st want_long;
              Ok (inl (r, None))
          | RAPLCAP_ZONE_OTHER => Ok (inr EINVAL)
          end
      end
  end.

Definition raplcap_set_limits (dev : msr_dev) (socket : Z)
    (rc : option raplcap) (zone : raplcap_zone)
    (limit_long limit_short : option raplcap_limit)
  : res (msr_dev * (Z + errno_t)) :=
  match session_state socket rc with
  | None => Ok (dev, inr EINVAL)
  | Some st =>
      let msr := zone_to_msr_offset zone in
      do fd <- socket_fd st socket;
      match read_msr_by_offset dev fd msr with
      | inr e => Ok (dev, inr e)
      | inl msrval =>
          match zone with
          | RAPLCAP_ZONE_PACKAGE | RAPLCAP_ZONE_PSYS =>
              do msrval <- set_pkg_platform msrval st limit_long limit_short;
              Ok (write_msr_by_offset dev fd msr msrval)
          | RAPLCAP_ZONE_CORE | RAPLCAP_ZONE_UNCORE | RAPLCAP_ZONE_DRAM =>
              do msrval <- set_core_uncore_dram msrval st limit_long;
              Ok (write_msr_by_offset dev fd msr msrval)
          | RAPLCAP_ZONE_OTHER => Ok (dev, inr EINVAL)
          end
      end
  end.

(** ** Teardown *)

(** What [raplcap_destroy] leaves behind: the descriptors it passed to
    [close], in order, its return value and the [errno] it set. *)
Record destroyed : Type := mk_destroyed {
  closed : list Z;
  ret : Z;
  errno : Z
}.

(** The loop of [raplcap_destroy] from index [i], [n] iterations left.
    [close fd] is [None] when the call succeeds and [Some e] when it fails
    with [errno = e]. *)
Fixpoint destroy_loop (close : Z -> option Z) (a : list Z) (n : nat) (i : nat)
    (err_save : Z) (closed : list Z) : res (Z * list Z) :=
  match n with
  | O => Ok (err_save, closed)
  | S n' =>
      match a !! i with
      | None => Stuck Undefined
      | Some fd =>
          if fd >? 0 then
            match close fd with
            | Some e => destroy_loop close a n' (S i) e (closed ++ [fd])
            | None => destroy_loop close a n' (S i) err_save (closed ++ [fd])
            end
          else destroy_loop close a n' (S i) err_save closed
      end
  end.

(** [raplcap_destroy]. With [rc] or [rc->state] NULL nothing is closed and
    [errno] is left alone (reported as 0 here). *)
Definition raplcap_destroy (close : Z -> option Z) (rc : option raplcap)
  : res (option raplcap * destroyed) :=
  match rc with
  | None => Ok (None, mk_destroyed [] 0 0)
  | Some r =>
      match state r with
      | None => Ok (rc, mk_destroyed [] 0 0)
      | Some st =>
          do out <-
            match fds st with
            | None => Ok (0, [])
            | Some a => destroy_loop close a (Z.to_nat (nsockets r)) 0 0 []
            end;
          let '(err_save, closed) := out in
          Ok (Some (mk_raplcap (nsockets r) None),
              mk_destroyed closed (if truthy err_save then -1 else 0) err_save)
      end
  end.

(** ** Text processing of the discovery pipelines *)

Local Open Scope string_scope.

Definition tab : ascii := "009"%char.
Definition newline : ascii := "010"%char.

(** [isspace] in the C locale. *)
Definition isspace (c : ascii) : bool :=
  let n := nat_of_ascii c in
  (n =? 32)%nat || ((9 <=? n)%nat && (n <=? 13)%nat).

(** The field separators of awk: blank, tab and newline. *)
Definition is_blank (c : ascii) : bool :=
  let n := nat_of_ascii c in
  (n =? 32)%nat || (n =? 9)%nat || (n =? 10)%nat.

Fixpoint contains (pat s : string) : bool :=
  String.prefix pat s ||
  match s with
  | EmptyString => false
  | String _ s' => contains pat s'
  end.

(** [egrep 'p1|p2|...']: the lines that contain one of the patterns (the
    patterns of the code have no metacharacter but the bar). *)
Definition egrep (pats : list string) (lines : list string) : list string :=
  List.filter (fun l => existsb (fun p => contains p l) pats) lines.

(** [sort -u]: the lines in increasing order of their bytes, each once. *)
Fixpoint insert_uniq (x : string) (l : list string) : list string :=
  match l with
  | [] => [x]
  | y :: l' =>
      match String.compare x y with
      | Lt => x :: l
      | Eq => l
      | Gt => y :: insert_uniq x l'
      end
  end.

Definition sort_u (lines : list string) : list string :=
  fold_right insert_uniq [] lines.

(** The text before the first [c], and the text after it when there is one. *)
Fixpoint split_first (c : ascii) (s : string) : string * option string :=
  match s with
  | EmptyString => (EmptyString, None)
  | String a s' =>
      if Ascii.eqb a c then (EmptyString, Some s')
      else let '(h, t) := split_first c s' in (String a h, t)
  end.

(** [cut -d : -f 2]: the second colon-separated field; a line without a
    colon is passed through. *)
Definition cut_d_colon_f2 (line : string) : string :=
  match split_first ":"%char line with
  | (_, None) => line
  | (_, Some rest) => fst (split_first ":"%char rest)
  end.

(** The fields of a line for awk: maximal runs of non-blank characters. *)
Fixpoint awk_fields (s : string) (cur : string) : list string :=
  match s with
  | EmptyString => if String.eqb cur "" then [] else [cur]
  | String c s' =>
      if is_blank c
      then (if String.eqb cur "" then awk_fields s' ""
            else cur :: awk_fields s' "")
      else awk_fields s' (cur ++ String c "")
  end.

(** [$n] of awk, empty when the line has fewer fields. *)
Definition awk_field (n : nat) (line : string) : string :=
  nth (pred n) (awk_fields line "") "".

(** [paste - - -]: three lines at a time, joined by tabs. *)
Fixpoint paste3 (lines : list string) : list string :=
  match lines with
  | [] => []
  | [a] => [a ++ String tab (String tab "")]
  | [a; b] => [a ++ String tab (b ++ String tab "")]
  | a :: b :: c :: rest => (a ++ String tab (b ++ String tab c)) :: paste3 rest
  end.

(** [tail -n 1]. *)
Definition tail1 (lines : list string) : list string :=
  match last lines with
  | Some l => [l]
  | None => []
  end.

(** What successive [fgets(output, 32, fp)] calls return for one line of
    the stream: the line and its newline, at most 31 characters a call. *)
Fixpoint fgets_line (fuel : nat) (s : string) : list string :=
  match fuel with
  | O => []
  | S fuel' =>
      if String.eqb s "" then []
      else String.substring 0 31 s
           :: fgets_line fuel' (String.substring 31 (String.length s - 31) s)
  end.

Definition fgets_all (lines : list string) : list string :=
  flat_map (fun l => fgets_line (S (String.length l)) (l ++ String newline ""))
           lines.

Local Close Scope string_scope.

(** *** Numbers in text *)

Definition digit_of (base : Z) (c : ascii) : option Z :=
  let n := Z.of_nat (nat_of_ascii c) in
  let d := if (48 <=? n) && (n <=? 57) then n - 48
           else if (97 <=? n) && (n <=? 122) then n - 87
           else if (65 <=? n) && (n <=? 90) then n - 55
           else 99 in
  if d <? base then Some d else None.

(** The longest run of digits of [base] at the head of [s]: its value,
    whether it has a digit at all, and the text after it. *)
Fixpoint scan_digits (base : Z) (s : string) (acc : Z) (seen : bool)
  : Z * bool * string :=
  match s with
  | EmptyString => (acc, seen, s)
  | String c s' =>
      match digit_of base c with
      | Some d => scan_digits base s' (acc * base + d) true
      | None => (acc, seen, s)
      end
  end.

Fixpoint skip_space (s : string) : string :=
  match s with
  | String c s' => if isspace c then skip_space s' else s
  | EmptyString => s
  end.

Definition ULONG_MAX : Z := 2 ^ 64 - 1.

(** The subject sequence of [strtoul] after white space: an optional sign,
    then digits. The result is the [unsigned long] value, whether it
    overflowed, and the remaining text; [None] when there is no digit. *)
Definition scan_unsigned (base : Z) (s : string) : option (Z * bool * string) :=
  let '(neg, s1) :=
    match s with
    | String "-"%char s' => (true, s')
    | String "+"%char s' => (false, s')
    | _ => (false, s)
    end in
  let '(v, seen, rest) := scan_digits base s1 0 false in
  if seen then
    if v >? ULONG_MAX then Some (ULONG_MAX, true, rest)
    else Some (if neg then (- v) mod 2 ^ 64 else v, false, rest)
  else None.

(** [strtoul(s, NULL, 0)]: the value and whether [errno] was set (ERANGE).
    Base 0 reads a [0x] prefix as hexadecimal, a leading [0] as octal and
    anything else as decimal; without a digit the value is 0. *)
Definition strtoul0 (s : string) : Z * bool :=
  let s1 := skip_space s in
  let '(sign, body) :=
    match s1 with
    | String "-"%char s' => ("-"%string, s')
    | String "+"%char s' => ("+"%string, s')
    | _ => (EmptyString, s1)
    end in
  let hex :=
    match body with
    | String "0"%char (String x (String h _)) =>
        (Ascii.eqb x "x"%char || Ascii.eqb x "X"%char) &&
        match digit_of 16 h with Some _ => true | None => false end
    | _ => false
    end in
  let r :=
    if hex
    then scan_unsigned 16
           (String.append sign (String.substring 2 (String.length body) body))
    else if String.prefix "0"%string body
    then scan_unsigned 8 (String.append sign body)
    else scan_unsigned 10 (String.append sign body) in
  match r with
  | Some (v, erange, _) => (v, erange)
  | None => (0, false)
  end.

(** One [%u] of [sscanf] into a [uint32_t]: white space, then a decimal
    number; the conversion fails when there is no digit. *)
Definition scan_u32 (s : string) : option (Z * string) :=
  match scan_unsigned 10 (skip_space s) with
  | Some (v, _, rest) => Some (v mod 2 ^ 32, rest)
  | None => None
  end.

(** [sscanf(output, "%u %u", &socket, &core) == 2]. *)
Definition sscanf_u_u (output : string) : option (Z * Z) :=
  match scan_u32 output with
  | Some (socket, rest) =>
      match scan_u32 rest with
      | Some (core, _) => Some (socket, core)
      | None => None
      end
  | None => None
  end.

(** ** Topology discovery *)

(** The output of the command of [count_sockets] on a given
    [/proc/cpuinfo]:
    [egrep 'physical id' /proc/cpuinfo | sort -u | cut -d : -f 2 |
     awk '{print $1}' | tail -n 1]. *)
Definition count_sockets_command (cpuinfo : list string) : list string :=
  tail1 (map (awk_field 1)
          (map cut_d_colon_f2 (sort_u (egrep ["physical id"%string] cpuinfo)))).

(** The [while (fgets ...)] loop of [count_sockets]. *)
Fixpoint count_sockets_loop (outputs : list string) (sockets : Z) : Z :=
  match outputs with
  | [] => sockets
  | output :: more =>
      let '(v, erange) := strtoul0 output in
      let sockets := (v + 1) mod 2 ^ 32 in
      if erange then 0 else count_sockets_loop more sockets
  end.

(** [count_sockets]; [popen_ok] is false when [popen] returns NULL. *)
Definition count_sockets (popen_ok : bool) (cpuinfo : list string) : Z :=
  if popen_ok
  then count_sockets_loop (fgets_all (count_sockets_command cpuinfo)) 0
  else 0.

Definition raplcap_get_num_sockets (popen_ok : bool) (cpuinfo : list string)
    (rc : option raplcap) : Z :=
  match rc with
  | None => count_sockets popen_ok cpuinfo
  | Some r => nsockets r
  end.

(** The output of the command of [raplcap_open_msrs]:
    [egrep 'processor|core id|physical id' /proc/cpuinfo | cut -d : -f 2 |
     paste - - - | awk '{print $2 " " $1}']. *)
Definition open_msrs_command (cpuinfo : list string) : list string :=
  map (fun l => (awk_field 2 l ++ String " " (awk_field 1 l))%string)
      (paste3 (map cut_d_colon_f2
                (egrep ["processor"; "core id"; "physical id"]%string cpuinfo))).

(** The [while (fgets ...)] loop of [raplcap_open_msrs] over the arrays
    [coreids] and [coreids_found]. *)
Fixpoint open_msrs_loop (sockets : Z) (outputs : list string)
    (coreids : list Z) (coreids_found : list Z)
  : res ((list Z * list Z) + errno_t) :=
  match outputs with
  | [] => Ok (inl (coreids, coreids_found))
  | output :: more =>
      match sscanf_u_u output with
      | None => Ok (inr ENOENT)
      | Some (socket, core) =>
          if socket >=? sockets then Ok (inr EINVAL)
          else
            let i := Z.to_nat socket in
            match coreids_found !! i, coreids !! i with
            | Some found, Some cur =>
                if negb (truthy found) || (core <? cur)
                then open_msrs_loop sockets more
                       (<[i := core]> coreids) (<[i := 1]> coreids_found)
                else open_msrs_loop sockets more coreids coreids_found
            | _, _ => Stuck Undefined
            end
      end
  end.

(** The first part of [raplcap_open_msrs], up to the check that every
    socket has a core: the array [coreids], or the [errno] of the failure. *)
Definition discover_coreids (sockets : Z) (outputs : list string)
  : res (list Z + errno_t) :=
  do _ <- c_assert (sockets >? 0);
  let zeros := replicate (Z.to_nat sockets) 0 in
  do r <- open_msrs_loop sockets outputs zeros zeros;
  match r with
  | inr e => Ok (inr e)
  | inl (coreids, coreids_found) =>
      if forallb truthy coreids_found then Ok (inl coreids) else Ok (inr ENOENT)
  end.

(** The file names [open_msr] builds. *)
Inductive msr_file : Type :=
| dev_cpu_msr_safe (core : Z)   (* /dev/cpu/<core>/msr_safe *)
| dev_cpu_msr (core : Z).       (* /dev/cpu/<core>/msr *)

(** [open_msr]; [open_rdwr f] is the result of [open(f, O_RDWR)]. *)
Definition open_msr (open_rdwr : msr_file -> Z) (core : Z) : Z :=
  let fd := open_rdwr (dev_cpu_msr_safe core) in
  let fd := if fd <? 0 then open_rdwr (dev_cpu_msr core) else fd in
  if fd <? 0 then -1 else fd.

(** The last loop of [raplcap_open_msrs]: [fds[i] = open_msr(coreids[i])]. *)
Fixpoint open_each (open_rdwr : msr_file -> Z) (coreids : list Z) (i : nat)
    (fds : list Z) : list Z * (Z + errno_t) :=
  match coreids with
  | [] => (fds, inl 0)
  | core :: more =>
      let fd := open_msr open_rdwr core in
      let fds := <[i := fd]> fds in
      if fd <? 0 then (fds, inr EOTHER) else open_each open_rdwr more (S i) fds
  end.

(** [raplcap_open_msrs]; [popen_ok] is false when [popen] returns NULL, in
    which case the function returns 0 with [fds] as they were. *)
Definition raplcap_open_msrs (popen_ok : bool) (cpuinfo : list string)
    (open_rdwr : msr_file -> Z) (sockets : Z) (fds : list Z)
  : res (list Z * (Z + errno_t)) :=
  do _ <- c_assert (sockets >? 0);
  if popen_ok then
    do r <- discover_coreids sockets (fgets_all (open_msrs_command cpuinfo));
    match r with
    | inr e => Ok (fds, inr e)
    | inl coreids => Ok (open_each open_rdwr coreids 0 fds)
    end
  else Ok (fds, inl 0).

(** ** Session set-up *)

(** What [raplcap_init] meets outside the program: whether the two
    [popen] calls and the two allocations succeed, the text of
    [/proc/cpuinfo], the results of [open] and [close], and the register
    device. *)
Record machine : Type := mk_machine {
  popen_count_ok : bool;
  popen_open_ok : bool;
  cpuinfo : list string;
  malloc_ok : bool;
  calloc_ok : bool;
  open_rdwr : msr_file -> Z;
  close : Z -> option Z;
  dev : msr_dev
}.

(** The result of [raplcap_init]: the session, the return value or the
    [errno] of the failure, and the descriptors closed on the way out. *)
Record initialised : Type := mk_initialised {
  init_rc : option raplcap;
  init_ret : Z + errno_t;
  init_closed : list Z
}.

(** The failure path of [raplcap_init]: [raplcap_destroy], with [errno]
    saved around it. The units of the state are not yet assigned there;
    they are shown as 0. *)
Definition init_fail (m : machine) (n : Z) (fds : option (list Z))
    (e : errno_t) : res initialised :=
  do d <- raplcap_destroy (close m)
            (Some (mk_raplcap n (Some (mk_msr fds 0 0))));
  Ok (mk_initialised (fst d) (inr e) (closed (snd d))).

Definition raplcap_init (m : machine) (rc : option raplcap) : res initialised :=
  match rc with
  | None => Ok (mk_initialised None (inr EINVAL) [])
  | Some r =>
      let n := raplcap_get_num_sockets (popen_count_ok m) (cpuinfo m) None in
      if (n =? 0) || negb (malloc_ok m)
      then Ok (mk_initialised (Some (mk_raplcap n (state r))) (inr EOTHER) [])
      else if negb (calloc_ok m) then init_fail m n None EOTHER
      else
        do opened <- raplcap_open_msrs (popen_open_ok m) (cpuinfo m)
                       (open_rdwr m) n (replicate (Z.to_nat n) 0);
        let '(fds, ret) := opened in
        match ret with
        | inr e => init_fail m n (Some fds) e
        | inl _ =>
            match fds !! 0%nat with
            | None => Stuck Undefined
            | Some fd0 =>
                match read_msr_by_offset (dev m) fd0 MSR_RAPL_POWER_UNIT with
                | inr e => init_fail m n (Some fds) e
                | inl msrval =>
                    let power_units := pow_half (Z.land msrval 0xf) in
                    let time_units :=
                      pow_half (Z.land (Z.shiftr msrval 16) 0xf) in
                    Ok (mk_initialised
                          (Some (mk_raplcap n
                                   (Some (mk_msr (Some fds)
                                            power_units time_units))))
                          (inl 0) [])
                end
            end
        end
  end.

(** * Vocabulary of the properties *)

(** The bits an enable or disable of a zone may write. *)
Definition enable_bits (zone : raplcap_zone) : list Z :=
  match zone with
  | RAPLCAP_ZONE_PACKAGE | RAPLCAP_ZONE_PSYS => [15; 16; 47; 48]
  | _ => [15; 16]
  end.

(** Every word of the device is a [uint64_t]. *)
Definition words_in_range (dev : msr_dev) : Prop :=
  forall fd off w, dev fd off = Some w -> U64.in_range w.

Definition wants_watts (l : option raplcap_limit) : bool :=
  match l with
  | Some l => Qpositive (watts l)
  | None => false
  end.

Definition wants_seconds (l : option raplcap_limit) : bool :=
  match l with
  | Some l => Qpositive (seconds l)
  | None => false
  end.

Definition in_field (first last i : Z) : bool := (first <=? i) && (i <=? last).

(** The bits a call of [set_pkg_platform] may write. *)
Definition pkg_platform_written (limit_long limit_short : option raplcap_limit)
    (i : Z) : bool :=
  wants_watts limit_long && in_field 0 14 i
  || wants_seconds limit_long && in_field 17 21 i
  || wants_watts limit_short && in_field 32 46 i
  || wants_seconds limit_short && in_field 49 53 i.

(** The bits a call of [set_core_uncore_dram] may write. *)
Definition core_uncore_dram_written (limit_long : option raplcap_limit)
    (i : Z) : bool :=
  wants_watts limit_long && in_field 0 14 i
  || wants_seconds limit_long && in_field 17 21 i.

(** The bits a call of [raplcap_set_limits] on a zone may write. *)
Definition limits_written (zone : raplcap_zone)
    (limit_long limit_short : option raplcap_limit) (i : Z) : bool :=
  match zone with
  | RAPLCAP_ZONE_PACKAGE | RAPLCAP_ZONE_PSYS =>
      pkg_platform_written limit_long limit_short i
  | RAPLCAP_ZONE_CORE | RAPLCAP_ZONE_UNCORE | RAPLCAP_ZONE_DRAM =>
      core_uncore_dram_written limit_long i
  | RAPLCAP_ZONE_OTHER => false
  end.

(** The conversion of the requested power to a raw count is defined. *)
Definition power_request_defined (st : raplcap_msr)
    (l : option raplcap_limit) : Prop :=
  match l with
  | Some l =>
      Qpositive (watts l) = true ->
      exists r, u64_of_double (watts l / power_units st) = Ok r
  | None => True
  end.

(** The conversion of the requested window of a package or platform limit
    to an exponent is defined, for the fraction in bits [z0..z1] of [w]. *)
Definition window_request_defined (st : raplcap_msr) (w z0 z1 : Z)
    (l : option raplcap_limit) : Prop :=
  match l with
  | Some l =>
      Qpositive (seconds l) = true ->
      exists z y,
        get_bits w z0 z1 = Ok z /\
        u64_of_log2
          ((4 * seconds l) / (time_units st * (inject_Z z + 4)))%Q = Ok y
  | None => True
  end.

(** The same for a core, uncore or DRAM limit. *)
Definition window_request_defined_F (w : Z) (l : option raplcap_limit) : Prop :=
  match l with
  | Some l =>
      Qpositive (seconds l) = true ->
      exists z f y,
        get_bits w 22 23 = Ok z /\ to_time_window_F z = Ok f /\
        u64_of_log2 (seconds l / f)%Q = Ok y
  | None => True
  end.

(** [w1] is a [uint64_t] that agrees with [w] outside the field. *)
Definition updates_field (first last w w1 : Z) : Prop :=
  U64.in_range w1 /\
  forall i, in_field first last i = false -> Z.testbit w1 i = Z.testbit w i.

(** The value of bits [first..last] of a word. *)
Definition field (w first last : Z) : Z :=
  (w / 2 ^ first) mod 2 ^ (last - first + 1).



(** The session is initialised, the socket is one of its sockets, and the
    register of the zone on that socket holds the word [w]. *)
Definition zone_register (dev : msr_dev) (socket : Z) (rc : option raplcap)
    (zone : raplcap_zone) (st : raplcap_msr) (fd w : Z) : Prop :=
  session_state socket rc = Some st /\
  socket_fd st socket = Ok fd /\
  dev fd (zone_to_msr_offset zone) = Some w /\
  U64.in_range w.

Definition is_pkg_platform (zone : raplcap_zone) : Prop :=
  zone = RAPLCAP_ZONE_PACKAGE \/ zone = RAPLCAP_ZONE_PSYS.

Definition is_core_uncore_dram (zone : raplcap_zone) : Prop :=
  zone = RAPLCAP_ZONE_CORE \/ zone = RAPLCAP_ZONE_UNCORE \/
  zone = RAPLCAP_ZONE_DRAM.




(** A session of one socket whose registers all hold zero, with a power
    unit of 1/8 W and a time unit of 1/1024 s. *)
Definition dev0 : msr_dev := fun fd _ => if fd =? 3 then Some 0 else None.
Definition rc0 : option raplcap :=
  Some (mk_raplcap 1 (Some (mk_msr (Some [3]) (pow_half 3) (pow_half 10)))).

(** The descriptors [raplcap_destroy] has to close: the positive ones. *)
Definition open_fds (a : list Z) : list Z :=
  List.filter (fun fd => fd >? 0) a.

(** The errors of the calls of [close] that fail, in the order of the
    calls. *)
Definition close_errors (close : Z -> option Z) (closed : list Z) : list Z :=
  omap close closed.

(** Two descriptors whose [close] fails, with errors 5 and 9. *)
Definition close_3_4_fail (fd : Z) : option Z :=
  if fd =? 3 then Some 5 else if fd =? 4 then Some 9 else None.

(** The core a row of the discovery command names for a socket. *)
Definition row_core (socket : Z) (output : string) : option Z :=
  match sscanf_u_u output with
  | Some (s, core) => if s =? socket then Some core else None
  | None => None
  end.

(** The cores the rows name for a socket, in the order of the rows. *)
Definition cores_of (socket : Z) (outputs : list string) : list Z :=
  omap (row_core socket) outputs.

(** A row the loop rejects: it has fewer than two numbers, or its socket
    is not below the socket count. *)
Definition bad_row (sockets : Z) (output : string) : Prop :=
  match sscanf_u_u output with
  | Some (socket, _) => sockets <= socket
  | None => True
  end.

Definition minimum_of (l : list Z) (m : Z) : Prop :=
  In m l /\ forall x, In x l -> m <= x.

(** The core recorded for socket [i] in the two arrays of the loop, if
    one was found. *)
Definition slot (coreids coreids_found : list Z) (i : nat) : option Z :=
  match coreids_found !! i, coreids !! i with
  | Some found, Some core => if truthy found then Some core else None
  | _, _ => None
  end.

Definition keep_smallest (cur : option Z) (core : Z) : option Z :=
  match cur with
  | None => Some core
  | Some m => if core <? m then Some core else Some m
  end.

(** The record of one logical CPU in [/proc/cpuinfo] on x86, cut down to a
    few of its lines, in the order the kernel prints them. *)
Definition cpu_record (processor physical_id core_id : string) : list string :=
  [ ("processor" ++ String tab (": " ++ processor))%string;
    ("vendor_id" ++ String tab ": GenuineIntel")%string;
    ("model name" ++ String tab ": Intel(R) Xeon(R) CPU E5-2690 0 @ 2.90GHz")%string;
    ("physical id" ++ String tab (": " ++ physical_id))%string;
    ("siblings" ++ String tab ": 2")%string;
    ("core id" ++ String tab (String tab (": " ++ core_id)))%string;
    ("cpu cores" ++ String tab ": 2")%string;
    ""%string ].

(** A decimal numeral: digits only, and at least one. *)
Fixpoint all_digits (s : string) : bool :=
  match s with
  | EmptyString => true
  | String c s' =>
      (match digit_of 10 c with Some _ => true | None => false end)
      && all_digits s'
  end.

Definition numeral (s : string) : Prop :=
  s <> EmptyString /\ all_digits s = true.

(** A logical CPU of a topology: its processor number, its physical id
    and its core id, as the numerals [/proc/cpuinfo] shows. *)
Record cpu : Type := mk_cpu {
  cpu_processor : string;
  cpu_physical_id : string;
  cpu_core_id : string
}.

Definition cpu_numerals (c : cpu) : Prop :=
  numeral (cpu_processor c) /\ numeral (cpu_physical_id c) /\
  numeral (cpu_core_id c).

(** The text of [/proc/cpuinfo] for a topology. *)
Definition cpuinfo_of (cpus : list cpu) : list string :=
  flat_map (fun c => cpu_record (cpu_processor c) (cpu_physical_id c)
                       (cpu_core_id c)) cpus.

(** Two sockets of two CPUs: physical ids 0, 0, 1, 1 and core ids
    0, 4, 1, 5 for the processors 0 to 3. *)
Definition topology_2x2 : list cpu :=
  [ mk_cpu "0" "0" "0"; mk_cpu "1" "0" "4";
    mk_cpu "2" "1" "1"; mk_cpu "3" "1" "5" ].

Definition cpuinfo_2x2 : list string := cpuinfo_of topology_2x2.

(** Eleven sockets of one CPU each: physical ids 0 to 10. *)
Definition topology_11 : list cpu :=
  map (fun i => mk_cpu i i "0")
    ["0"; "1"; "2"; "3"; "4"; "5"; "6"; "7"; "8"; "9"; "10"]%string.

Definition cpuinfo_11 : list string := cpuinfo_of topology_11.

(** The physical ids of a [/proc/cpuinfo]: the numbers after the colon of
    its [physical id] lines. *)
Definition physical_ids (cpuinfo : list string) : list Z :=
  omap (fun line =>
          if contains "physical id" line
          then match scan_u32 (cut_d_colon_f2 line) with
               | Some (id, _) => Some id
               | None => None
               end
          else None)
       cpuinfo.

(** The socket count of the specification: the largest physical id plus
    one, and 0 when there is none. *)
Definition largest_physical_id_plus_one (cpuinfo : list string) : Z :=
  match physical_ids cpuinfo with
  | [] => 0
  | id :: ids => fold_right Z.max id ids + 1
  end.

(** The number a decimal numeral denotes. *)
Fixpoint numeral_value (s : string) (acc : Z) : Z :=
  match s with
  | EmptyString => acc
  | String c s' =>
      match digit_of 10 c with
      | Some d => numeral_value s' (acc * 10 + d)
      | None => acc
      end
  end.

Definition value_of (s : string) : Z := numeral_value s 0.

(** A CPU whose row of the discovery command fits one [fgets] and whose
    numbers fit a [uint32_t]. *)
Definition cpu_fits (c : cpu) : Prop :=
  cpu_numerals c /\
  (String.length (cpu_physical_id c) + String.length (cpu_processor c) <= 29)%nat /\
  value_of (cpu_physical_id c) < 2 ^ 32 /\
  value_of (cpu_processor c) < 2 ^ 32.

(** The processor numbers of the CPUs of a socket, in the order of the
    topology. *)
Definition processors_of (socket : Z) (cpus : list cpu) : list Z :=
  omap (fun c => if value_of (cpu_physical_id c) =? socket
                 then Some (value_of (cpu_processor c)) else None)
       cpus.

(** ** Zones a build supports *)

(** The macros [RAPL_UNCORE_SUPPORTED], [RAPL_DRAM_SUPPORTED] and
    [RAPL_PSYS_SUPPORTED] of a build: [None] when the macro is not
    defined. *)
Record build_macros : Type := mk_build_macros {
  RAPL_UNCORE_SUPPORTED : option Z;
  RAPL_DRAM_SUPPORTED : option Z;
  RAPL_PSYS_SUPPORTED : option Z
}.

(** The value of [#if defined(M) return M; #else return 1; #endif]. *)
Definition macro_or_1 (m : option Z) : Z :=
  match m with
  | Some v => v
  | None => 1
  end.

Definition raplcap_is_zone_supported (macros : build_macros) (socket : Z)
    (rc : option raplcap) (zone : raplcap_zone) : Z + errno_t :=
  match rc with
  | None => inr EINVAL
  | Some r =>
      if socket >=? nsockets r then inr EINVAL
      else
        match zone with
        | RAPLCAP_ZONE_PACKAGE | RAPLCAP_ZONE_CORE => inl 1
        | RAPLCAP_ZONE_UNCORE => inl (macro_or_1 (RAPL_UNCORE_SUPPORTED macros))
        | RAPLCAP_ZONE_DRAM => inl (macro_or_1 (RAPL_DRAM_SUPPORTED macros))
        | RAPLCAP_ZONE_PSYS => inl (macro_or_1 (RAPL_PSYS_SUPPORTED macros))
        | RAPLCAP_ZONE_OTHER => inr EINVAL
        end
  end.

(** The arguments every operation on a session rejects: no session, a
    session without state, or a socket the session does not have. *)
Definition invalid_session (socket : Z) (rc : option raplcap) : Prop :=
  match rc with
  | None => True
  | Some r => state r = None \/ nsockets r <= socket
  end.

(** A session of two sockets on the descriptors 3 and 4, whose registers
    all hold zero. *)
Definition dev34 : msr_dev :=
  fun fd _ => if (fd =? 3) || (fd =? 4) then Some 0 else None.
Definition rc34 : option raplcap :=
  Some (mk_raplcap 2 (Some (mk_msr (Some [3; 4]) (pow_half 3) (pow_half 10)))).

(** A session whose descriptor array has one entry per socket, as
    [raplcap_init] allocates it. *)
Definition session_well_formed (rc : option raplcap) : Prop :=
  match rc with
  | None => True
  | Some r =>
      match state r with
      | None => True
      | Some st =>
          exists a, fds st = Some a /\ length a = Z.to_nat (nsockets r)
      end
  end.

(** The descriptors of the sockets of a session are pairwise distinct, as
    descriptors that are open at the same time are. *)
Definition distinct_descriptors (rc : option raplcap) : Prop :=
  match rc with
  | None => True
  | Some r =>
      match state r with
      | None => True
      | Some st =>
          match fds st with
          | None => True
          | Some a => NoDup a
          end
      end
  end.

(** A build that defines none of the three macros. *)
Definition no_macros : build_macros := mk_build_macros None None None.

(** The two outcomes of a call that reads a register, computes a word and
    writes it back. *)
Definition write_outcome (dev : msr_dev) (socket : Z) (rc : option raplcap)
    (zone : raplcap_zone) (dev' : msr_dev) (r : Z + errno_t) : Prop :=
  (r = inl 0 /\
   exists st fd w w',
     session_state socket rc = Some st /\ socket_fd st socket = Ok fd /\
     dev fd (zone_to_msr_offset zone) = Some w /\
     dev' = dev_store dev fd (zone_to_msr_offset zone) w') \/
  ((exists e, r = inr e) /\ dev' = dev).

(** A write of [w_data] to the bits [w_first..w_last] of a word. *)
Record field_write : Type := mk_write {
  w_data : Z;
  w_first : Z;
  w_last : Z
}.

(** The writes applied in order, each with [replace_bits]. *)
Fixpoint replace_all (w : Z) (ws : list field_write) : res Z :=
  match ws with
  | [] => Ok w
  | x :: more =>
      do w' <- replace_bits w (w_data x) (w_first x) (w_last x);
      replace_all w' more
  end.

(** A range [replace_bits] has a result on. *)
Definition write_ok (x : field_write) : Prop :=
  0 <= w_first x /\ w_first x <= w_last x /\ w_last x < 64 /\
  w_last x - w_first x < 63.

(** Bit [i] of a word after the writes, from the bit [b] it had before:
    the last write that covers the bit decides. *)
Fixpoint overlay (ws : list field_write) (b : bool) (i : Z) : bool :=
  match ws with
  | [] => b
  | x :: more =>
      overlay more
        (if in_field (w_first x) (w_last x) i
         then Z.testbit (w_data x) (i - w_first x) else b) i
  end.

Definition covers (ws : list field_write) (i : Z) : bool :=
  existsb (fun x => in_field (w_first x) (w_last x) i) ws.

Local Open Scope Q_scope.

(** The write of the power field a limit asks for, if any. *)
Definition power_write (st : raplcap_msr) (l : raplcap_limit)
    (first last : Z) : res (list field_write) :=
  if Qpositive (watts l) then
    do msr_pwr <- u64_of_double (watts l / power_units st);
    Ok [mk_write msr_pwr first last]
  else Ok [].

(** The write of the exponent field a package or platform limit asks for,
    with the fraction in bits [z0..z1] of [w]. *)
Definition window_write (w : Z) (st : raplcap_msr) (l : raplcap_limit)
    (z0 z1 first last : Z) : res (list field_write) :=
  if Qpositive (seconds l) then
    do z <- get_bits w z0 z1;
    do msr_time <- u64_of_log2
      ((4 * seconds l) / (time_units st * (inject_Z z + 4)));
    Ok [mk_write msr_time first last]
  else Ok [].

(** The same for a core, uncore or DRAM limit. *)
Definition window_write_F (w : Z) (l : raplcap_limit) : res (list field_write) :=
  if Qpositive (seconds l) then
    do z <- get_bits w 22 23;
    do f <- to_time_window_F z;
    do msr_time <- u64_of_log2 (seconds l / f);
    Ok [mk_write msr_time 17 21]
  else Ok [].

Local Close Scope Q_scope.

(** The writes of [set_pkg_platform] on the word [w], in their order. *)
Definition pkg_platform_writes (w : Z) (st : raplcap_msr)
    (limit_long limit_short : option raplcap_limit) : res (list field_write) :=
  do a <-
    match limit_long with
    | Some l =>
        do p <- power_write st l 0 14;
        do t <- window_write w st l 22 23 17 21;
        Ok (p ++ t)
    | None => Ok []
    end;
  do b <-
    match limit_short with
    | Some l =>
        do p <- power_write st l 32 46;
        do t <- window_write w st l 54 55 49 53;
        Ok (p ++ t)
    | None => Ok []
    end;
  Ok (a ++ b).

(** The writes of [set_core_uncore_dram] on the word [w]. *)
Definition core_uncore_dram_writes (w : Z) (st : raplcap_msr)
    (limit_long : option raplcap_limit) : res (list field_write) :=
  match limit_long with
  | Some l =>
      do p <- power_write st l 0 14;
      do t <- window_write_F w l;
      Ok (p ++ t)
  | None => Ok []
  end.

(** The writes of [set_pkg_platform_enabled] and of
    [set_core_uncore_dram_enabled]. *)
Definition pkg_platform_enabled_writes (enabled : Z) : list field_write :=
  let set := if truthy enabled then 1 else 0 in
  [mk_write set 15 15; mk_write set 47 47; mk_write set 16 16; mk_write set 48 48].

Definition core_uncore_dram_enabled_writes (enabled : Z) : list field_write :=
  let set := if truthy enabled then 1 else 0 in
  [mk_write set 15 15; mk_write set 16 16].

(** The bits of the power and exponent fields of a limit register. *)
Definition limit_field (i : Z) : bool :=
  in_field 0 14 i || in_field 17 21 i || in_field 32 46 i || in_field 49 53 i.

Local Close Scope Q_scope.

(** The encoder [raplcap_set_limits] runs on the register word of a zone,
    and the one [raplcap_set_zone_enabled] runs. *)
Definition zone_limits_word (zone : raplcap_zone) (w : Z) (st : raplcap_msr)
    (limit_long limit_short : option raplcap_limit) : res Z :=
  match zone with
  | RAPLCAP_ZONE_PACKAGE | RAPLCAP_ZONE_PSYS =>
      set_pkg_platform w st limit_long limit_short
  | RAPLCAP_ZONE_CORE | RAPLCAP_ZONE_UNCORE | RAPLCAP_ZONE_DRAM =>
      set_core_uncore_dram w st limit_long
  | RAPLCAP_ZONE_OTHER => Ok w
  end.

Definition zone_enabled_word (zone : raplcap_zone) (w enabled : Z) : res Z :=
  match zone with
  | RAPLCAP_ZONE_PACKAGE | RAPLCAP_ZONE_PSYS =>
      set_pkg_platform_enabled w enabled
  | RAPLCAP_ZONE_CORE | RAPLCAP_ZONE_UNCORE | RAPLCAP_ZONE_DRAM =>
      set_core_uncore_dram_enabled w enabled
  | RAPLCAP_ZONE_OTHER => Ok w
  end.

(** Two devices that hold the same words. *)
Definition same_words (dev dev' : msr_dev) : Prop :=
  forall fd off, dev' fd off = dev fd off.

(** The order of [sort]: the order of the bytes of the lines. *)
Definition line_lt (a b : string) : Prop := String.compare a b = Lt.

(** A numeral of one digit. *)
Definition one_digit (s : string) : Prop :=
  exists c d, s = String c EmptyString /\ digit_of 10 c = Some d.

(** A machine on the text of the two-socket topology where only the
    [msr] file of processor 0 can be opened, as descriptor 3. *)
Definition open_only_cpu0 (f : msr_file) : Z :=
  match f with
  | dev_cpu_msr_safe _ => -1
  | dev_cpu_msr core => if core =? 0 then 3 else -1
  end.

Definition machine_only_cpu0 : machine :=
  mk_machine true true cpuinfo_2x2 true true open_only_cpu0
    (fun _ => None) dev0.


(** One of the two register files of the processor of a CPU can be
    opened. *)
Definition msr_file_opens (open_rdwr : msr_file -> Z) (c : cpu) : Prop :=
  0 <= open_rdwr (dev_cpu_msr_safe (value_of (cpu_processor c))) \/
  0 <= open_rdwr (dev_cpu_msr (value_of (cpu_processor c))).

(** * The program of [src/rapl-configure/rapl-configure.c] *)

Module RaplConfigure.

Record rapl_configure_ctx : Type := mk_ctx {
  get_sockets : Z;
  zone : raplcap_zone;
  socket : Z;
  enabled : Z;
  set_enabled : Z;
  set_long : Z;
  watts_long : Q;
  sec_long : Q;
  set_short : Z;
  watts_short : Q;
  sec_short : Q
}.

(** The library of [raplcap.h] as this program calls it: every operation
    is on the default context ([rc] is NULL) and may change the world
    behind the library. [raplcap_get_limits] receives the two limits the
    caller holds and returns them as it leaves them. *)
Record raplcap_h (W : Type) : Type := mk_raplcap_h {
  raplcap_get_num_sockets : W -> W * Z;
  raplcap_init : W -> W * Z;
  raplcap_destroy : W -> W * Z;
  raplcap_is_zone_supported : Z -> raplcap_zone -> W -> W * Z;
  raplcap_is_zone_enabled : Z -> raplcap_zone -> W -> W * Z;
  raplcap_is_zone_locked : Z -> raplcap_zone -> W -> W * Z;
  raplcap_set_zone_enabled : Z -> raplcap_zone -> Z -> W -> W * Z;
  raplcap_get_limits :
    Z -> raplcap_zone -> raplcap_limit -> raplcap_limit ->
    W -> W * (Z * raplcap_limit * raplcap_limit);
  raplcap_set_limits :
    Z -> raplcap_zone -> option raplcap_limit -> option raplcap_limit ->
    W -> W * Z;
  raplcap_get_energy_counter : Z -> raplcap_zone -> W -> W * Q;
  raplcap_get_energy_counter_max : Z -> raplcap_zone -> W -> W * Q
}.

Arguments raplcap_get_num_sockets {W}.
Arguments raplcap_init {W}.
Arguments raplcap_destroy {W}.
Arguments raplcap_is_zone_supported {W}.
Arguments raplcap_is_zone_enabled {W}.
Arguments raplcap_is_zone_locked {W}.
Arguments raplcap_set_zone_enabled {W}.
Arguments raplcap_get_limits {W}.
Arguments raplcap_set_limits {W}.
Arguments raplcap_get_energy_counter {W}.
Arguments raplcap_get_energy_counter_max {W}.

(** What the program does that can be seen from outside: the calls of the
    library and the text it writes. A [printf] is recorded with its
    arguments; the digits of a [%.12f] are not modelled. *)
Inductive event : Type :=
| Call_get_num_sockets
| Call_init
| Call_destroy
| Call_is_zone_supported (socket : Z) (zone : raplcap_zone)
| Call_is_zone_enabled (socket : Z) (zone : raplcap_zone)
| Call_is_zone_locked (socket : Z) (zone : raplcap_zone)
| Call_set_zone_enabled (socket : Z) (zone : raplcap_zone) (enabled : Z)
| Call_get_limits (socket : Z) (zone : raplcap_zone)
| Call_set_limits (socket : Z) (zone : raplcap_zone)
    (limit_long limit_short : option raplcap_limit)
| Call_get_energy_counter (socket : Z) (zone : raplcap_zone)
| Call_get_energy_counter_max (socket : Z) (zone : raplcap_zone)
| Perror (msg : string)                       (* perror(msg) *)
| Stderr (text : string)                      (* fprintf(stderr, text) *)
| Printf_s (width : Z) (label value : string) (* printf("%<width>s: %s\n") *)
| Printf_f (width : Z) (label : string) (value : Q)
                                              (* printf("%<width>s: %.12f\n") *)
| Printf_u32 (value : Z)                      (* printf("%" PRIu32 "\n") *)
| Print_usage (exit_code : Z)                 (* the usage text *)
| Setenv_read_only.          (* setenv(ENV_RAPLCAP_READ_ONLY, "1", 0) *)

(** A run of a part of the program: from the world and the events so far
    to a result, the world and the events after it. *)
Definition prog (W A : Type) : Type := W * list event -> A * (W * list event).

Definition pure {W A : Type} (a : A) : prog W A := fun s => (a, s).

Definition prog_bind {W A B : Type} (m : prog W A) (k : A -> prog W B)
  : prog W B :=
  fun s => let '(a, s') := m s in k a s'.

Notation "'run' x <- m ; k" := (prog_bind m (fun x => k))
  (at level 10, x name, m at level 100, k at level 200).

Definition emit {W : Type} (e : event) : prog W unit :=
  fun '(w, t) => (tt, (w, t ++ [e])).

(** A call of the library: the event, then the operation on the world. *)
Definition call {W A : Type} (e : event) (op : W -> W * A) : prog W A :=
  fun '(w, t) => let '(w', a) := op w in (a, (w', t ++ [e])).

Definition print_limits {W : Type} (enabled locked : Z)
    (watts_long seconds_long watts_short seconds_short joules joules_max : Q)
  : prog W unit :=
  let en := if enabled <? 0 then "unknown"%string
            else if truthy enabled then "true"%string else "false"%string in
  let lck := if locked <? 0 then "unknown"%string
             else if truthy locked then "true"%string else "false"%string in
  if Qpositive seconds_short then
    run _ <- emit (Printf_s 13 "enabled" en);
    run _ <- emit (Printf_f 13 "watts_long" watts_long);
    run _ <- emit (Printf_f 13 "seconds_long" seconds_long);
    run _ <- emit (Printf_f 13 "watts_short" watts_short);
    run _ <- emit (Printf_f 13 "seconds_short" seconds_short);
    run _ <- (if Qle_bool 0 joules
              then emit (Printf_f 13 "joules" joules) else pure tt);
    run _ <- (if Qle_bool 0 joules_max
              then emit (Printf_f 13 "joules_max" joules_max) else pure tt);
    emit (Printf_s 13 "locked" lck)
  else
    run _ <- emit (Printf_s 7 "enabled" en);
    run _ <- emit (Printf_f 7 "watts" watts_long);
    run _ <- emit (Printf_f 7 "seconds" seconds_long);
    run _ <- (if Qle_bool 0 joules
              then emit (Printf_f 7 "joules" joules) else pure tt);
    run _ <- (if Qle_bool 0 joules_max
              then emit (Printf_f 7 "joules_max" joules_max) else pure tt);
    emit (Printf_s 7 "locked" lck).

Definition print_error_continue {W : Type} (msg : string) : prog W unit :=
  run _ <- emit (Perror msg);
  emit (Stderr "Trying to proceed anyway...").

(** [configure_limits]: [ctx] is the global context, which the function
    reads for [disable], and [c] its parameter. *)
Definition configure_limits {W : Type} (lib : raplcap_h W)
    (ctx c : rapl_configure_ctx) : prog W Z :=
  let disable := truthy (set_enabled ctx) && negb (truthy (enabled ctx)) in
  let ll := if truthy (set_long c)
            then Some (mk_limit (sec_long c) (watts_long c)) else None in
  let ls := if truthy (set_short c)
            then Some (mk_limit (sec_short c) (watts_short c)) else None in
  run ret <- (if disable
              then call (Call_set_zone_enabled (socket c) (zone c) 0)
                     (raplcap_set_zone_enabled lib (socket c) (zone c) 0)
              else pure 0);
  if disable && truthy ret then
    run _ <- emit (Perror "Failed to disable zone"); pure ret
  else
    let set := truthy (set_long c) || truthy (set_short c) in
    run ret <- (if set
                then call (Call_set_limits (socket c) (zone c) ll ls)
                       (raplcap_set_limits lib (socket c) (zone c) ll ls)
                else pure ret);
    if set && truthy ret then
      run _ <- emit (Perror "Failed to set limits"); pure ret
    else
      run ret <- (if negb disable
                  then call (Call_set_zone_enabled (socket c) (zone c) 1)
                         (raplcap_set_zone_enabled lib (socket c) (zone c) 1)
                  else pure ret);
      if negb disable && truthy ret then
        run _ <- emit (Perror "Failed to enable zone"); pure ret
      else pure 0.

(** [get_limits]; the second warning tests [enabled], as the source
    does. *)
Definition get_limits {W : Type} (lib : raplcap_h W) (socket : Z)
    (zone : raplcap_zone) : prog W Z :=
  let ll := mk_limit 0 0 in
  let ls := mk_limit 0 0 in
  run enabled <- call (Call_is_zone_enabled socket zone)
                   (raplcap_is_zone_enabled lib socket zone);
  run _ <- (if enabled <? 0
            then print_error_continue "Failed to determine if zone is enabled"
            else pure tt);
  run locked <- call (Call_is_zone_locked socket zone)
                  (raplcap_is_zone_locked lib socket zone);
  run _ <- (if enabled <? 0
            then print_error_continue "Failed to determine if zone is locked"
            else pure tt);
  run r <- call (Call_get_limits socket zone)
             (raplcap_get_limits lib socket zone ll ls);
  let '(ret, ll, ls) := r in
  if truthy ret then
    run _ <- emit (Perror "Failed to get limits"); pure ret
  else
    run joules <- call (Call_get_energy_counter socket zone)
                    (raplcap_get_energy_counter lib socket zone);
    run joules_max <- call (Call_get_energy_counter_max socket zone)
                        (raplcap_get_energy_counter_max lib socket zone);
    run _ <- print_limits enabled locked (watts ll) (seconds ll)
               (watts ls) (seconds ls) joules joules_max;
    pure ret.

(** One result of [getopt_long]: the option character and its argument
    (empty for an option without one). An option that is not known comes
    as ['?']. *)
Definition parsed_option : Type := (ascii * string)%type.

(** The end of the program in [print_usage]: the text written before it
    ends, and the exit code. *)
Definition usage_exit : Type := (list event * Z)%type.

(** [print_usage]: the usage text, then [exit(exit_code)]. *)
Definition print_usage (exit_code : Z) : usage_exit :=
  ([Print_usage exit_code], exit_code).

(** [SET_VAL]: the value, or the end of the program. *)
Definition SET_VAL (atof : string -> Q) (optarg : string) : Q + usage_exit :=
  let val := atof optarg in
  if Qle_bool val 0
  then inr (Stderr "Time window and power limit values must be > 0"
            :: fst (print_usage 1), snd (print_usage 1))
  else inl val.

(** The body of the option loop of [main]: the context after the option,
    or the end of the program in [print_usage]. *)
Definition main_option (atoi : string -> Z) (atof : string -> Q)
    (ctx : rapl_configure_ctx) (o : parsed_option)
  : rapl_configure_ctx + usage_exit :=
  let '(c, optarg) := o in
  let '(mk_ctx gs z s en se sl wl tl ss ws ts) := ctx in
  if Ascii.eqb c "h" then inr (print_usage 0)
  else if Ascii.eqb c "c" then
    inl (mk_ctx gs z (atoi optarg mod 2 ^ 32) en se sl wl tl ss ws ts)
  else if Ascii.eqb c "n" then inl (mk_ctx 1 z s en se sl wl tl ss ws ts)
  else if Ascii.eqb c "z" then
    if String.eqb optarg "PACKAGE"
    then inl (mk_ctx gs RAPLCAP_ZONE_PACKAGE s en se sl wl tl ss ws ts)
    else if String.eqb optarg "CORE"
    then inl (mk_ctx gs RAPLCAP_ZONE_CORE s en se sl wl tl ss ws ts)
    else if String.eqb optarg "UNCORE"
    then inl (mk_ctx gs RAPLCAP_ZONE_UNCORE s en se sl wl tl ss ws ts)
    else if String.eqb optarg "DRAM"
    then inl (mk_ctx gs RAPLCAP_ZONE_DRAM s en se sl wl tl ss ws ts)
    else if String.eqb optarg "PSYS"
    then inl (mk_ctx gs RAPLCAP_ZONE_PSYS s en se sl wl tl ss ws ts)
    else inr (print_usage 1)
  else if Ascii.eqb c "e" then
    inl (mk_ctx gs z s (atoi optarg) 1 sl wl tl ss ws ts)
  else if Ascii.eqb c "s" then
    match SET_VAL atof optarg with
    | inl v => inl (mk_ctx gs z s en se 1 wl v ss ws ts)
    | inr x => inr x
    end
  else if Ascii.eqb c "w" then
    match SET_VAL atof optarg with
    | inl v => inl (mk_ctx gs z s en se 1 v tl ss ws ts)
    | inr x => inr x
    end
  else if Ascii.eqb c "S" then
    match SET_VAL atof optarg with
    | inl v => inl (mk_ctx gs z s en se sl wl tl 1 ws v)
    | inr x => inr x
    end
  else if Ascii.eqb c "W" then
    match SET_VAL atof optarg with
    | inl v => inl (mk_ctx gs z s en se sl wl tl 1 v ts)
    | inr x => inr x
    end
  else inr (print_usage 1).

(** The option loop, over the results of [getopt_long] in their order. *)
Fixpoint main_options (atoi : string -> Z) (atof : string -> Q)
    (ctx : rapl_configure_ctx) (opts : list parsed_option)
  : rapl_configure_ctx + usage_exit :=
  match opts with
  | [] => inl ctx
  | o :: more =>
      match main_option atoi atof ctx o with
      | inl ctx' => main_options atoi atof ctx' more
      | inr x => inr x
      end
  end.

(** [memset(&ctx, 0, sizeof(rapl_configure_ctx))]: the zone whose value is
    0 is the package, the default of the usage text. *)
Definition ctx_zero : rapl_configure_ctx :=
  mk_ctx 0 RAPLCAP_ZONE_PACKAGE 0 0 0 0 0 0 0 0 0.

(** [main] after the option loop has left [ctx], where [_WIN32] is not
    defined. *)
Definition main_run {W : Type} (lib : raplcap_h W) (ctx : rapl_configure_ctx)
  : prog W Z :=
  if truthy (get_sockets ctx) then
    run sockets <- call Call_get_num_sockets (raplcap_get_num_sockets lib);
    if sockets =? 0 then
      run _ <- emit (Perror "Failed to get number of sockets"); pure 1
    else
      run _ <- emit (Printf_u32 sockets); pure 0
  else
    let is_read_only :=
      negb (truthy (set_enabled ctx)) && negb (truthy (set_long ctx))
      && negb (truthy (set_short ctx)) in
    run _ <- (if is_read_only then emit Setenv_read_only else pure tt);
    run r <- call Call_init (raplcap_init lib);
    if truthy r then
      run _ <- emit (Perror "Failed to initialize"); pure 1
    else
      run supported <- call (Call_is_zone_supported (socket ctx) (zone ctx))
                         (raplcap_is_zone_supported lib (socket ctx) (zone ctx));
      run ret <-
        (if supported =? 0 then
           run _ <- emit (Stderr "Zone not supported"); pure (-1)
         else
           run _ <- (if supported <? 0
                     then print_error_continue
                            "Failed to determine if zone is supported"
                     else pure tt);
           if is_read_only then get_limits lib (socket ctx) (zone ctx)
           else configure_limits lib ctx ctx);
      run d <- call Call_destroy (raplcap_destroy lib);
      run _ <- (if truthy d then emit (Perror "Failed to clean up")
                else pure tt);
      pure ret.

(** [main]: the exit code, the world and the events. [atoi] and [atof]
    are those of the C library. *)
Definition main {W : Type} (lib : raplcap_h W) (atoi : string -> Z)
    (atof : string -> Q) (opts : list parsed_option) : prog W Z :=
  match main_options atoi atof ctx_zero opts with
  | inr (text, code) => fun '(w, t) => (code, (w, t ++ text))
  | inl ctx => main_run lib ctx
  end.

End RaplConfigure.

(** The calls [configure_limits] has to make for a context, in their
    order: the zone is disabled first when that is asked for, the limits
    are set when there are any, and the zone is enabled last unless it is
    to be disabled. *)
Definition configure_plan (c : RaplConfigure.rapl_configure_ctx)
  : list RaplConfigure.event :=
  let disable := truthy (RaplConfigure.set_enabled c)
                 && negb (truthy (RaplConfigure.enabled c)) in
  let ll := if truthy (RaplConfigure.set_long c)
            then Some (mk_limit (RaplConfigure.sec_long c)
                         (RaplConfigure.watts_long c))
            else None in
  let ls := if truthy (RaplConfigure.set_short c)
            then Some (mk_limit (RaplConfigure.sec_short c)
                         (RaplConfigure.watts_short c))
            else None in
  (if disable
   then [RaplConfigure.Call_set_zone_enabled (RaplConfigure.socket c)
           (RaplConfigure.zone c) 0]
   else [])
  ++ (if truthy (RaplConfigure.set_long c) || truthy (RaplConfigure.set_short c)
      then [RaplConfigure.Call_set_limits (RaplConfigure.socket c)
              (RaplConfigure.zone c) ll ls]
      else [])
  ++ (if disable then []
      else [RaplConfigure.Call_set_zone_enabled (RaplConfigure.socket c)
              (RaplConfigure.zone c) 1]).

(** The message [configure_limits] reports a failing call with. *)
Definition failure_message (e : RaplConfigure.event) : string :=
  match e with
  | RaplConfigure.Call_set_zone_enabled _ _ v =>
      if v =? 0 then "Failed to disable zone"%string
      else "Failed to enable zone"%string
  | RaplConfigure.Call_set_limits _ _ _ _ => "Failed to set limits"%string
  | _ => EmptyString
  end.

(** What the library returns for a call of the plan. *)
Definition plan_call {W : Type} (lib : RaplConfigure.raplcap_h W)
    (e : RaplConfigure.event) (w : W) : W * Z :=
  match e with
  | RaplConfigure.Call_set_zone_enabled s z v =>
      RaplConfigure.raplcap_set_zone_enabled lib s z v w
  | RaplConfigure.Call_set_limits s z ll ls =>
      RaplConfigure.raplcap_set_limits lib s z ll ls w
  | _ => (w, 0)
  end.

(** The calls of a plan made in order up to the first that does not return
    0: the value returned (0 when every call returned 0), the world, and
    the calls made. *)
Fixpoint until_failure {W : Type} (lib : RaplConfigure.raplcap_h W)
    (plan : list RaplConfigure.event) (w : W)
  : Z * W * list RaplConfigure.event :=
  match plan with
  | [] => (0, w, [])
  | e :: more =>
      let '(w', r) := plan_call lib e w in
      if truthy r then (r, w', [e; RaplConfigure.Perror (failure_message e)])
      else let '(r', w'', t) := until_failure lib more w' in (r', w'', e :: t)
  end.

(** An event that is a call of a setter of the library. *)
Definition is_setter_call (e : RaplConfigure.event) : bool :=
  match e with
  | RaplConfigure.Call_set_zone_enabled _ _ _
  | RaplConfigure.Call_set_limits _ _ _ _ => true
  | _ => false
  end.

(** An event that is a call of the library. *)
Definition is_call (e : RaplConfigure.event) : bool :=
  match e with
  | RaplConfigure.Perror _ | RaplConfigure.Stderr _
  | RaplConfigure.Printf_s _ _ _ | RaplConfigure.Printf_f _ _ _
  | RaplConfigure.Printf_u32 _ | RaplConfigure.Print_usage _
  | RaplConfigure.Setenv_read_only => false
  | _ => true
  end.

(** A library that answers every call with the same values and has no
    world behind it. *)
Definition lib_fixed (ret enabled locked : Z) (ll ls : raplcap_limit)
    (joules : Q) : RaplConfigure.raplcap_h unit :=
  RaplConfigure.mk_raplcap_h unit
    (fun w => (w, 2)) (fun w => (w, ret)) (fun w => (w, ret))
    (fun _ _ w => (w, 1)) (fun _ _ w => (w, enabled))
    (fun _ _ w => (w, locked)) (fun _ _ _ w => (w, ret))
    (fun _ _ _ _ w => (w, (ret, ll, ls))) (fun _ _ _ _ w => (w, ret))
    (fun _ _ w => (w, joules)) (fun _ _ w => (w, joules)).

(** The text [print_limits] shows for a flag. *)
Definition flag_text (v : Z) : string :=
  if v <? 0 then "unknown"%string
  else if truthy v then "true"%string else "false"%string.



(** An option that asks for a change: [-e], [-s], [-w], [-S] or [-W]. *)
Definition is_set_option (o : RaplConfigure.parsed_option) : bool :=
  let c := fst o in
  Ascii.eqb c "e" || Ascii.eqb c "s" || Ascii.eqb c "w"
  || Ascii.eqb c "S" || Ascii.eqb c "W".

(** The socket and the zone a call of the library is about; none for the
    calls on the whole session and for what is no call. *)
Definition call_zone (e : RaplConfigure.event) : option (Z * raplcap_zone) :=
  match e with
  | RaplConfigure.Call_is_zone_supported s z
  | RaplConfigure.Call_is_zone_enabled s z
  | RaplConfigure.Call_is_zone_locked s z
  | RaplConfigure.Call_set_zone_enabled s z _
  | RaplConfigure.Call_get_limits s z
  | RaplConfigure.Call_set_limits s z _ _
  | RaplConfigure.Call_get_energy_counter s z
  | RaplConfigure.Call_get_energy_counter_max s z => Some (s, z)
  | _ => None
  end.

(** [is_read_only] of [main]. *)
Definition is_read_only (ctx : RaplConfigure.rapl_configure_ctx) : bool :=
  negb (truthy (RaplConfigure.set_enabled ctx))
  && negb (truthy (RaplConfigure.set_long ctx))
  && negb (truthy (RaplConfigure.set_short ctx)).

(** * Properties *)

(** ** Bit fields *)

Lemma testbit_wrap (x i : Z) :
  Z.testbit (U64.wrap x) i = (i <? 64) && Z.testbit x i.
Proof. unfold U64.wrap, U64.modulus. apply Z.testbit_mod_pow2. lia. Qed.

Lemma testbit_u64_max (i : Z) :
  Z.testbit U64.max i = (0 <=? i) && (i <? 64).
Proof.
  change U64.max with (Z.ones 64). apply Z.testbit_ones. lia.
Qed.

Lemma testbit_lnot (x i : Z) :
  Z.testbit (U64.lnot x) i = xorb (Z.testbit x i) ((0 <=? i) && (i <? 64)).
Proof. unfold U64.lnot. now rewrite Z.lxor_spec, testbit_u64_max. Qed.

Lemma in_range_testbit (w : Z) :
  U64.in_range w <-> (forall i, Z.testbit w i = true -> 0 <= i < 64).
Proof.
  unfold U64.in_range, U64.modulus. split.
  - intros [H0 H1] i Hi. split.
    + destruct (Z.neg_nonneg_cases i) as [Hn|]; [|lia].
      rewrite Z.testbit_neg_r in Hi by lia. discriminate.
    + destruct (Z.lt_ge_cases i 64) as [|Hge]; [lia|].
      rewrite (Z.bits_above_log2 w i) in Hi; [discriminate|lia|].
      destruct (Z.eq_dec w 0) as [->|]; [simpl; lia|].
      assert (Z.log2 w < 64) by (apply Z.log2_lt_pow2; lia). lia.
  - intros H.
    assert (Hw : w = w mod 2 ^ 64).
    { apply Z.bits_inj'. intros i Hi. rewrite Z.testbit_mod_pow2 by lia.
      destruct (Z.testbit w i) eqn:E; [|now rewrite andb_false_r].
      apply H in E. destruct (Z.ltb_spec i 64); [reflexivity|lia]. }
    rewrite Hw. apply Z.mod_pos_bound. lia.
Qed.

(** The word [replace_bits] computes when its shifts are defined. *)
Lemma replace_bits_ok (w v first last : Z) :
  0 <= first -> first <= last -> last < 64 -> last - first < 63 ->
  exists w',
    replace_bits w v first last = Ok w' /\
    forall i, 0 <= i ->
      Z.testbit w' i =
      if (first <=? i) && (i <=? last) then Z.testbit v (i - first)
      else Z.testbit w i && (i <? 64).
Proof.
  intros H0 H1 H2 H3. unfold replace_bits, c_assert, U64.shl.
  rewrite (proj2 (Z.leb_le first last)) by lia.
  rewrite (proj2 (Z.ltb_lt last 64)) by lia. cbn [res_bind].
  rewrite (proj2 (Z.leb_le 0 (last - first + 1))) by lia.
  rewrite (proj2 (Z.ltb_lt (last - first + 1) 64)) by lia.
  rewrite (proj2 (Z.leb_le 0 first)) by lia.
  rewrite (proj2 (Z.ltb_lt first 64)) by lia. cbn [andb res_bind].
  eexists. split; [reflexivity|]. intros i Hi.
  rewrite Z.lor_spec, !Z.land_spec, testbit_lnot, !testbit_wrap.
  rewrite !Z.shiftl_spec by lia.
  replace (U64.wrap (Z.shiftl 1 (last - first + 1)) - 1)
    with (Z.ones (last - first + 1)).
  2:{ rewrite Z.ones_equiv, Z.shiftl_1_l. unfold U64.wrap, U64.modulus.
      rewrite Z.mod_small; [lia|]. split; [lia|].
      apply Z.pow_lt_mono_r; lia. }
  rewrite Z.testbit_ones by lia.
  destruct (Z.leb_spec first i), (Z.leb_spec i last), (Z.ltb_spec i 64),
    (Z.leb_spec 0 (i - first)), (Z.ltb_spec (i - first) (last - first + 1)),
    (Z.leb_spec 0 i);
    try lia; cbn; destruct (Z.testbit w i), (Z.testbit v (i - first)); reflexivity.
Qed.


Lemma get_bits_narrow (w first last : Z) :
  0 <= first -> first <= last -> last < 64 -> last - first < 30 ->
  get_bits w first last
  = Ok (Z.land (Z.shiftr w first) (Z.ones (last - first + 1))).
Proof.
  intros H0 H1 H2 H3. unfold get_bits, c_assert, U64.shr, I32.shl.
  rewrite (proj2 (Z.leb_le first last)) by lia.
  rewrite (proj2 (Z.ltb_lt last 64)) by lia. cbn [res_bind].
  rewrite (proj2 (Z.leb_le 0 first)) by lia.
  rewrite (proj2 (Z.ltb_lt first 64)) by lia. cbn [andb res_bind].
  rewrite (proj2 (Z.leb_le 0 (last - first + 1))) by lia.
  rewrite (proj2 (Z.ltb_lt (last - first + 1) 32)) by lia.
  rewrite Z.shiftl_1_l.
  assert (2 ^ (last - first + 1) <= 2 ^ 30) by (apply Z.pow_le_mono_r; lia).
  rewrite (proj2 (Z.leb_le (2 ^ (last - first + 1)) I32.max))
    by (unfold I32.max; lia).
  cbn [andb res_bind]. now rewrite Z.ones_equiv, Z.sub_1_r.
Qed.

Lemma get_bits_wide (w first last : Z) :
  0 <= first -> first <= last -> last < 64 -> 30 <= last - first ->
  get_bits w first last = Stuck Undefined.
Proof.
  intros H0 H1 H2 H3. unfold get_bits, c_assert, U64.shr, I32.shl.
  rewrite (proj2 (Z.leb_le first last)) by lia.
  rewrite (proj2 (Z.ltb_lt last 64)) by lia. cbn [res_bind].
  rewrite (proj2 (Z.leb_le 0 first)) by lia.
  rewrite (proj2 (Z.ltb_lt first 64)) by lia. cbn [andb res_bind].
  rewrite Z.shiftl_1_l.
  destruct (Z.ltb_spec (last - first + 1) 32) as [Hlt|Hge];
    [|now rewrite andb_false_r].
  assert (2 ^ 31 <= 2 ^ (last - first + 1)) by (apply Z.pow_le_mono_r; lia).
  rewrite (proj2 (Z.leb_gt (2 ^ (last - first + 1)) I32.max))
    by (unfold I32.max; lia).
  now rewrite andb_false_r.
Qed.

Lemma testbit_field (w first n j : Z) :
  0 <= first -> 0 <= n -> 0 <= j ->
  Z.testbit (Z.land (Z.shiftr w first) (Z.ones n)) j
  = Z.testbit w (j + first) && (j <? n).
Proof.
  intros. now rewrite Z.land_spec, Z.shiftr_spec, Z.testbit_ones_nonneg by lia.
Qed.

(** Reading back the field just written. *)
Lemma get_replace_same (w v first last w' : Z) :
  0 <= first -> first <= last -> last < 64 -> last - first < 30 ->
  replace_bits w v first last = Ok w' ->
  get_bits w' first last = Ok (v mod 2 ^ (last - first + 1)).
Proof.
  intros H0 H1 H2 H3 Hr.
  destruct (replace_bits_ok w v first last) as (w2 & E & Hbits); try lia.
  rewrite E in Hr. injection Hr as <-.
  rewrite get_bits_narrow by lia. f_equal.
  rewrite <- Z.land_ones by lia.
  apply Z.bits_inj'. intros j Hj.
  rewrite testbit_field, Z.land_spec, Z.testbit_ones_nonneg, Hbits by lia.
  destruct (Z.ltb_spec j (last - first + 1)).
  - rewrite (proj2 (Z.leb_le first (j + first))) by lia.
    rewrite (proj2 (Z.leb_le (j + first) last)) by lia. cbn.
    now replace (j + first - first) with j by lia.
  - now rewrite !andb_false_r.
Qed.

(** A field that does not meet the one written keeps its value. *)
Lemma get_replace_other (w v first last w' a b : Z) :
  0 <= first -> first <= last -> last < 64 -> last - first < 63 ->
  0 <= a -> a <= b -> b < 64 -> b < first \/ last < a ->
  replace_bits w v first last = Ok w' ->
  get_bits w' a b = get_bits w a b.
Proof.
  intros H0 H1 H2 H3 Ha Hab Hb Hd Hr.
  destruct (replace_bits_ok w v first last) as (w2 & E & Hbits); try lia.
  rewrite E in Hr. injection Hr as <-.
  destruct (Z.lt_ge_cases (b - a) 30).
  - rewrite !get_bits_narrow by lia. f_equal.
    apply Z.bits_inj'. intros j Hj.
    rewrite !testbit_field, Hbits by lia.
    destruct (Z.ltb_spec j (b - a + 1)); [|now rewrite !andb_false_r].
    destruct (Z.leb_spec first (j + a)), (Z.leb_spec (j + a) last);
      try lia; cbn [andb];
      rewrite (proj2 (Z.ltb_lt (j + a) 64)) by lia;
      now rewrite !andb_true_r.
  - now rewrite !get_bits_wide by lia.
Qed.

(** The bits outside the field written are those of the old word. *)
Lemma replace_bits_frame (w v first last w' i : Z) :
  U64.in_range w ->
  0 <= first -> first <= last -> last < 64 -> last - first < 63 ->
  replace_bits w v first last = Ok w' ->
  i < first \/ last < i ->
  Z.testbit w' i = Z.testbit w i.
Proof.
  intros Hw H0 H1 H2 H3 Hr Hi.
  destruct (replace_bits_ok w v first last) as (w2 & E & Hbits); try lia.
  rewrite E in Hr. injection Hr as <-.
  destruct (Z.neg_nonneg_cases i) as [Hn|Hn].
  { now rewrite !Z.testbit_neg_r by lia. }
  rewrite Hbits by lia.
  destruct (Z.leb_spec first i), (Z.leb_spec i last); try lia; cbn [andb];
    (destruct (Z.testbit w i) eqn:E1; [|reflexivity];
     apply (proj1 (in_range_testbit w) Hw) in E1;
     now rewrite (proj2 (Z.ltb_lt i 64)) by lia).
Qed.

Lemma replace_bits_in_range (w v first last w' : Z) :
  0 <= first -> first <= last -> last < 64 -> last - first < 63 ->
  replace_bits w v first last = Ok w' -> U64.in_range w'.
Proof.
  intros H0 H1 H2 H3 Hr.
  destruct (replace_bits_ok w v first last) as (w2 & E & Hbits); try lia.
  rewrite E in Hr. injection Hr as <-.
  apply in_range_testbit. intros i Hi.
  destruct (Z.neg_nonneg_cases i) as [Hn|Hn].
  { rewrite Z.testbit_neg_r in Hi by lia. discriminate. }
  rewrite Hbits in Hi by lia. split; [lia|].
  destruct (Z.leb_spec first i), (Z.leb_spec i last); cbn [andb] in Hi;
    try lia; apply andb_prop in Hi as [_ Hi]; now apply Z.ltb_lt in Hi.
Qed.


(** ** Enable and clamp bits *)

Lemma truthy_of_bool (b : bool) : truthy (of_bool b) = b.
Proof. now destruct b. Qed.

Lemma get_bit (w k : Z) :
  0 <= k < 64 -> get_bits w k k = Ok (of_bool (Z.testbit w k)).
Proof.
  intros Hk. rewrite get_bits_narrow by lia. f_equal.
  replace (k - k + 1) with 1 by lia.
  rewrite Z.land_ones, <- Z.bit0_mod, Z.shiftr_spec by lia.
  reflexivity.
Qed.

Lemma replace_bit (w set k : Z) :
  0 <= k < 64 ->
  exists w', replace_bits w set k k = Ok w' /\
    Z.testbit w' k = Z.testbit set 0 /\
    forall i, 0 <= i -> i <> k -> Z.testbit w' i = Z.testbit w i && (i <? 64).
Proof.
  intros Hk.
  destruct (replace_bits_ok w set k k) as (w' & E & Hbits); try lia.
  exists w'. split; [exact E|]. split.
  - rewrite Hbits by lia. rewrite Z.leb_refl, Z.sub_diag. reflexivity.
  - intros i Hi Hne. rewrite Hbits by lia.
    destruct (Z.leb_spec k i), (Z.leb_spec i k); try lia; reflexivity.
Qed.

Lemma testbit_set (v : Z) :
  Z.testbit (if truthy v then 1 else 0) 0 = truthy v.
Proof. now destruct (truthy v). Qed.

Lemma is_pkg_platform_enabled_spec (w : Z) :
  is_pkg_platform_enabled w = Ok (of_bool (Z.testbit w 15 && Z.testbit w 47)).
Proof.
  unfold is_pkg_platform_enabled. rewrite !get_bit by lia. cbn [res_bind].
  rewrite !truthy_of_bool. now destruct (Z.testbit w 15).
Qed.

Lemma set_pkg_platform_enabled_spec (w v : Z) :
  exists w', set_pkg_platform_enabled w v = Ok w' /\
    Z.testbit w' 15 = truthy v /\ Z.testbit w' 47 = truthy v /\
    Z.testbit w' 16 = truthy v /\ Z.testbit w' 48 = truthy v /\
    forall i, 0 <= i -> i <> 15 -> i <> 47 -> i <> 16 -> i <> 48 ->
      Z.testbit w' i = Z.testbit w i && (i <? 64).
Proof.
  unfold set_pkg_platform_enabled. cbv zeta.
  destruct (replace_bit w (if truthy v then 1 else 0) 15) as (w1 & E1 & B1 & F1); [lia|].
  destruct (replace_bit w1 (if truthy v then 1 else 0) 47) as (w2 & E2 & B2 & F2); [lia|].
  destruct (replace_bit w2 (if truthy v then 1 else 0) 16) as (w3 & E3 & B3 & F3); [lia|].
  destruct (replace_bit w3 (if truthy v then 1 else 0) 48) as (w4 & E4 & B4 & F4); [lia|].
  rewrite E1. cbn [res_bind]. rewrite E2. cbn [res_bind]. rewrite E3. cbn [res_bind].
  exists w4. split; [exact E4|]. rewrite testbit_set in *.
  repeat split.
  - rewrite F4, F3, F2, B1 by lia. now destruct (truthy v).
  - rewrite F4, F3, B2 by lia. now destruct (truthy v).
  - rewrite F4, B3 by lia. now destruct (truthy v).
  - exact B4.
  - intros i Hi N1 N2 N3 N4. rewrite F4, F3, F2, F1 by lia.
    destruct (Z.testbit w i), (i <? 64); reflexivity.
Qed.

Lemma set_core_uncore_dram_enabled_spec (w v : Z) :
  exists w', set_core_uncore_dram_enabled w v = Ok w' /\
    Z.testbit w' 15 = truthy v /\ Z.testbit w' 16 = truthy v /\
    forall i, 0 <= i -> i <> 15 -> i <> 16 ->
      Z.testbit w' i = Z.testbit w i && (i <? 64).
Proof.
  unfold set_core_uncore_dram_enabled. cbv zeta.
  destruct (replace_bit w (if truthy v then 1 else 0) 15) as (w1 & E1 & B1 & F1); [lia|].
  destruct (replace_bit w1 (if truthy v then 1 else 0) 16) as (w2 & E2 & B2 & F2); [lia|].
  rewrite E1. cbn [res_bind].
  exists w2. split; [exact E2|]. rewrite testbit_set in *.
  repeat split.
  - rewrite F2, B1 by lia. now destruct (truthy v).
  - exact B2.
  - intros i Hi N1 N2. rewrite F2, F1 by lia.
    destruct (Z.testbit w i), (i <? 64); reflexivity.
Qed.

(** Two words that agree on a field read the same there. *)
Lemma get_bits_ext (w w' a b : Z) :
  0 <= a -> a <= b -> b < 64 ->
  (forall i, a <= i <= b -> Z.testbit w' i = Z.testbit w i) ->
  get_bits w' a b = get_bits w a b.
Proof.
  intros Ha Hab Hb H.
  destruct (Z.lt_ge_cases (b - a) 30).
  - rewrite !get_bits_narrow by lia. f_equal.
    apply Z.bits_inj'. intros j Hj. rewrite !testbit_field by lia.
    destruct (Z.ltb_spec j (b - a + 1)); [|now rewrite !andb_false_r].
    now rewrite H by lia.
  - now rewrite !get_bits_wide by lia.
Qed.

Lemma in_range_high (w i : Z) :
  U64.in_range w -> Z.testbit w i && (i <? 64) = Z.testbit w i.
Proof.
  intros Hw. destruct (Z.testbit w i) eqn:E; [|reflexivity].
  apply (proj1 (in_range_testbit w) Hw) in E.
  now rewrite (proj2 (Z.ltb_lt i 64)) by lia.
Qed.

Lemma set_pkg_platform_enabled_frame (w v : Z) :
  U64.in_range w ->
  exists w', set_pkg_platform_enabled w v = Ok w' /\
    forall i, ~ In i [15; 16; 47; 48] -> Z.testbit w' i = Z.testbit w i.
Proof.
  intros Hw.
  destruct (set_pkg_platform_enabled_spec w v) as (w' & E & _ & _ & _ & _ & F).
  exists w'. split; [exact E|]. intros i Hi. cbn in Hi.
  destruct (Z.neg_nonneg_cases i) as [Hn|Hn].
  { now rewrite !Z.testbit_neg_r by lia. }
  rewrite F by lia. now apply in_range_high.
Qed.

Lemma set_core_uncore_dram_enabled_frame (w v : Z) :
  U64.in_range w ->
  exists w', set_core_uncore_dram_enabled w v = Ok w' /\
    forall i, ~ In i [15; 16] -> Z.testbit w' i = Z.testbit w i.
Proof.
  intros Hw.
  destruct (set_core_uncore_dram_enabled_spec w v) as (w' & E & _ & _ & F).
  exists w'. split; [exact E|]. intros i Hi. cbn in Hi.
  destruct (Z.neg_nonneg_cases i) as [Hn|Hn].
  { now rewrite !Z.testbit_neg_r by lia. }
  rewrite F by lia. now apply in_range_high.
Qed.

Lemma dev_store_other (dev : msr_dev) (fd off w fd' off' : Z) :
  (fd', off') <> (fd, off) -> dev_store dev fd off w fd' off' = dev fd' off'.
Proof.
  intros Hne. unfold dev_store.
  destruct (Z.eqb_spec fd' fd), (Z.eqb_spec off' off); cbn; congruence.
Qed.

Lemma dev_store_same (dev : msr_dev) (fd off w : Z) :
  dev_store dev fd off w fd off = Some w.
Proof. unfold dev_store. now rewrite !Z.eqb_refl. Qed.

(** What a write leaves in the device. *)
Lemma write_msr_effect (dev : msr_dev) (fd msr data : Z) dev' r :
  write_msr_by_offset dev fd msr data = (dev', r) ->
  (dev' = dev /\ r <> inl 0) \/
  (dev' = dev_store dev fd msr data /\ r = inl 0 /\ exists w, dev fd msr = Some w).
Proof.
  unfold write_msr_by_offset.
  destruct (msr <? 0); [intros [= <- <-]; left; split; congruence|].
  destruct (dev fd msr) as [w|] eqn:E; intros [= <- <-].
  - right. eauto.
  - left. split; congruence.
Qed.

(** C10. Enabling or disabling a zone changes no bit of the zone's register
    word other than 15, 16, 47 and 48 (package, platform) or 15 and 16
    (core, uncore, DRAM): the power and time-window fields read as before,
    and the register device differs from the one before the call in the
    bits of that one set at most. *)
Theorem set_zone_enabled_frame (w v : Z) :
  U64.in_range w ->
  (exists w', set_pkg_platform_enabled w v = Ok w' /\
     (forall i, ~ In i [15; 16; 47; 48] -> Z.testbit w' i = Z.testbit w i) /\
     get_bits w' 0 14 = get_bits w 0 14 /\
     get_bits w' 17 21 = get_bits w 17 21 /\
     get_bits w' 22 23 = get_bits w 22 23 /\
     get_bits w' 32 46 = get_bits w 32 46 /\
     get_bits w' 49 53 = get_bits w 49 53 /\
     get_bits w' 54 55 = get_bits w 54 55) /\
  (exists w', set_core_uncore_dram_enabled w v = Ok w' /\
     (forall i, ~ In i [15; 16] -> Z.testbit w' i = Z.testbit w i) /\
     get_bits w' 0 14 = get_bits w 0 14 /\
     get_bits w' 17 21 = get_bits w 17 21 /\
     get_bits w' 22 23 = get_bits w 22 23) /\
  (forall dev socket rc zone dev' r,
     words_in_range dev ->
     raplcap_set_zone_enabled dev socket rc zone v = Ok (dev', r) ->
     forall fd off,
       dev' fd off = dev fd off \/
       exists w0 w1, dev fd off = Some w0 /\ dev' fd off = Some w1 /\
         forall i, ~ In i (enable_bits zone) -> Z.testbit w1 i = Z.testbit w0 i).
Proof.
  intros Hw. split; [|split].
  - destruct (set_pkg_platform_enabled_frame w v Hw) as (w' & E & F).
    exists w'. split; [exact E|]. split; [exact F|].
    repeat split; apply get_bits_ext; try lia; intros i Hi; apply F; cbn; lia.
  - destruct (set_core_uncore_dram_enabled_frame w v Hw) as (w' & E & F).
    exists w'. split; [exact E|]. split; [exact F|].
    repeat split; apply get_bits_ext; try lia; intros i Hi; apply F; cbn; lia.
  - intros dev socket rc zone dev' r Hdev Hcall fd off.
    unfold raplcap_set_zone_enabled in Hcall.
    destruct (session_state socket rc) as [st|]; [|injection Hcall as <- _; now left].
    destruct (socket_fd st socket) as [fd0|]; [cbn [res_bind] in Hcall|discriminate].
    unfold read_msr_by_offset in Hcall.
    destruct (zone_to_msr_offset zone <? 0) eqn:Eoff;
      [injection Hcall as <- _; now left|].
    destruct (dev fd0 (zone_to_msr_offset zone)) as [w0|] eqn:Ew0;
      [|injection Hcall as <- _; now left].
    assert (Hw0 : U64.in_range w0) by (eapply Hdev; eassumption).
    assert (Hwrite : forall w1,
      (forall i, ~ In i (enable_bits zone) -> Z.testbit w1 i = Z.testbit w0 i) ->
      write_msr_by_offset dev fd0 (zone_to_msr_offset zone) w1 = (dev', r) ->
      dev' fd off = dev fd off \/
      exists w0 w1, dev fd off = Some w0 /\ dev' fd off = Some w1 /\
        forall i, ~ In i (enable_bits zone) -> Z.testbit w1 i = Z.testbit w0 i).
    { intros w1 F Hwr. apply write_msr_effect in Hwr as [[-> _]|(-> & _ & _)];
        [now left|].
      destruct (decide ((fd, off) = (fd0, zone_to_msr_offset zone))) as [[= -> ->]|Hne].
      - right. exists w0, w1. now rewrite dev_store_same.
      - left. now apply dev_store_other. }
    destruct zone; cbn [enable_bits] in *;
      try (destruct (set_pkg_platform_enabled_frame w0 v Hw0) as (w1 & E & F);
           rewrite E in Hcall; cbn [res_bind] in Hcall;
           injection Hcall as Hcall; now apply (Hwrite w1));
      try (destruct (set_core_uncore_dram_enabled_frame w0 v Hw0) as (w1 & E & F);
           rewrite E in Hcall; cbn [res_bind] in Hcall;
           injection Hcall as Hcall; now apply (Hwrite w1)).
    injection Hcall as <- _. now left.
Qed.

Lemma set_zone_enabled_frame_witness :
  U64.in_range 0x00DD8000005F8000 /\
  exists w', set_pkg_platform_enabled 0x00DD8000005F8000 0 = Ok w' /\
    get_bits w' 0 14 = get_bits 0x00DD8000005F8000 0 14.
Proof.
  assert (H : U64.in_range 0x00DD8000005F8000)
    by (unfold U64.in_range, U64.modulus; lia).
  split; [exact H|].
  destruct (set_zone_enabled_frame 0x00DD8000005F8000 0 H)
    as ((w' & E & _ & F & _) & _).
  exists w'. now split.
Defined.

(** ** Exactness of the mask width *)

(** On the ranges whose width [get_bits] can form a mask for, writing a
    field and reading it back gives the value modulo the width of the
    range, and the write leaves the bits outside the range alone. *)
Lemma replace_then_get_narrow (w v first last : Z) :
  U64.in_range w ->
  0 <= first -> first <= last -> last < 64 -> last - first < 30 ->
  exists w',
    replace_bits w v first last = Ok w' /\
    get_bits w' first last = Ok (v mod 2 ^ (last - first + 1)) /\
    forall i, i < first \/ last < i -> Z.testbit w' i = Z.testbit w i.
Proof.
  intros Hw H0 H1 H2 H3.
  destruct (replace_bits_ok w v first last) as (w' & E & _); try lia.
  exists w'. split; [exact E|]. split.
  - apply (get_replace_same w v); assumption || lia.
  - intros i Hi. apply (replace_bits_frame w v first last); assumption || lia.
Qed.


(** ** Frame of the limit encoders *)

Lemma replace_bits_updates (w v first last w1 : Z) :
  U64.in_range w ->
  0 <= first -> first <= last -> last < 64 -> last - first < 63 ->
  replace_bits w v first last = Ok w1 ->
  updates_field first last w w1.
Proof.
  intros Hw H0 H1 H2 H3 Hr. split.
  - now apply (replace_bits_in_range w v first last).
  - intros i Hi. apply (replace_bits_frame w v first last); try assumption.
    unfold in_field in Hi. apply andb_false_iff in Hi as [Hi|Hi];
      [apply Z.leb_gt in Hi | apply Z.leb_gt in Hi]; lia.
Qed.

Lemma bind_ok {A B : Type} (m : res A) (k : A -> res B) (b : B) :
  res_bind m k = Ok b -> exists a, m = Ok a /\ k a = Ok b.
Proof. destruct m as [a|]; [eauto|discriminate]. Qed.

(** Takes a hypothesis [H : _ = Ok _] about a run of the encoder apart,
    down to its [replace_bits] calls. *)
Ltac split_run H :=
  lazymatch type of H with
  | res_bind _ _ = Ok _ =>
      let a := fresh "x" in
      let E := fresh "E" in
      let K := fresh "K" in
      apply bind_ok in H as (a & E & K); split_run E; split_run K
  | (if ?c then _ else _) = Ok _ =>
      let C := fresh "C" in destruct c eqn:C; split_run H
  | match ?l with Some _ => _ | None => _ end = Ok _ =>
      destruct l; split_run H
  | Ok _ = Ok _ => injection H as H; try subst
  | _ => idtac
  end.

Lemma set_pkg_platform_frame (w : Z) (st : raplcap_msr)
    (ll ls : option raplcap_limit) (w' : Z) :
  U64.in_range w ->
  set_pkg_platform w st ll ls = Ok w' ->
  U64.in_range w' /\
  forall i, pkg_platform_written ll ls i = false ->
    Z.testbit w' i = Z.testbit w i.
Proof.
  intros Hw H. unfold set_pkg_platform in H. split_run H.
  all: repeat match goal with
       | R : replace_bits ?a _ _ _ = Ok ?b |- _ =>
           apply replace_bits_updates in R as [? ?]; [|assumption || lia ..]
       end.
  all: split; [assumption|].
  all: intros i Hi; unfold pkg_platform_written, wants_watts, wants_seconds in Hi;
       repeat match goal with C : Qpositive _ = _ |- _ => rewrite C in Hi; clear C end;
       cbn [andb orb] in Hi; rewrite ?orb_false_r in Hi;
       repeat (apply orb_false_elim in Hi as [Hi ?]).
  all: repeat match goal with
       | F : forall i, in_field _ _ i = false -> Z.testbit ?b i = _ |- context [Z.testbit ?b ?i] =>
           rewrite (F i) by assumption
       end; reflexivity.
Qed.

Lemma set_core_uncore_dram_frame (w : Z) (st : raplcap_msr)
    (ll : option raplcap_limit) (w' : Z) :
  U64.in_range w ->
  set_core_uncore_dram w st ll = Ok w' ->
  U64.in_range w' /\
  forall i, core_uncore_dram_written ll i = false ->
    Z.testbit w' i = Z.testbit w i.
Proof.
  intros Hw H. unfold set_core_uncore_dram in H. split_run H.
  all: repeat match goal with
       | R : replace_bits ?a _ _ _ = Ok ?b |- _ =>
           apply replace_bits_updates in R as [? ?]; [|assumption || lia ..]
       end.
  all: split; [assumption|].
  all: intros i Hi; unfold core_uncore_dram_written, wants_watts, wants_seconds in Hi;
       repeat match goal with C : Qpositive _ = _ |- _ => rewrite C in Hi; clear C end;
       cbn [andb orb] in Hi; rewrite ?orb_false_r in Hi;
       repeat (apply orb_false_elim in Hi as [Hi ?]).
  all: repeat match goal with
       | F : forall i, in_field _ _ i = false -> Z.testbit ?b i = _ |- context [Z.testbit ?b ?i] =>
           rewrite (F i) by assumption
       end; reflexivity.
Qed.

(** With nothing to write the encoders return the word as it is. *)
Lemma set_pkg_platform_nothing (w : Z) (st : raplcap_msr)
    (ll ls : option raplcap_limit) :
  wants_watts ll = false -> wants_seconds ll = false ->
  wants_watts ls = false -> wants_seconds ls = false ->
  set_pkg_platform w st ll ls = Ok w.
Proof.
  unfold set_pkg_platform.
  destruct ll, ls; cbn [wants_watts wants_seconds]; intros;
    repeat match goal with
           | H : Qpositive _ = false |- _ => rewrite H; clear H
           end; reflexivity.
Qed.

Lemma set_core_uncore_dram_nothing (w : Z) (st : raplcap_msr)
    (ll : option raplcap_limit) :
  wants_watts ll = false -> wants_seconds ll = false ->
  set_core_uncore_dram w st ll = Ok w.
Proof.
  unfold set_core_uncore_dram.
  destruct ll; cbn [wants_watts wants_seconds]; intros;
    repeat match goal with
           | H : Qpositive _ = false |- _ => rewrite H; clear H
           end; reflexivity.
Qed.

(** ** The exponent written by the limit encoders *)

(** Rewrites a read of the word after a [replace_bits] of another field
    into a read of the word before it. *)
Ltac read_through :=
  repeat match goal with
  | R : replace_bits ?a ?v ?f ?l = Ok ?b |- context [get_bits ?b ?x ?y] =>
      rewrite (get_replace_other a v f l b x y) by (assumption || lia)
  | R : replace_bits ?a ?v ?f ?l = Ok ?b, G : context [get_bits ?b ?x ?y] |- _ =>
      rewrite (get_replace_other a v f l b x y) in G by (assumption || lia)
  end.




(** ** Definedness of the limit encoders *)

Lemma replace_bits_total (w v first last : Z) :
  0 <= first -> first <= last -> last < 64 -> last - first < 63 ->
  exists w', replace_bits w v first last = Ok w'.
Proof.
  intros. destruct (replace_bits_ok w v first last) as (w' & E & _); eauto.
Qed.

(** Runs the next [replace_bits] of the goal. *)
Ltac run_replace :=
  match goal with
  | |- context [replace_bits ?a ?v ?f ?l] =>
      let b := fresh "b" in
      let R := fresh "R" in
      destruct (replace_bits_total a v f l) as (b & R); [lia ..|];
      rewrite R; cbn [res_bind]
  end.

Lemma set_pkg_platform_defined (w : Z) (st : raplcap_msr)
    (ll ls : option raplcap_limit) :
  power_request_defined st ll -> window_request_defined st w 22 23 ll ->
  power_request_defined st ls -> window_request_defined st w 54 55 ls ->
  exists w', set_pkg_platform w st ll ls = Ok w'.
Proof.
  intros P1 T1 P2 T2. unfold set_pkg_platform.
  destruct ll as [l1|], ls as [l2|];
    cbn [power_request_defined window_request_defined] in *.
  all: repeat match goal with
       | |- context [Qpositive ?x] =>
           let C := fresh "C" in destruct (Qpositive x) eqn:C
       | P : true = true -> exists r, u64_of_double _ = Ok r |- _ =>
           destruct (P eq_refl) as (? & ->); clear P; cbn [res_bind]
       | T : true = true -> exists z y, get_bits _ _ _ = Ok z /\ _ |- _ =>
           let G := fresh "G" in
           destruct (T eq_refl) as (? & ? & G & ?); clear T
       | |- context [replace_bits _ _ _ _] => run_replace
       | G : get_bits ?w ?a ?b = Ok _ |- context [get_bits ?x ?a ?b] =>
           progress (read_through; rewrite G; cbn [res_bind])
       | Y : u64_of_log2 ?q = Ok _ |- context [u64_of_log2 ?q] =>
           rewrite Y; cbn [res_bind]
       | _ => progress cbn [res_bind]
       end.
  all: eauto.
Qed.

Lemma set_core_uncore_dram_defined (w : Z) (st : raplcap_msr)
    (ll : option raplcap_limit) :
  power_request_defined st ll -> window_request_defined_F w ll ->
  exists w', set_core_uncore_dram w st ll = Ok w'.
Proof.
  intros P1 T1. unfold set_core_uncore_dram.
  destruct ll as [l1|];
    cbn [power_request_defined window_request_defined_F] in *.
  all: repeat match goal with
       | |- context [Qpositive ?x] =>
           let C := fresh "C" in destruct (Qpositive x) eqn:C
       | P : true = true -> exists r, u64_of_double _ = Ok r |- _ =>
           destruct (P eq_refl) as (? & ->); clear P; cbn [res_bind]
       | T : true = true -> exists z f y, get_bits _ _ _ = Ok z /\ _ |- _ =>
           let G := fresh "G" in
           destruct (T eq_refl) as (? & ? & ? & G & ? & ?); clear T
       | |- context [replace_bits _ _ _ _] => run_replace
       | G : get_bits ?w ?a ?b = Ok _ |- context [get_bits ?x ?a ?b] =>
           progress (read_through; rewrite G; cbn [res_bind])
       | F : to_time_window_F ?z = Ok _ |- context [to_time_window_F ?z] =>
           rewrite F; cbn [res_bind]
       | Y : u64_of_log2 ?q = Ok _ |- context [u64_of_log2 ?q] =>
           rewrite Y; cbn [res_bind]
       | _ => progress cbn [res_bind]
       end.
  all: eauto.
Qed.

(** ** Limits are written only on request *)

Lemma frame_fields (P : Z -> bool) (w w' a b : Z) :
  (forall i, P i = false -> Z.testbit w' i = Z.testbit w i) ->
  0 <= a -> a <= b -> b < 64 ->
  (forall i, a <= i <= b -> P i = false) ->
  get_bits w' a b = get_bits w a b.
Proof. intros F Ha Hab Hb HP. apply get_bits_ext; auto. Qed.

Lemma in_field_out (first last i : Z) :
  i < first \/ last < i -> in_field first last i = false.
Proof.
  intros H. unfold in_field. apply andb_false_iff.
  destruct H; [left|right]; apply Z.leb_gt; lia.
Qed.

(** Decides [_written _ _ i = false] for an [i] bounded away from the
    fields that are requested. *)
Ltac outside_written :=
  unfold pkg_platform_written, core_uncore_dram_written;
  repeat match goal with
         | H : wants_watts _ = false |- _ => rewrite H; clear H
         | H : wants_seconds _ = false |- _ => rewrite H; clear H
         end;
  cbn [wants_watts wants_seconds andb orb];
  rewrite ?in_field_out by lia;
  rewrite ?andb_false_r; reflexivity.

Lemma set_limits_session_frame (dev : msr_dev) (socket : Z)
    (rc : option raplcap) (zone : raplcap_zone)
    (ll ls : option raplcap_limit) (dev' : msr_dev) (r : Z + errno_t) :
  words_in_range dev ->
  raplcap_set_limits dev socket rc zone ll ls = Ok (dev', r) ->
  forall fd off,
    dev' fd off = dev fd off \/
    exists w0 w1, dev fd off = Some w0 /\ dev' fd off = Some w1 /\
      forall i, limits_written zone ll ls i = false ->
        Z.testbit w1 i = Z.testbit w0 i.
Proof.
  intros Hdev Hcall fd off.
  unfold raplcap_set_limits in Hcall.
  destruct (session_state socket rc) as [st|]; [|injection Hcall as <- _; now left].
  destruct (socket_fd st socket) as [fd0|]; [cbn [res_bind] in Hcall|discriminate].
  unfold read_msr_by_offset in Hcall.
  destruct (zone_to_msr_offset zone <? 0) eqn:Eoff;
    [injection Hcall as <- _; now left|].
  destruct (dev fd0 (zone_to_msr_offset zone)) as [w0|] eqn:Ew0;
    [|injection Hcall as <- _; now left].
  assert (Hw0 : U64.in_range w0) by (eapply Hdev; eassumption).
  assert (Hwrite : forall w1,
    (forall i, limits_written zone ll ls i = false ->
       Z.testbit w1 i = Z.testbit w0 i) ->
    write_msr_by_offset dev fd0 (zone_to_msr_offset zone) w1 = (dev', r) ->
    dev' fd off = dev fd off \/
    exists w0 w1, dev fd off = Some w0 /\ dev' fd off = Some w1 /\
      forall i, limits_written zone ll ls i = false ->
        Z.testbit w1 i = Z.testbit w0 i).
  { intros w1 F Hwr. apply write_msr_effect in Hwr as [[-> _]|(-> & _ & _)];
      [now left|].
    destruct (decide ((fd, off) = (fd0, zone_to_msr_offset zone)))
      as [[= -> ->]|Hne].
    - right. exists w0, w1. now rewrite dev_store_same.
    - left. now apply dev_store_other. }
  destruct zone; cbn [limits_written] in *;
    try (apply bind_ok in Hcall as (w1 & E & Hcall);
         injection Hcall as Hcall; apply (Hwrite w1); [|exact Hcall];
         first [ apply (set_pkg_platform_frame w0 st ll ls w1 Hw0 E)
               | apply (set_core_uncore_dram_frame w0 st ll w1 Hw0 E) ]).
  injection Hcall as <- _. now left.
Qed.

(** C6. A call of the limit encoders changes no bit outside the power and
    exponent fields of the limits that are present with a positive value:
    a component that is absent, zero or negative keeps its stored bits, the
    fraction bits are never written, the short-term fields of a package or
    platform word survive a call with a long-term limit only and the
    long-term ones a call with a short-term limit only; with nothing to
    write the word is returned as it is, the call has a result whenever
    the conversions of the requested values have one, and the device after
    [raplcap_set_limits] differs from the one before in such bits only. *)
Theorem set_limits_frame (w : Z) (st : raplcap_msr)
    (ll ls : option raplcap_limit) :
  U64.in_range w ->
  (forall w', set_pkg_platform w st ll ls = Ok w' ->
     (forall i, pkg_platform_written ll ls i = false ->
        Z.testbit w' i = Z.testbit w i) /\
     (wants_watts ll = false -> get_bits w' 0 14 = get_bits w 0 14) /\
     (wants_seconds ll = false -> get_bits w' 17 21 = get_bits w 17 21) /\
     (wants_watts ls = false -> get_bits w' 32 46 = get_bits w 32 46) /\
     (wants_seconds ls = false -> get_bits w' 49 53 = get_bits w 49 53) /\
     get_bits w' 22 23 = get_bits w 22 23 /\
     get_bits w' 54 55 = get_bits w 54 55) /\
  (forall w', set_pkg_platform w st ll None = Ok w' ->
     get_bits w' 32 46 = get_bits w 32 46 /\
     get_bits w' 49 53 = get_bits w 49 53 /\
     get_bits w' 54 55 = get_bits w 54 55) /\
  (forall w', set_pkg_platform w st None ls = Ok w' ->
     get_bits w' 0 14 = get_bits w 0 14 /\
     get_bits w' 17 21 = get_bits w 17 21 /\
     get_bits w' 22 23 = get_bits w 22 23) /\
  (forall w', set_core_uncore_dram w st ll = Ok w' ->
     (forall i, core_uncore_dram_written ll i = false ->
        Z.testbit w' i = Z.testbit w i) /\
     (wants_watts ll = false -> get_bits w' 0 14 = get_bits w 0 14) /\
     (wants_seconds ll = false -> get_bits w' 17 21 = get_bits w 17 21) /\
     get_bits w' 22 23 = get_bits w 22 23) /\
  (wants_watts ll = false -> wants_seconds ll = false ->
   wants_watts ls = false -> wants_seconds ls = false ->
   set_pkg_platform w st ll ls = Ok w /\ set_core_uncore_dram w st ll = Ok w) /\
  (power_request_defined st ll -> window_request_defined st w 22 23 ll ->
   power_request_defined st ls -> window_request_defined st w 54 55 ls ->
   exists w', set_pkg_platform w st ll ls = Ok w') /\
  (power_request_defined st ll -> window_request_defined_F w ll ->
   exists w', set_core_uncore_dram w st ll = Ok w') /\
  (forall dev socket rc zone dev' r,
     words_in_range dev ->
     raplcap_set_limits dev socket rc zone ll ls = Ok (dev', r) ->
     forall fd off,
       dev' fd off = dev fd off \/
       exists w0 w1, dev fd off = Some w0 /\ dev' fd off = Some w1 /\
         forall i, limits_written zone ll ls i = false ->
           Z.testbit w1 i = Z.testbit w0 i).
Proof.
  intros Hw. repeat apply conj.
  - intros w' H. destruct (set_pkg_platform_frame w st ll ls w' Hw H) as [_ F].
    split; [exact F|].
    repeat apply conj; intros;
      apply (frame_fields _ _ _ _ _ F); try lia; intros; outside_written.
  - intros w' H. destruct (set_pkg_platform_frame w st ll None w' Hw H) as [_ F].
    repeat apply conj;
      apply (frame_fields _ _ _ _ _ F); try lia; intros; outside_written.
  - intros w' H. destruct (set_pkg_platform_frame w st None ls w' Hw H) as [_ F].
    repeat apply conj;
      apply (frame_fields _ _ _ _ _ F); try lia; intros; outside_written.
  - intros w' H. destruct (set_core_uncore_dram_frame w st ll w' Hw H) as [_ F].
    split; [exact F|].
    repeat apply conj; intros;
      apply (frame_fields _ _ _ _ _ F); try lia; intros; outside_written.
  - intros. split;
      [now apply set_pkg_platform_nothing | now apply set_core_uncore_dram_nothing].
  - apply set_pkg_platform_defined.
  - apply set_core_uncore_dram_defined.
  - intros dev socket rc zone dev' r. apply set_limits_session_frame.
Qed.

Lemma set_limits_frame_witness :
  U64.in_range 0x00DD8000005F8000 /\
  exists w',
    set_pkg_platform 0x00DD8000005F8000
      (mk_msr (Some [3]) (pow_half 3) (pow_half 10))
      (Some (mk_limit 0 100)) None = Ok w' /\
    get_bits w' 17 21 = get_bits 0x00DD8000005F8000 17 21 /\
    get_bits w' 32 46 = get_bits 0x00DD8000005F8000 32 46.
Proof.
  assert (H : U64.in_range 0x00DD8000005F8000)
    by (unfold U64.in_range, U64.modulus; lia).
  split; [exact H|].
  eexists. split; [reflexivity|].
  destruct (set_limits_frame 0x00DD8000005F8000
              (mk_msr (Some [3]) (pow_half 3) (pow_half 10))
              (Some (mk_limit 0 100)) None H) as (F & _).
  destruct (F _ eq_refl) as (_ & _ & F1 & F2 & _).
  split; [now apply F1 | now apply F2].
Defined.



(** ** Decoding the time window *)


Lemma get_bits_field (w first last : Z) :
  0 <= first -> first <= last -> last < 64 -> last - first < 30 ->
  get_bits w first last = Ok (field w first last).
Proof.
  intros. rewrite get_bits_narrow by lia. unfold field.
  now rewrite Z.land_ones, Z.shiftr_div_pow2 by lia.
Qed.





(** ** Setting limits and reading them back *)


(** *** Conversions of doubles *)







(** *** The raw count written by the limit encoders *)




(** *** The limits decoded from a word *)




(** *** Bounds of the round trip *)



(** *** Session calls on a readable register *)

Lemma offset_nonneg_pkg_platform (zone : raplcap_zone) :
  is_pkg_platform zone -> (zone_to_msr_offset zone <? 0) = false.
Proof. intros [-> | ->]; reflexivity. Qed.

Lemma offset_nonneg_core_uncore_dram (zone : raplcap_zone) :
  is_core_uncore_dram zone -> (zone_to_msr_offset zone <? 0) = false.
Proof. intros [-> | [-> | ->]]; reflexivity. Qed.

Lemma set_limits_pkg_platform dev socket rc zone st fd w ll ls :
  zone_register dev socket rc zone st fd w -> is_pkg_platform zone ->
  raplcap_set_limits dev socket rc zone ll ls
  = do w' <- set_pkg_platform w st ll ls;
    Ok (dev_store dev fd (zone_to_msr_offset zone) w', inl 0).
Proof.
  intros (Hs & Hfd & Hw & _) Hz. unfold raplcap_set_limits.
  rewrite Hs, Hfd. cbn [res_bind].
  unfold read_msr_by_offset, write_msr_by_offset.
  rewrite (offset_nonneg_pkg_platform zone Hz), Hw.
  destruct Hz as [-> | ->]; reflexivity.
Qed.

Lemma set_limits_core_uncore_dram dev socket rc zone st fd w ll ls :
  zone_register dev socket rc zone st fd w -> is_core_uncore_dram zone ->
  raplcap_set_limits dev socket rc zone ll ls
  = do w' <- set_core_uncore_dram w st ll;
    Ok (dev_store dev fd (zone_to_msr_offset zone) w', inl 0).
Proof.
  intros (Hs & Hfd & Hw & _) Hz. unfold raplcap_set_limits.
  rewrite Hs, Hfd. cbn [res_bind].
  unfold read_msr_by_offset, write_msr_by_offset.
  rewrite (offset_nonneg_core_uncore_dram zone Hz), Hw.
  destruct Hz as [-> | [-> | ->]]; reflexivity.
Qed.



Lemma zone_register_store dev socket rc zone st fd w w' :
  zone_register dev socket rc zone st fd w -> U64.in_range w' ->
  zone_register (dev_store dev fd (zone_to_msr_offset zone) w')
    socket rc zone st fd w'.
Proof.
  intros (Hs & Hfd & _ & _) Hw'. repeat split; try assumption;
    try apply Hw'. apply dev_store_same.
Qed.



(** *** Round trip through a register word *)


Section RoundTrip.

Variable st : raplcap_msr.
Variables W T : Q.

Hypothesis Hpu : (0 < power_units st)%Q.
Hypothesis HW : (0 < W)%Q.
Hypothesis Hfit : (W / power_units st < inject_Z (2 ^ 15))%Q.




Hypothesis Htu : (0 < time_units st)%Q.
Hypothesis HT : (0 < T)%Q.





End RoundTrip.



(** ** Teardown *)

Lemma last_cons_default {A : Type} (x y : A) (l : list A) :
  default y (last (x :: l)) = default x (last l).
Proof.
  revert x y. induction l as [|z l IH]; intros x y; [reflexivity|].
  change (last (x :: z :: l)) with (last (z :: l)).
  now rewrite !IH.
Qed.

Lemma close_errors_cons (close : Z -> option Z) (fd : Z) (l : list Z) :
  close_errors close (fd :: l)
  = match close fd with
    | Some e => e :: close_errors close l
    | None => close_errors close l
    end.
Proof. reflexivity. Qed.

Lemma destroy_loop_spec (close : Z -> option Z) (a : list Z) (n i : nat)
    (err_save : Z) (closed : list Z) :
  (i + n <= length a)%nat ->
  destroy_loop close a n i err_save closed
  = Ok (default err_save
          (last (close_errors close (open_fds (take n (drop i a))))),
        closed ++ open_fds (take n (drop i a))).
Proof.
  revert i err_save closed.
  induction n as [|n IH]; intros i err_save closed Hlen.
  - cbn. now rewrite app_nil_r.
  - destruct (lookup_lt_is_Some_2 a i ltac:(lia)) as [fd Hfd].
    cbn [destroy_loop]. rewrite Hfd.
    rewrite (drop_S _ _ _ Hfd). cbn [take open_fds List.filter].
    fold (open_fds (take n (drop (S i) a))).
    destruct (fd >? 0).
    + rewrite close_errors_cons.
      destruct (close fd) as [e|].
      * rewrite IH by lia. rewrite <- app_assoc. cbn [app].
        now rewrite last_cons_default.
      * rewrite IH by lia. rewrite <- app_assoc. reflexivity.
    + now rewrite IH by lia.
Qed.

(** C1 (as amended). Teardown passes every positive descriptor of the
    session to [close], in order and whatever the earlier calls returned,
    and reports the error of the last call that failed: [errno] is the last
    of the errors, and the return value is -1 when that is not zero. *)
Theorem destroy_closes_all_reports_last (close : Z -> option Z) (n : Z)
    (st : raplcap_msr) (a : list Z) :
  fds st = Some a -> Z.to_nat n = length a ->
  exists d,
    raplcap_destroy close (Some (mk_raplcap n (Some st)))
      = Ok (Some (mk_raplcap n None), d) /\
    closed d = open_fds a /\
    errno d = default 0 (last (close_errors close (closed d))) /\
    ret d = (if errno d =? 0 then 0 else -1).
Proof.
  intros Hfds Hn. unfold raplcap_destroy. cbn [state nsockets]. rewrite Hfds.
  rewrite destroy_loop_spec by (rewrite Hn; lia).
  rewrite drop_0, Hn, firstn_all. cbn [res_bind app].
  eexists. split; [reflexivity|]. cbn [closed errno ret].
  split; [reflexivity|]. split; [reflexivity|].
  unfold truthy. now destruct (_ =? 0).
Qed.

Lemma destroy_closes_all_reports_last_witness :
  fds (mk_msr (Some [3; 0; 4; 7]) 1 1) = Some [3; 0; 4; 7] /\
  Z.to_nat 4 = length [3; 0; 4; 7] /\
  exists d,
    raplcap_destroy close_3_4_fail
      (Some (mk_raplcap 4 (Some (mk_msr (Some [3; 0; 4; 7]) 1 1))))
      = Ok (Some (mk_raplcap 4 None), d) /\
    closed d = [3; 4; 7] /\ errno d = 9 /\ ret d = -1.
Proof.
  split; [reflexivity|]. split; [reflexivity|].
  destruct (destroy_closes_all_reports_last close_3_4_fail 4
              (mk_msr (Some [3; 0; 4; 7]) 1 1) [3; 0; 4; 7] eq_refl eq_refl)
    as (d & E & Hc & He & Hr).
  exists d. split; [exact E|]. split; [exact Hc|].
  rewrite Hr, He, Hc. split; reflexivity.
Defined.

(** With two failing calls of [close], of errors 5 and 9 in this order,
    the error reported is 9. *)
Lemma destroy_first_error_counterexample :
  exists rc' d,
    raplcap_destroy close_3_4_fail
      (Some (mk_raplcap 2 (Some (mk_msr (Some [3; 4]) 1 1)))) = Ok (rc', d) /\
    closed d = [3; 4] /\
    close_errors close_3_4_fail (closed d) = [5; 9] /\
    errno d = 9 /\
    errno d <> default 0 (head (close_errors close_3_4_fail (closed d))).
Proof.
  eexists _, _. split; [reflexivity|]. cbn. repeat split. discriminate.
Qed.

(** ** The discovery commands on the text of a topology *)

Lemma egrep_app (pats : list string) (l1 l2 : list string) :
  egrep pats (l1 ++ l2) = egrep pats l1 ++ egrep pats l2.
Proof. unfold egrep. apply List.filter_app. Qed.

(** Evaluates the searches of [egrep] whose outcome the fixed part of a
    line decides. *)
Ltac eval_contains :=
  repeat match goal with
         | |- context [contains ?p ?s] =>
             let v := eval vm_compute in (contains p s) in
             match v with
             | true => change (contains p s) with true
             | false => change (contains p s) with false
             end
         end;
  rewrite ?orb_true_r, ?orb_false_r; cbn [orb].

Lemma egrep_open_msrs_record (p ph c : string) :
  egrep ["processor"; "core id"; "physical id"]%string (cpu_record p ph c)
  = [ ("processor" ++ String tab (": " ++ p))%string;
      ("physical id" ++ String tab (": " ++ ph))%string;
      ("core id" ++ String tab (String tab (": " ++ c)))%string ].
Proof.
  unfold egrep, cpu_record. cbn -[contains String.append].
  eval_contains. reflexivity.
Qed.

Lemma digit_not_colon (a : ascii) (d : Z) :
  digit_of 10 a = Some d -> Ascii.eqb a ":" = false.
Proof.
  intros H. destruct (Ascii.eqb_spec a ":") as [->|]; [discriminate|reflexivity].
Qed.

Lemma digit_not_blank (a : ascii) (d : Z) :
  digit_of 10 a = Some d -> is_blank a = false.
Proof.
  intros H. unfold is_blank.
  unfold digit_of in H. cbv zeta in H.
  destruct (Nat.eqb_spec (nat_of_ascii a) 32) as [E|];
    [rewrite E in H; discriminate|].
  destruct (Nat.eqb_spec (nat_of_ascii a) 9) as [E|];
    [rewrite E in H; discriminate|].
  destruct (Nat.eqb_spec (nat_of_ascii a) 10) as [E|];
    [rewrite E in H; discriminate|].
  reflexivity.
Qed.

Lemma split_first_digits (s : string) :
  all_digits s = true -> split_first ":" s = (s, None).
Proof.
  induction s as [|a s IH]; [reflexivity|]. cbn [all_digits split_first].
  intros H. apply andb_prop in H as [Ha Hs].
  destruct (digit_of 10 a) as [d|] eqn:E; [|discriminate].
  now rewrite (digit_not_colon a d E), (IH Hs).
Qed.

Lemma append_assoc_char (cur : string) (a : ascii) (s : string) :
  ((cur ++ String a "") ++ s)%string = (cur ++ String a s)%string.
Proof. induction cur as [|b cur IH]; cbn; congruence. Qed.

Lemma append_nil_r (s : string) : (s ++ "")%string = s.
Proof. induction s as [|a s IH]; cbn; congruence. Qed.

Lemma awk_fields_digits (s rest cur : string) :
  all_digits s = true ->
  awk_fields (s ++ rest) cur = awk_fields rest (cur ++ s).
Proof.
  revert cur. induction s as [|a s IH]; intros cur H.
  - cbn. now rewrite append_nil_r.
  - cbn [all_digits] in H. apply andb_prop in H as [Ha Hs].
    destruct (digit_of 10 a) as [d|] eqn:E; [|discriminate].
    cbn [String.append awk_fields]. rewrite (digit_not_blank a d E).
    rewrite (IH _ Hs). now rewrite append_assoc_char.
Qed.

Lemma numeral_not_empty (s : string) :
  numeral s -> String.eqb s "" = false.
Proof. intros [H _]. destruct s; [congruence|reflexivity]. Qed.

(** The three values of a CPU, as [cut] leaves them and [paste] joins
    them, split into the fields of awk. *)
Lemma awk_fields_triple (p ph c : string) :
  numeral p -> numeral ph -> numeral c ->
  awk_fields
    (String " " p ++ String tab (String " " ph ++ String tab (String " " c))) ""
  = [p; ph; c].
Proof.
  intros Hp Hph Hc.
  pose proof (numeral_not_empty p Hp) as Ep.
  pose proof (numeral_not_empty ph Hph) as Eph.
  pose proof (numeral_not_empty c Hc) as Ec.
  destruct Hp as [_ Hp], Hph as [_ Hph], Hc as [_ Hc].
  cbn [String.append]. cbn [awk_fields].
  change (is_blank " ") with true. cbn iota.
  change (String.eqb "" "") with true. cbn iota.
  rewrite (awk_fields_digits p _ "" Hp). cbn [String.append awk_fields].
  change (is_blank tab) with true. cbn iota. rewrite Ep.
  change (is_blank " ") with true. cbn iota.
  change (String.eqb "" "") with true. cbn iota.
  rewrite (awk_fields_digits ph _ "" Hph). cbn [String.append awk_fields].
  change (is_blank tab) with true. cbn iota. rewrite Eph.
  change (is_blank " ") with true. cbn iota.
  change (String.eqb "" "") with true. cbn iota.
  rewrite <- (append_nil_r c) at 1.
  rewrite (awk_fields_digits c "" "" Hc). cbn [String.append awk_fields].
  now rewrite Ec.
Qed.

Lemma cut_processor_line (p : string) :
  all_digits p = true ->
  cut_d_colon_f2 ("processor" ++ String tab (": " ++ p)) = String " " p.
Proof.
  intros H. unfold cut_d_colon_f2. cbn [String.append split_first].
  cbn. now rewrite (split_first_digits p H).
Qed.

Lemma cut_physical_id_line (ph : string) :
  all_digits ph = true ->
  cut_d_colon_f2 ("physical id" ++ String tab (": " ++ ph)) = String " " ph.
Proof.
  intros H. unfold cut_d_colon_f2. cbn [String.append split_first].
  cbn. now rewrite (split_first_digits ph H).
Qed.

Lemma cut_core_id_line (c : string) :
  all_digits c = true ->
  cut_d_colon_f2 ("core id" ++ String tab (String tab (": " ++ c)))
  = String " " c.
Proof.
  intros H. unfold cut_d_colon_f2. cbn [String.append split_first].
  cbn. now rewrite (split_first_digits c H).
Qed.

(** The rows of the command of [raplcap_open_msrs] on the text of a
    topology: the physical id and the processor number of each CPU. *)
Lemma open_msrs_command_rows (cpus : list cpu) :
  Forall cpu_numerals cpus ->
  open_msrs_command (cpuinfo_of cpus)
  = map (fun c => (cpu_physical_id c ++ String " " (cpu_processor c))%string)
        cpus.
Proof.
  unfold open_msrs_command, cpuinfo_of.
  induction 1 as [|c cpus (Hp & Hph & Hc) _ IH]; [reflexivity|].
  cbn [flat_map]. rewrite egrep_app, egrep_open_msrs_record.
  cbn [app map].
  rewrite cut_processor_line, cut_physical_id_line, cut_core_id_line
    by (apply Hp || apply Hph || apply Hc).
  cbn [paste3 map]. rewrite IH. f_equal.
  unfold awk_field. rewrite awk_fields_triple by assumption. reflexivity.
Qed.

Lemma digits_no_physical_id (s : string) :
  all_digits s = true -> contains "physical id" s = false.
Proof.
  induction s as [|a s IH]; [reflexivity|]. cbn [all_digits].
  intros H. apply andb_prop in H as [Ha Hs].
  cbn [contains]. rewrite (IH Hs), orb_false_r.
  cbn [String.prefix].
  destruct (Ascii.ascii_dec "p" a) as [<-|]; [discriminate Ha|reflexivity].
Qed.

Lemma egrep_count_sockets_record (p ph c : string) :
  all_digits p = true -> all_digits c = true ->
  egrep ["physical id"%string] (cpu_record p ph c)
  = [ ("physical id" ++ String tab (": " ++ ph))%string ].
Proof.
  intros Hp Hc. unfold egrep, cpu_record. cbn -[contains String.append].
  eval_contains.
  assert (E1 : contains "physical id" ("processor" ++ String tab (": " ++ p))
               = contains "physical id" p) by reflexivity.
  assert (E2 : contains "physical id"
                 ("core id" ++ String tab (String tab (": " ++ c)))
               = contains "physical id" c) by reflexivity.
  now rewrite E1, E2, (digits_no_physical_id p Hp), (digits_no_physical_id c Hc).
Qed.

Lemma compare_append (prefix a b : string) :
  String.compare (prefix ++ a) (prefix ++ b) = String.compare a b.
Proof.
  induction prefix as [|x prefix IH]; [reflexivity|].
  cbn [String.append String.compare].
  unfold Ascii.compare. now rewrite N.compare_refl.
Qed.

Lemma insert_uniq_map (f : string -> string) (x : string) (l : list string) :
  (forall a b, String.compare (f a) (f b) = String.compare a b) ->
  insert_uniq (f x) (map f l) = map f (insert_uniq x l).
Proof.
  intros Hf. induction l as [|y l IH]; [reflexivity|].
  cbn [map insert_uniq]. rewrite Hf.
  destruct (String.compare x y); cbn [map]; congruence.
Qed.

Lemma sort_u_map (f : string -> string) (l : list string) :
  (forall a b, String.compare (f a) (f b) = String.compare a b) ->
  sort_u (map f l) = map f (sort_u l).
Proof.
  intros Hf. unfold sort_u. induction l as [|x l IH]; [reflexivity|].
  cbn [map fold_right]. rewrite IH. now apply insert_uniq_map.
Qed.

Lemma insert_uniq_Forall (P : string -> Prop) (x : string) (l : list string) :
  P x -> Forall P l -> Forall P (insert_uniq x l).
Proof.
  intros Hx. induction 1 as [|y l Hy Hl IH]; cbn [insert_uniq].
  - now repeat constructor.
  - destruct (String.compare x y); repeat constructor; assumption.
Qed.

Lemma sort_u_Forall (P : string -> Prop) (l : list string) :
  Forall P l -> Forall P (sort_u l).
Proof.
  unfold sort_u. induction 1; cbn [fold_right]; [constructor|].
  now apply insert_uniq_Forall.
Qed.

Lemma tail1_map (f : string -> string) (l : list string) :
  tail1 (map f l) = map f (tail1 l).
Proof.
  unfold tail1. induction l as [|x l IH]; [reflexivity|].
  destruct l as [|y l]; [reflexivity|].
  cbn [map] in *. now rewrite !last_cons_cons.
Qed.

Lemma awk_first_of_cut (ph : string) :
  numeral ph ->
  awk_field 1 (cut_d_colon_f2 ("physical id" ++ String tab (": " ++ ph))) = ph.
Proof.
  intros Hn. pose proof (numeral_not_empty ph Hn) as E. destruct Hn as [_ H].
  rewrite (cut_physical_id_line ph H). unfold awk_field.
  cbn [awk_fields]. change (is_blank " ") with true. cbn iota.
  change (String.eqb "" "") with true. cbn iota.
  rewrite <- (append_nil_r ph) at 1.
  rewrite (awk_fields_digits ph "" "" H). cbn [String.append awk_fields].
  now rewrite E.
Qed.

(** The line the command of [count_sockets] ends with on the text of a
    topology: the physical id that is last in the order of text. *)
Lemma count_sockets_command_last (cpus : list cpu) :
  Forall cpu_numerals cpus ->
  count_sockets_command (cpuinfo_of cpus)
  = tail1 (sort_u (map cpu_physical_id cpus)).
Proof.
  intros Hcpus. unfold count_sockets_command.
  assert (Hgrep : egrep ["physical id"%string] (cpuinfo_of cpus)
                  = map (fun ph => ("physical id" ++ String tab (": " ++ ph))%string)
                        (map cpu_physical_id cpus)).
  { unfold cpuinfo_of. induction Hcpus as [|c cpus (Hp & _ & Hc) _ IH];
      [reflexivity|].
    cbn [flat_map map]. rewrite egrep_app, IH.
    now rewrite egrep_count_sockets_record by (apply Hp || apply Hc). }
  rewrite Hgrep.
  rewrite (sort_u_map (fun ph => ("physical id" ++ String tab (": " ++ ph))%string));
    [|intros a b; apply (compare_append ("physical id" ++ String tab ": "))].
  rewrite !map_map.
  rewrite tail1_map. erewrite map_ext_Forall; [apply map_id|].
  assert (Hn : Forall numeral (map cpu_physical_id cpus)).
  { apply Forall_map. eapply Forall_impl; [exact Hcpus|].
    now intros c (_ & H & _). }
  apply sort_u_Forall in Hn.
  assert (Ht : Forall numeral (tail1 (sort_u (map cpu_physical_id cpus)))).
  { unfold tail1.
    destruct (last (sort_u (map cpu_physical_id cpus))) as [x|] eqn:El;
      [|constructor].
    apply last_Some in El as [l' El]. rewrite El in Hn.
    apply Forall_app in Hn as [_ Hn]. exact Hn. }
  eapply Forall_impl; [exact Ht|]. intros ph Hph. now apply awk_first_of_cut.
Qed.

(** ** Topology discovery *)

Lemma scan_u32_range (s : string) (v : Z) (rest : string) :
  scan_u32 s = Some (v, rest) -> 0 <= v < 2 ^ 32.
Proof.
  unfold scan_u32. destruct (scan_unsigned 10 (skip_space s)) as [[[x e] r]|];
    [|discriminate].
  intros [= <- _]. apply Z.mod_pos_bound. lia.
Qed.

Lemma sscanf_u_u_range (output : string) (socket core : Z) :
  sscanf_u_u output = Some (socket, core) ->
  0 <= socket < 2 ^ 32 /\ 0 <= core < 2 ^ 32.
Proof.
  unfold sscanf_u_u.
  destruct (scan_u32 output) as [[s r]|] eqn:E1; [|discriminate].
  destruct (scan_u32 r) as [[c r']|] eqn:E2; [|discriminate].
  intros [= <- <-]. split; eapply scan_u32_range; eassumption.
Qed.

Lemma cores_of_cons (socket : Z) (output : string) (more : list string) :
  cores_of socket (output :: more)
  = match row_core socket output with
    | Some core => core :: cores_of socket more
    | None => cores_of socket more
    end.
Proof. reflexivity. Qed.

Lemma slot_insert_same (coreids found : list Z) (i : nat) (core : Z) :
  (i < length coreids)%nat -> (i < length found)%nat ->
  slot (<[i := core]> coreids) (<[i := 1]> found) i = Some core.
Proof.
  intros Hc Hf. unfold slot. now rewrite !list_lookup_insert_eq by assumption.
Qed.

Lemma slot_insert_other (coreids found : list Z) (i j : nat) (core : Z) :
  i <> j ->
  slot (<[i := core]> coreids) (<[i := 1]> found) j = slot coreids found j.
Proof.
  intros Hne. unfold slot. now rewrite !list_lookup_insert_ne by assumption.
Qed.

(** The loop over well-formed rows keeps, for every socket, the smallest
    core among the one recorded before and those of the rows. *)
Lemma open_msrs_loop_spec (sockets : Z) (outputs : list string) :
  forall coreids found,
    length coreids = Z.to_nat sockets -> length found = Z.to_nat sockets ->
    Forall (fun o => ~ bad_row sockets o) outputs ->
    exists coreids' found',
      open_msrs_loop sockets outputs coreids found
        = Ok (inl (coreids', found')) /\
      length coreids' = Z.to_nat sockets /\
      length found' = Z.to_nat sockets /\
      forall i, (i < Z.to_nat sockets)%nat ->
        slot coreids' found' i
        = fold_left keep_smallest (cores_of (Z.of_nat i) outputs)
            (slot coreids found i).
Proof.
  induction outputs as [|o more IH]; intros coreids found Hc Hf Hgood.
  - exists coreids, found. repeat split; auto.
  - apply Forall_cons in Hgood as [Ho Hmore].
    unfold bad_row in Ho. cbn [open_msrs_loop].
    destruct (sscanf_u_u o) as [[socket core]|] eqn:Eo; [|now destruct Ho].
    destruct (sscanf_u_u_range _ _ _ Eo) as [Hs _].
    rewrite Z.geb_leb, (proj2 (Z.leb_gt sockets socket)) by lia.
    assert (Hi : (Z.to_nat socket < Z.to_nat sockets)%nat) by lia.
    destruct (lookup_lt_is_Some_2 found (Z.to_nat socket) ltac:(lia))
      as [f Ef].
    destruct (lookup_lt_is_Some_2 coreids (Z.to_nat socket) ltac:(lia))
      as [cur Ecur].
    rewrite Ef, Ecur.
    assert (Hrow : forall i : nat,
      row_core (Z.of_nat i) o
      = if decide (i = Z.to_nat socket) then Some core else None).
    { intros i. unfold row_core. rewrite Eo.
      destruct (Z.eqb_spec socket (Z.of_nat i)), (decide (i = Z.to_nat socket));
        try reflexivity; lia. }
    destruct (negb (truthy f) || (core <? cur)) eqn:Eupd.
    + destruct (IH (<[Z.to_nat socket := core]> coreids)
                   (<[Z.to_nat socket := 1]> found))
        as (c' & f' & E & Hc' & Hf' & Hslot);
        [now rewrite length_insert | now rewrite length_insert | assumption |].
      exists c', f'. repeat split; try assumption.
      intros i Hlt. rewrite (Hslot i Hlt), cores_of_cons, Hrow.
      destruct (decide (i = Z.to_nat socket)) as [->|Hne].
      * cbn [fold_left]. f_equal.
        rewrite slot_insert_same by lia.
        unfold slot. rewrite Ef, Ecur. unfold keep_smallest.
        destruct (truthy f); [|reflexivity].
        cbn in Eupd. now rewrite Eupd.
      * now rewrite slot_insert_other by congruence.
    + destruct (IH coreids found) as (c' & f' & E & Hc' & Hf' & Hslot);
        try assumption.
      exists c', f'. repeat split; try assumption.
      intros i Hlt. rewrite (Hslot i Hlt), cores_of_cons, Hrow.
      destruct (decide (i = Z.to_nat socket)) as [->|Hne]; [|reflexivity].
      cbn [fold_left]. f_equal.
      unfold slot. rewrite Ef, Ecur. unfold keep_smallest.
      apply orb_false_elim in Eupd as [Ht Hlt'].
      apply negb_false_iff in Ht. now rewrite Ht, Hlt'.
Qed.

(** A row the loop rejects ends discovery with an error. *)
Lemma open_msrs_loop_bad (sockets : Z) (outputs : list string) :
  forall coreids found,
    length coreids = Z.to_nat sockets -> length found = Z.to_nat sockets ->
    Exists (bad_row sockets) outputs ->
    exists e, open_msrs_loop sockets outputs coreids found = Ok (inr e).
Proof.
  induction outputs as [|o more IH]; intros coreids found Hc Hf Hbad.
  - now apply Exists_nil in Hbad.
  - cbn [open_msrs_loop].
    destruct (sscanf_u_u o) as [[socket core]|] eqn:Eo; [|eauto].
    destruct (sscanf_u_u_range _ _ _ Eo) as [Hs _].
    destruct (Z.geb_spec socket sockets) as [Hge|Hlt]; [eauto|].
    apply Exists_cons in Hbad as [Ho|Hmore].
    { unfold bad_row in Ho. rewrite Eo in Ho. lia. }
    destruct (lookup_lt_is_Some_2 found (Z.to_nat socket) ltac:(lia))
      as [f Ef].
    destruct (lookup_lt_is_Some_2 coreids (Z.to_nat socket) ltac:(lia))
      as [cur Ecur].
    rewrite Ef, Ecur.
    destruct (negb (truthy f) || (core <? cur)); apply IH;
      rewrite ?length_insert; assumption.
Qed.

Lemma keep_smallest_minimum (l : list Z) (m0 : Z) :
  exists m, fold_left keep_smallest l (Some m0) = Some m /\
    minimum_of (m0 :: l) m.
Proof.
  revert m0. induction l as [|x l IH]; intros m0.
  - exists m0. split; [reflexivity|]. split; [now left|].
    intros y [<-|[]]. lia.
  - cbn [fold_left keep_smallest].
    destruct (Z.ltb_spec x m0) as [Hlt|Hge].
    + destruct (IH x) as (m & E & Hin & Hmin). exists m. split; [exact E|].
      split.
      * right. exact Hin.
      * intros y [<-|Hy]; [|now apply Hmin].
        specialize (Hmin x (or_introl eq_refl)). lia.
    + destruct (IH m0) as (m & E & Hin & Hmin). exists m. split; [exact E|].
      split.
      * destruct Hin as [<-|Hin]; [now left|right; now right].
      * intros y [<-|[<-|Hy]].
        -- apply Hmin. now left.
        -- specialize (Hmin m0 (or_introl eq_refl)). lia.
        -- apply Hmin. now right.
Qed.

Lemma keep_smallest_from_none (l : list Z) :
  l <> [] ->
  exists m, fold_left keep_smallest l None = Some m /\ minimum_of l m.
Proof.
  destruct l as [|x l]; [congruence|]. intros _. cbn [fold_left keep_smallest].
  destruct (keep_smallest_minimum l x) as (m & E & H). eauto.
Qed.

Lemma slot_zeros (n i : nat) : slot (replicate n 0) (replicate n 0) i = None.
Proof.
  unfold slot. destruct (decide (i < n)%nat) as [Hlt|Hge].
  - now rewrite !lookup_replicate_2 by assumption.
  - now rewrite (lookup_ge_None_2 (replicate n 0) i)
      by (rewrite length_replicate; lia).
Qed.

Lemma slot_found (coreids found : list Z) (i : nat) (f : Z) :
  length coreids = length found ->
  found !! i = Some f ->
  truthy f = match slot coreids found i with Some _ => true | None => false end.
Proof.
  intros Hlen Ef. unfold slot. rewrite Ef.
  destruct (lookup_lt_is_Some_2 coreids i) as [c ->].
  - rewrite Hlen. eapply lookup_lt_Some. eassumption.
  - now destruct (truthy f).
Qed.

(** Discovery over the rows of the command: the smallest core of every
    socket when all rows are well formed and every socket has one, an error
    otherwise; and the rows of the text of a topology. *)
Lemma discover_coreids_on_rows (sockets : Z) (outputs : list string) :
  0 < sockets ->
  (Forall (fun o => ~ bad_row sockets o) outputs ->
   (forall s, 0 <= s < sockets -> cores_of s outputs <> []) ->
   exists coreids,
     discover_coreids sockets outputs = Ok (inl coreids) /\
     length coreids = Z.to_nat sockets /\
     forall s, 0 <= s < sockets ->
       exists core,
         coreids !! Z.to_nat s = Some core /\
         minimum_of (cores_of s outputs) core) /\
  (Exists (bad_row sockets) outputs ->
   exists e, discover_coreids sockets outputs = Ok (inr e)) /\
  (Forall (fun o => ~ bad_row sockets o) outputs ->
   (exists s, 0 <= s < sockets /\ cores_of s outputs = []) ->
   discover_coreids sockets outputs = Ok (inr ENOENT)) /\
  (forall cpuinfo open_rdwr fds e,
     discover_coreids sockets (fgets_all (open_msrs_command cpuinfo))
       = Ok (inr e) ->
     raplcap_open_msrs true cpuinfo open_rdwr sockets fds = Ok (fds, inr e)) /\
  (forall cpus,
     Forall cpu_numerals cpus ->
     open_msrs_command (cpuinfo_of cpus)
     = map (fun c => (cpu_physical_id c ++ String " " (cpu_processor c))%string)
           cpus).
Proof.
  intros Hpos.
  assert (Hassert : c_assert (sockets >? 0) = Ok tt).
  { unfold c_assert. now rewrite (proj2 (Z.gtb_lt sockets 0)) by lia. }
  assert (Hloop : Forall (fun o => ~ bad_row sockets o) outputs ->
    exists coreids found,
      open_msrs_loop sockets outputs
        (replicate (Z.to_nat sockets) 0) (replicate (Z.to_nat sockets) 0)
        = Ok (inl (coreids, found)) /\
      length coreids = Z.to_nat sockets /\ length found = Z.to_nat sockets /\
      forall i, (i < Z.to_nat sockets)%nat ->
        slot coreids found i
        = fold_left keep_smallest (cores_of (Z.of_nat i) outputs) None).
  { intros Hgood.
    destruct (open_msrs_loop_spec sockets outputs
                (replicate (Z.to_nat sockets) 0) (replicate (Z.to_nat sockets) 0))
      as (c & f & E & Hc & Hf & Hslot);
      [apply length_replicate | apply length_replicate | assumption |].
    exists c, f. repeat split; try assumption.
    intros i Hi. rewrite (Hslot i Hi). now rewrite slot_zeros. }
  repeat apply conj.
  - intros Hgood Hall.
    destruct (Hloop Hgood) as (c & f & E & Hc & Hf & Hslot).
    assert (Hmin : forall s, 0 <= s < sockets ->
      exists core, slot c f (Z.to_nat s) = Some core /\
                   minimum_of (cores_of s outputs) core).
    { intros s Hs. rewrite Hslot by lia. rewrite Z2Nat.id by lia.
      apply keep_smallest_from_none. now apply Hall. }
    exists c. unfold discover_coreids. rewrite Hassert. cbn [res_bind].
    rewrite E. cbn [res_bind].
    assert (Hf' : forallb truthy f = true).
    { apply forallb_forall. intros x Hx.
      apply list_elem_of_In, list_elem_of_lookup in Hx as [i Hi].
      rewrite (slot_found c f i x) by congruence.
      assert (Hlt : (i < Z.to_nat sockets)%nat)
        by (rewrite <- Hf; eapply lookup_lt_Some; eassumption).
      destruct (Hmin (Z.of_nat i) ltac:(lia)) as (core & Hcore & _).
      rewrite Nat2Z.id in Hcore. now rewrite Hcore. }
    rewrite Hf'. split; [reflexivity|]. split; [exact Hc|].
    intros s Hs. destruct (Hmin s Hs) as (core & Hcore & Hm).
    exists core. split; [|exact Hm].
    unfold slot in Hcore.
    destruct (f !! Z.to_nat s) as [x|]; [|discriminate].
    destruct (c !! Z.to_nat s) as [y|]; [|discriminate].
    destruct (truthy x); congruence.
  - intros Hbad.
    destruct (open_msrs_loop_bad sockets outputs
                (replicate (Z.to_nat sockets) 0) (replicate (Z.to_nat sockets) 0))
      as (e & E); [apply length_replicate | apply length_replicate | assumption |].
    exists e. unfold discover_coreids. rewrite Hassert. cbn [res_bind].
    now rewrite E.
  - intros Hgood (s & Hs & Hnone).
    destruct (Hloop Hgood) as (c & f & E & Hc & Hf & Hslot).
    unfold discover_coreids. rewrite Hassert. cbn [res_bind].
    rewrite E. cbn [res_bind].
    destruct (forallb truthy f) eqn:Hall; [|reflexivity].
    exfalso.
    destruct (lookup_lt_is_Some_2 f (Z.to_nat s) ltac:(lia)) as [x Hx].
    assert (Ht : truthy x = true).
    { eapply forallb_forall; [exact Hall|].
      apply list_elem_of_In, list_elem_of_lookup. eauto. }
    rewrite (slot_found c f (Z.to_nat s) x) in Ht by congruence.
    rewrite Hslot in Ht by lia. rewrite Z2Nat.id, Hnone in Ht by lia.
    discriminate.
  - intros cpuinfo open_rdwr fds e E. unfold raplcap_open_msrs.
    rewrite Hassert. cbn [res_bind]. now rewrite E.
  - apply open_msrs_command_rows.
Qed.

(** *** Rows of a topology as the loop reads them *)

Lemma numeral_value_nonneg (s : string) (acc : Z) :
  0 <= acc -> 0 <= numeral_value s acc.
Proof.
  revert acc. induction s as [|c s IH]; intros acc H; cbn [numeral_value];
    [assumption|].
  destruct (digit_of 10 c) as [d|] eqn:E; [|assumption].
  apply IH. unfold digit_of in E. cbv zeta in E.
  assert (0 <= d).
  { destruct (_ <? 10) in E; [|discriminate]. injection E as <-.
    repeat match goal with
           | |- context [if ?b then _ else _] => destruct b eqn:?
           end; lia. }
  lia.
Qed.

(** Scanning a numeral that is followed by something else than a digit. *)
Lemma scan_digits_numeral (s rest : string) (acc : Z) (seen : bool) :
  all_digits s = true ->
  (match rest with
   | EmptyString => True
   | String c _ => digit_of 10 c = None
   end) ->
  scan_digits 10 (s ++ rest) acc seen
  = (numeral_value s acc,
     match s with EmptyString => seen | _ => true end, rest).
Proof.
  revert acc seen. induction s as [|c s IH]; intros acc seen Hs Hrest.
  - cbn [String.append numeral_value]. destruct rest as [|c r]; [reflexivity|].
    cbn [scan_digits]. now rewrite Hrest.
  - cbn [all_digits] in Hs. apply andb_prop in Hs as [Hc Hs].
    cbn [String.append scan_digits numeral_value].
    destruct (digit_of 10 c) as [d|]; [|discriminate].
    rewrite (IH _ true Hs Hrest). now destruct s.
Qed.

Lemma numeral_head (s : string) :
  numeral s -> exists c s' d, s = String c s' /\ digit_of 10 c = Some d.
Proof.
  intros [Hne Hd]. destruct s as [|c s']; [congruence|].
  cbn [all_digits] in Hd. apply andb_prop in Hd as [Hc _].
  destruct (digit_of 10 c) as [d|] eqn:E; [|discriminate]. eauto.
Qed.

Lemma digit_not_space (c : ascii) (d : Z) :
  digit_of 10 c = Some d -> isspace c = false.
Proof.
  intros H. unfold isspace. unfold digit_of in H. cbv zeta in H.
  destruct (Nat.eqb_spec (nat_of_ascii c) 32) as [E|];
    [rewrite E in H; discriminate|].
  cbn [orb].
  destruct (Nat.leb_spec 9 (nat_of_ascii c)), (Nat.leb_spec (nat_of_ascii c) 13);
    try reflexivity.
  exfalso.
  assert (Hn : (nat_of_ascii c = 9 \/ nat_of_ascii c = 10 \/ nat_of_ascii c = 11
                \/ nat_of_ascii c = 12 \/ nat_of_ascii c = 13)%nat) by lia.
  destruct Hn as [E|[E|[E|[E|E]]]]; rewrite E in H; discriminate.
Qed.

Lemma digit_not_sign (c : ascii) (d : Z) :
  digit_of 10 c = Some d -> c <> "-"%char /\ c <> "+"%char.
Proof. intros H. split; intros ->; discriminate. Qed.

Lemma sign_of_digit (c : ascii) (t : string) (d : Z) :
  digit_of 10 c = Some d ->
  match String c t with
  | String "-"%char s' => (true, s')
  | String "+"%char s' => (false, s')
  | _ => (false, String c t)
  end = (false, String c t).
Proof.
  intros H. destruct c as [[] [] [] [] [] [] [] []];
    reflexivity || (vm_compute in H; discriminate H).
Qed.

(** One [%u] on a numeral followed by something else than a digit. *)
Lemma scan_u32_numeral (s rest : string) :
  numeral s -> value_of s < 2 ^ 32 ->
  (match rest with
   | EmptyString => True
   | String c _ => digit_of 10 c = None
   end) ->
  scan_u32 (s ++ rest) = Some (value_of s, rest).
Proof.
  intros Hn Hv Hrest. destruct (numeral_head s Hn) as (c & s' & d & -> & Hc).
  destruct Hn as [_ Hd].
  pose proof (numeral_value_nonneg (String c s') 0 ltac:(lia)) as H0.
  fold (value_of (String c s')) in H0.
  unfold scan_u32. cbn [String.append skip_space].
  rewrite (digit_not_space c d Hc).
  unfold scan_unsigned. rewrite (sign_of_digit c (s' ++ rest) d Hc).
  change (String c (s' ++ rest)) with (String c s' ++ rest)%string.
  rewrite (scan_digits_numeral (String c s') rest 0 false Hd Hrest).
  fold (value_of (String c s')).
  destruct (Z.gtb_spec (value_of (String c s')) ULONG_MAX) as [Hgt|_];
    [unfold ULONG_MAX in Hgt; lia|].
  now rewrite Z.mod_small by lia.
Qed.

(** A row of the discovery command, as [sscanf] reads it. *)
Lemma sscanf_row (ph p : string) :
  numeral ph -> numeral p -> value_of ph < 2 ^ 32 -> value_of p < 2 ^ 32 ->
  sscanf_u_u (ph ++ String " " (p ++ String newline ""))
  = Some (value_of ph, value_of p).
Proof.
  intros Hph Hp Vph Vp. unfold sscanf_u_u.
  rewrite (scan_u32_numeral ph (String " " (p ++ String newline "")) Hph Vph)
    by reflexivity.
  assert (E : scan_u32 (String " " (p ++ String newline ""))
              = scan_u32 (p ++ String newline "")) by reflexivity.
  rewrite E.
  now rewrite (scan_u32_numeral p (String newline "") Hp Vp) by reflexivity.
Qed.

Lemma substring_all (s : string) (n : nat) :
  (String.length s <= n)%nat -> String.substring 0 n s = s.
Proof.
  revert n. induction s as [|c s IH]; intros n H.
  - now destruct n.
  - destruct n as [|n]; [cbn in H; lia|]. cbn [String.substring].
    rewrite IH; [reflexivity|cbn in H; lia].
Qed.

Lemma substring_past (s : string) (n m : nat) :
  (String.length s <= n)%nat -> String.substring n m s = ""%string.
Proof.
  revert n m. induction s as [|c s IH]; intros n m H.
  - destruct n, m; reflexivity.
  - destruct n as [|n]; [cbn in H; lia|]. cbn [String.substring].
    apply IH. cbn in H. lia.
Qed.

(** A line of at most 30 characters comes back from one [fgets]. *)
Lemma fgets_short_line (l : string) :
  (String.length l <= 30)%nat ->
  fgets_line (S (String.length l)) (l ++ String newline "")
  = [(l ++ String newline "")%string].
Proof.
  intros H.
  assert (Hlen : String.length (l ++ String newline "") = S (String.length l)).
  { clear H. induction l as [|c l IH]; cbn; congruence. }
  cbn [fgets_line].
  assert (Hne : String.eqb (l ++ String newline "") "" = false)
    by (destruct l; reflexivity).
  rewrite Hne. rewrite substring_all by lia.
  rewrite substring_past by lia.
  destruct (String.length l); reflexivity.
Qed.

Lemma length_append (a b : string) :
  String.length (a ++ b) = (String.length a + String.length b)%nat.
Proof. induction a as [|c a IH]; cbn; congruence. Qed.

Lemma processors_of_cons (socket : Z) (c : cpu) (cpus : list cpu) :
  processors_of socket (c :: cpus)
  = if value_of (cpu_physical_id c) =? socket
    then value_of (cpu_processor c) :: processors_of socket cpus
    else processors_of socket cpus.
Proof.
  unfold processors_of. cbn.
  now destruct (value_of (cpu_physical_id c) =? socket).
Qed.

(** The rows the loop reads for a topology, and the cores they name. *)
Lemma cores_of_topology (socket : Z) (cpus : list cpu) :
  Forall cpu_fits cpus ->
  cores_of socket (fgets_all (open_msrs_command (cpuinfo_of cpus)))
  = processors_of socket cpus.
Proof.
  intros Hfit.
  rewrite open_msrs_command_rows
    by (eapply Forall_impl; [exact Hfit|]; now intros c [H _]).
  induction Hfit as [|c cpus (Hn & Hlen & Vph & Vp) _ IH]; [reflexivity|].
  destruct Hn as (Hp & Hph & _).
  cbn [map fgets_all flat_map]. fold (fgets_all
    (map (fun c => (cpu_physical_id c ++ String " " (cpu_processor c))%string) cpus)).
  rewrite fgets_short_line
    by (rewrite length_append; cbn [String.length]; lia).
  cbn [app]. rewrite cores_of_cons. unfold row_core at 1.
  assert (E : ((cpu_physical_id c ++ String " " (cpu_processor c))
               ++ String newline "")%string
              = (cpu_physical_id c
                 ++ String " " (cpu_processor c ++ String newline ""))%string).
  { generalize (cpu_physical_id c) as a. induction a; cbn; congruence. }
  rewrite E, (sscanf_row _ _ Hph Hp Vph Vp).
  rewrite processors_of_cons, IH.
  now destruct (value_of (cpu_physical_id c) =? socket).
Qed.

Lemma rows_of_topology_good (sockets : Z) (cpus : list cpu) :
  Forall cpu_fits cpus ->
  Forall (fun c => value_of (cpu_physical_id c) < sockets) cpus ->
  Forall (fun o => ~ bad_row sockets o)
    (fgets_all (open_msrs_command (cpuinfo_of cpus))).
Proof.
  intros Hfit Hlt.
  rewrite open_msrs_command_rows
    by (eapply Forall_impl; [exact Hfit|]; now intros c [H _]).
  induction Hfit as [|c cpus (Hn & Hlen & Vph & Vp) _ IH]; [constructor|].
  apply Forall_cons in Hlt as [Hc Hlt].
  destruct Hn as (Hp & Hph & _).
  cbn [map fgets_all flat_map]. fold (fgets_all
    (map (fun c => (cpu_physical_id c ++ String " " (cpu_processor c))%string) cpus)).
  rewrite fgets_short_line
    by (rewrite length_append; cbn [String.length]; lia).
  cbn [app]. apply Forall_cons. split; [|now apply IH].
  unfold bad_row.
  assert (E : ((cpu_physical_id c ++ String " " (cpu_processor c))
               ++ String newline "")%string
              = (cpu_physical_id c
                 ++ String " " (cpu_processor c ++ String newline ""))%string).
  { generalize (cpu_physical_id c) as a. induction a; cbn; congruence. }
  rewrite E, (sscanf_row _ _ Hph Hp Vph Vp). lia.
Qed.

(** C8 (as amended). Over the rows of the discovery command, each a socket
    and the number the code takes for its core, discovery maps every
    socket to the smallest core of its rows; it fails, and produces no
    mapping, whenever a row has fewer than two numbers or a socket that is
    not below the socket count, and whenever a socket has no row. On the
    text of a topology the rows are the physical id and the processor
    number of each logical CPU, so that every socket is mapped to the
    smallest processor number of its CPUs, not to a core id. *)
Theorem discover_coreids_smallest (sockets : Z) (outputs : list string) :
  0 < sockets ->
  (Forall (fun o => ~ bad_row sockets o) outputs ->
   (forall s, 0 <= s < sockets -> cores_of s outputs <> []) ->
   exists coreids,
     discover_coreids sockets outputs = Ok (inl coreids) /\
     length coreids = Z.to_nat sockets /\
     forall s, 0 <= s < sockets ->
       exists core,
         coreids !! Z.to_nat s = Some core /\
         minimum_of (cores_of s outputs) core) /\
  (Exists (bad_row sockets) outputs ->
   exists e, discover_coreids sockets outputs = Ok (inr e)) /\
  (Forall (fun o => ~ bad_row sockets o) outputs ->
   (exists s, 0 <= s < sockets /\ cores_of s outputs = []) ->
   discover_coreids sockets outputs = Ok (inr ENOENT)) /\
  (forall cpuinfo open_rdwr fds e,
     discover_coreids sockets (fgets_all (open_msrs_command cpuinfo))
       = Ok (inr e) ->
     raplcap_open_msrs true cpuinfo open_rdwr sockets fds = Ok (fds, inr e)) /\
  (forall cpus,
     Forall cpu_fits cpus ->
     Forall (fun c => value_of (cpu_physical_id c) < sockets) cpus ->
     (forall s, 0 <= s < sockets -> processors_of s cpus <> []) ->
     exists coreids,
       discover_coreids sockets
         (fgets_all (open_msrs_command (cpuinfo_of cpus))) = Ok (inl coreids) /\
       forall s, 0 <= s < sockets ->
         exists core,
           coreids !! Z.to_nat s = Some core /\
           minimum_of (processors_of s cpus) core).
Proof.
  intros Hpos.
  destruct (discover_coreids_on_rows sockets outputs Hpos)
    as (Hgood & Hbad & Hmissing & Hopen & _).
  repeat apply conj; try assumption.
  intros cpus Hfit Hlt Hall.
  destruct (discover_coreids_on_rows sockets
              (fgets_all (open_msrs_command (cpuinfo_of cpus))) Hpos)
    as (Htop & _).
  destruct Htop as (coreids & E & _ & Hmin).
  - now apply rows_of_topology_good.
  - intros s Hs. rewrite cores_of_topology by assumption. now apply Hall.
  - exists coreids. split; [exact E|]. intros s Hs.
    destruct (Hmin s Hs) as (core & Hcore & Hm). exists core.
    split; [exact Hcore|]. now rewrite cores_of_topology in Hm.
Qed.

Lemma discover_coreids_smallest_witness :
  0 < 2 /\
  Forall (fun o => ~ bad_row 2 o) ["0 0"; "0 4"; "1 1"; "1 5"]%string /\
  (forall s, 0 <= s < 2 ->
     cores_of s ["0 0"; "0 4"; "1 1"; "1 5"]%string <> []) /\
  (exists coreids,
     discover_coreids 2 ["0 0"; "0 4"; "1 1"; "1 5"]%string = Ok (inl coreids) /\
     (exists core, coreids !! Z.to_nat 0 = Some core /\
        minimum_of (cores_of 0 ["0 0"; "0 4"; "1 1"; "1 5"]%string) core) /\
     (exists core, coreids !! Z.to_nat 1 = Some core /\
        minimum_of (cores_of 1 ["0 0"; "0 4"; "1 1"; "1 5"]%string) core)) /\
  Forall cpu_fits topology_2x2 /\
  Forall (fun c => value_of (cpu_physical_id c) < 2) topology_2x2 /\
  (forall s, 0 <= s < 2 -> processors_of s topology_2x2 <> []) /\
  (exists coreids,
     discover_coreids 2 (fgets_all (open_msrs_command cpuinfo_2x2))
       = Ok (inl coreids) /\
     (exists core, coreids !! Z.to_nat 1 = Some core /\
        minimum_of (processors_of 1 topology_2x2) core)).
Proof.
  assert (Hgood : Forall (fun o => ~ bad_row 2 o)
                    ["0 0"; "0 4"; "1 1"; "1 5"]%string)
    by (repeat (apply List.Forall_cons;
                  [intros H; vm_compute in H; now apply H|]);
        apply List.Forall_nil).
  assert (Hall : forall s, 0 <= s < 2 ->
            cores_of s ["0 0"; "0 4"; "1 1"; "1 5"]%string <> []).
  { intros s Hs. assert (s = 0 \/ s = 1) as [-> | ->] by lia; discriminate. }
  assert (Hfit : Forall cpu_fits topology_2x2).
  { repeat (apply List.Forall_cons;
              [repeat split; (discriminate || reflexivity || (cbn; lia))|]).
    apply List.Forall_nil. }
  assert (Hlt : Forall (fun c => value_of (cpu_physical_id c) < 2) topology_2x2)
    by (repeat (apply List.Forall_cons; [reflexivity|]); apply List.Forall_nil).
  assert (Hcpus : forall s, 0 <= s < 2 -> processors_of s topology_2x2 <> []).
  { intros s Hs. assert (s = 0 \/ s = 1) as [-> | ->] by lia; discriminate. }
  destruct (discover_coreids_smallest 2 ["0 0"; "0 4"; "1 1"; "1 5"]%string
              ltac:(lia)) as (A & _ & _ & _ & B).
  split; [lia|]. split; [exact Hgood|]. split; [exact Hall|]. split.
  { destruct (A Hgood Hall) as (coreids & E & _ & Hmin).
    exists coreids. split; [exact E|].
    split; [apply (Hmin 0) | apply (Hmin 1)]; lia. }
  split; [exact Hfit|]. split; [exact Hlt|]. split; [exact Hcpus|].
  destruct (B topology_2x2 Hfit Hlt Hcpus) as (coreids & E & Hmin).
  exists coreids. split; [exact E|]. apply (Hmin 1). lia.
Defined.

(** The table of the specification, read as rows of the command: sockets
    0, 0, 1, 1 with cores 0, 4, 1, 5 give core 0 and core 1; a row for a
    socket 2 when two sockets were counted fails discovery. *)
Example discover_coreids_rows :
  discover_coreids 2 ["0 0"; "0 4"; "1 1"; "1 5"]%string = Ok (inl [0; 1]) /\
  discover_coreids 2 ["0 0"; "0 4"; "2 1"; "1 5"]%string = Ok (inr EINVAL) /\
  discover_coreids 2 ["0 0"; "0"; "1 1"]%string = Ok (inr ENOENT) /\
  discover_coreids 2 ["0 0"; "0 4"]%string = Ok (inr ENOENT).
Proof. repeat split; reflexivity. Qed.

(** On the topology of two sockets with core ids 0, 4, 1 and 5 the rows
    hold the processor numbers 0 to 3, and socket 1 is mapped to 2, not to
    its smallest core id 1. *)
Lemma discovery_core_id_counterexample :
  open_msrs_command cpuinfo_2x2 = ["0 0"; "0 1"; "1 2"; "1 3"]%string /\
  discover_coreids 2 (fgets_all (open_msrs_command cpuinfo_2x2))
    = Ok (inl [0; 2]) /\
  ~ (exists coreids,
       discover_coreids 2 (fgets_all (open_msrs_command cpuinfo_2x2))
         = Ok (inl coreids) /\
       coreids !! 1%nat = Some 1).
Proof.
  split; [reflexivity|]. split; [reflexivity|].
  intros (coreids & E & H).
  assert (E' : discover_coreids 2 (fgets_all (open_msrs_command cpuinfo_2x2))
               = Ok (inl [0; 2])) by reflexivity.
  rewrite E' in E. injection E as <-. discriminate H.
Qed.

(** ** Counting sockets *)

(** Without a session the count comes from [count_sockets]; it is 0 when
    the command cannot be started or prints nothing, and on the two-socket
    topology it is the largest physical id plus one. *)
Example count_sockets_small :
  raplcap_get_num_sockets false cpuinfo_2x2 None = 0 /\
  raplcap_get_num_sockets true [] None = 0 /\
  raplcap_get_num_sockets true cpuinfo_2x2 None = 2 /\
  largest_physical_id_plus_one cpuinfo_2x2 = 2.
Proof. repeat split; reflexivity. Qed.

(** C3. On a topology with the physical ids 0 to 10 the command sorts the
    lines as text, so that its last line is the one of id 9: the count is
    10, where the largest physical id plus one is 11. *)
Theorem count_sockets_two_digit_ids :
  physical_ids cpuinfo_11 = [0; 1; 2; 3; 4; 5; 6; 7; 8; 9; 10] /\
  largest_physical_id_plus_one cpuinfo_11 = 11 /\
  count_sockets_command cpuinfo_11 = ["9"%string] /\
  raplcap_get_num_sockets true cpuinfo_11 None = 10.
Proof. repeat split; reflexivity. Qed.

(** ** Enabling a zone and asking whether it is enabled *)

Lemma offset_nonneg (zone : raplcap_zone) :
  zone <> RAPLCAP_ZONE_OTHER -> (zone_to_msr_offset zone <? 0) = false.
Proof. destruct zone; congruence || reflexivity. Qed.

Lemma set_zone_enabled_on_register dev socket rc zone st fd w v :
  zone_register dev socket rc zone st fd w -> zone <> RAPLCAP_ZONE_OTHER ->
  exists w',
    raplcap_set_zone_enabled dev socket rc zone v
      = Ok (dev_store dev fd (zone_to_msr_offset zone) w', inl 0) /\
    U64.in_range w' /\
    (is_pkg_platform zone -> set_pkg_platform_enabled w v = Ok w') /\
    (is_core_uncore_dram zone -> set_core_uncore_dram_enabled w v = Ok w').
Proof.
  intros (Hs & Hfd & Hw & Hr) Hz. unfold raplcap_set_zone_enabled.
  rewrite Hs, Hfd. cbn [res_bind].
  unfold read_msr_by_offset, write_msr_by_offset.
  rewrite (offset_nonneg zone Hz), Hw.
  destruct (set_pkg_platform_enabled_frame w v Hr) as (wa & Ea & Fa).
  destruct (set_core_uncore_dram_enabled_frame w v Hr) as (wb & Eb & Fb).
  assert (Ha : U64.in_range wa).
  { unfold set_pkg_platform_enabled in Ea. cbv zeta in Ea.
    apply bind_ok in Ea as (x1 & _ & Ea). apply bind_ok in Ea as (x2 & _ & Ea).
    apply bind_ok in Ea as (x3 & _ & Ea).
    refine (replace_bits_in_range _ _ 48 48 _ _ _ _ _ Ea); lia. }
  assert (Hb : U64.in_range wb).
  { unfold set_core_uncore_dram_enabled in Eb. cbv zeta in Eb.
    apply bind_ok in Eb as (x1 & _ & Eb).
    refine (replace_bits_in_range _ _ 16 16 _ _ _ _ _ Eb); lia. }
  unfold is_pkg_platform, is_core_uncore_dram.
  destruct zone; try congruence.
  all: try (exists wa; rewrite Ea; cbn [res_bind];
            split; [reflexivity|]; split; [exact Ha|];
            split; [intros _; reflexivity|intros [H|[H|H]]; discriminate]).
  all: exists wb; rewrite Eb; cbn [res_bind];
       split; [reflexivity|]; split; [exact Hb|];
       split; [intros [H|H]; discriminate|intros _; reflexivity].
Qed.

Lemma is_zone_enabled_on_register dev socket rc zone st fd w :
  zone_register dev socket rc zone st fd w ->
  (is_pkg_platform zone ->
   raplcap_is_zone_enabled dev socket rc zone
   = do r <- is_pkg_platform_enabled w; Ok (inl r)) /\
  (is_core_uncore_dram zone ->
   raplcap_is_zone_enabled dev socket rc zone
   = do r <- is_core_uncore_dram_enabled w; Ok (inl r)).
Proof.
  intros (Hs & Hfd & Hw & _). unfold raplcap_is_zone_enabled.
  rewrite Hs, Hfd. cbn [res_bind]. unfold read_msr_by_offset.
  split; intros Hz.
  - rewrite (offset_nonneg_pkg_platform zone Hz), Hw.
    destruct Hz as [-> | ->]; reflexivity.
  - rewrite (offset_nonneg_core_uncore_dram zone Hz), Hw.
    destruct Hz as [-> | [-> | ->]]; reflexivity.
Qed.

Lemma zone_classes (zone : raplcap_zone) :
  zone <> RAPLCAP_ZONE_OTHER -> is_pkg_platform zone \/ is_core_uncore_dram zone.
Proof.
  unfold is_pkg_platform, is_core_uncore_dram.
  destruct zone; intros H; try congruence; auto.
Qed.

(** C7. A package or platform word reads as enabled exactly when bits 15
    and 47 are both set, a core, uncore or DRAM word exactly when bit 15 is
    set; enabling or disabling writes the flag to bits 15, 47, 16 and 48
    (bits 15 and 16 for core, uncore and DRAM), and the word then reads as
    the flag just written, as does the zone of a session after
    [raplcap_set_zone_enabled]. *)
Theorem enabled_bits_decode_encode (w v : Z) :
  is_pkg_platform_enabled w = Ok (of_bool (Z.testbit w 15 && Z.testbit w 47)) /\
  is_core_uncore_dram_enabled w = Ok (of_bool (Z.testbit w 15)) /\
  (exists w', set_pkg_platform_enabled w v = Ok w' /\
     Z.testbit w' 15 = truthy v /\ Z.testbit w' 47 = truthy v /\
     Z.testbit w' 16 = truthy v /\ Z.testbit w' 48 = truthy v /\
     is_pkg_platform_enabled w' = Ok (of_bool (truthy v))) /\
  (exists w', set_core_uncore_dram_enabled w v = Ok w' /\
     Z.testbit w' 15 = truthy v /\ Z.testbit w' 16 = truthy v /\
     is_core_uncore_dram_enabled w' = Ok (of_bool (truthy v))) /\
  (forall dev socket rc zone st fd,
     zone_register dev socket rc zone st fd w ->
     zone <> RAPLCAP_ZONE_OTHER ->
     exists dev',
       raplcap_set_zone_enabled dev socket rc zone v = Ok (dev', inl 0) /\
       raplcap_is_zone_enabled dev' socket rc zone
         = Ok (inl (of_bool (truthy v)))).
Proof.
  assert (HA : exists w', set_pkg_platform_enabled w v = Ok w' /\
     Z.testbit w' 15 = truthy v /\ Z.testbit w' 47 = truthy v /\
     Z.testbit w' 16 = truthy v /\ Z.testbit w' 48 = truthy v /\
     is_pkg_platform_enabled w' = Ok (of_bool (truthy v))).
  { destruct (set_pkg_platform_enabled_spec w v)
      as (w' & E & B15 & B47 & B16 & B48 & _).
    exists w'. repeat split; try assumption.
    rewrite is_pkg_platform_enabled_spec, B15, B47. now destruct (truthy v). }
  assert (HB : exists w', set_core_uncore_dram_enabled w v = Ok w' /\
     Z.testbit w' 15 = truthy v /\ Z.testbit w' 16 = truthy v /\
     is_core_uncore_dram_enabled w' = Ok (of_bool (truthy v))).
  { destruct (set_core_uncore_dram_enabled_spec w v) as (w' & E & B15 & B16 & _).
    exists w'. repeat split; try assumption.
    unfold is_core_uncore_dram_enabled. rewrite get_bit by lia. now rewrite B15. }
  split; [apply is_pkg_platform_enabled_spec|].
  split; [apply get_bit; lia|]. split; [exact HA|]. split; [exact HB|].
  intros dev socket rc zone st fd Hreg Hz.
  destruct (set_zone_enabled_on_register dev socket rc zone st fd w v Hreg Hz)
    as (w' & E & Hw' & Ea & Eb).
  exists (dev_store dev fd (zone_to_msr_offset zone) w'). split; [exact E|].
  destruct (is_zone_enabled_on_register _ _ _ _ _ _ _
              (zone_register_store _ _ _ _ _ _ _ _ Hreg Hw')) as [Ga Gb].
  destruct (zone_classes zone Hz) as [Hc|Hc].
  - rewrite (Ga Hc). destruct HA as (wa & Ewa & _ & _ & _ & _ & Hen).
    rewrite (Ea Hc) in Ewa. injection Ewa as <-. now rewrite Hen.
  - rewrite (Gb Hc). destruct HB as (wb & Ewb & _ & _ & Hen).
    rewrite (Eb Hc) in Ewb. injection Ewb as <-. now rewrite Hen.
Qed.

Lemma enabled_bits_decode_encode_witness :
  zone_register dev0 0 rc0 RAPLCAP_ZONE_DRAM
    (mk_msr (Some [3]) (pow_half 3) (pow_half 10)) 3 0 /\
  RAPLCAP_ZONE_DRAM <> RAPLCAP_ZONE_OTHER /\
  exists dev',
    raplcap_set_zone_enabled dev0 0 rc0 RAPLCAP_ZONE_DRAM 1 = Ok (dev', inl 0) /\
    raplcap_is_zone_enabled dev' 0 rc0 RAPLCAP_ZONE_DRAM = Ok (inl 1).
Proof.
  assert (Hreg : zone_register dev0 0 rc0 RAPLCAP_ZONE_DRAM
                   (mk_msr (Some [3]) (pow_half 3) (pow_half 10)) 3 0).
  { repeat split; reflexivity || (unfold U64.modulus; lia). }
  split; [exact Hreg|]. split; [discriminate|].
  destruct (enabled_bits_decode_encode 0 1) as (_ & _ & _ & _ & H).
  apply (H dev0 0 rc0 RAPLCAP_ZONE_DRAM _ 3 Hreg). discriminate.
Defined.

(** ** Session set-up *)

Lemma pow_half_positive (k : Z) : (0 < pow_half k)%Q.
Proof. unfold pow_half. now apply Qpower_0_lt. Qed.

Lemma init_fail_ret (m : machine) (n : Z) (fds : option (list Z))
    (e : errno_t) (i : initialised) :
  init_fail m n fds e = Ok i -> init_ret i = inr e.
Proof.
  unfold init_fail. intros H. apply bind_ok in H as (d & _ & H).
  now injection H as <-.
Qed.

(** A session that [raplcap_init] reports as set up has its state, with
    units that are positive. *)
Lemma raplcap_init_units (m : machine) (rc : option raplcap) (i : initialised) :
  raplcap_init m rc = Ok i -> init_ret i = inl 0 ->
  exists r st a,
    init_rc i = Some r /\ state r = Some st /\ fds st = Some a /\
    (0 < power_units st)%Q /\ (0 < time_units st)%Q.
Proof.
  unfold raplcap_init. intros H Hret.
  destruct rc as [r|]; [|injection H as <-; discriminate].
  destruct (_ || _); [injection H as <-; discriminate|].
  destruct (negb (calloc_ok m));
    [apply init_fail_ret in H; congruence|].
  apply bind_ok in H as ([a ret] & _ & H).
  destruct ret as [z|e]; [|apply init_fail_ret in H; congruence].
  destruct (a !! 0%nat) as [fd0|]; [|discriminate].
  destruct (read_msr_by_offset (dev m) fd0 MSR_RAPL_POWER_UNIT) as [msrval|e];
    [|apply init_fail_ret in H; congruence].
  injection H as <-. cbn.
  eexists _, _, a. repeat split; apply pow_half_positive.
Qed.

Lemma session_state_none (socket : Z) (rc : option raplcap) :
  session_state socket rc = None <-> invalid_session socket rc.
Proof.
  unfold session_state, invalid_session. destruct rc as [r|]; [|tauto].
  destruct (state r) as [st|]; [|tauto].
  destruct (socket >=? nsockets r) eqn:E.
  - split; [intros _; right|reflexivity]. apply Z.geb_le in E. lia.
  - split; [discriminate|]. intros [H|H]; [discriminate|].
    rewrite Z.geb_leb in E. apply Z.leb_gt in E. lia.
Qed.

Lemma session_state_some (socket : Z) (rc : option raplcap) (st : raplcap_msr) :
  session_state socket rc = Some st ->
  exists r, rc = Some r /\ state r = Some st /\ socket < nsockets r.
Proof.
  unfold session_state. destruct rc as [r|]; [|discriminate].
  destruct (state r) as [st'|] eqn:E; [|discriminate].
  destruct (socket >=? nsockets r) eqn:G; [discriminate|].
  intros [= <-]. exists r. repeat split; try assumption.
  rewrite Z.geb_leb in G. apply Z.leb_gt in G. lia.
Qed.

Lemma socket_fd_defined (socket : Z) (rc : option raplcap) (st : raplcap_msr) :
  session_well_formed rc -> 0 <= socket ->
  session_state socket rc = Some st ->
  exists a fd, fds st = Some a /\ a !! Z.to_nat socket = Some fd /\
    socket_fd st socket = Ok fd.
Proof.
  intros Hwf Hs Hst. apply session_state_some in Hst as (r & -> & E & Hlt).
  unfold session_well_formed in Hwf. rewrite E in Hwf.
  destruct Hwf as (a & Ha & Hlen).
  destruct (lookup_lt_is_Some_2 a (Z.to_nat socket)) as (fd & Hfd); [lia|].
  exists a, fd. repeat split; try assumption.
  unfold socket_fd. now rewrite Ha, Hfd.
Qed.

(** ** Arguments the session operations reject *)

(** X1. Every operation on a session fails with EINVAL, and leaves the
    register device as it is, when there is no session, when the session has
    no state, when the socket is not below the socket count, and when the
    zone is outside the enumeration. *)
Theorem invalid_arguments_einval (dev : msr_dev) (socket : Z)
    (rc : option raplcap) (zone : raplcap_zone) :
  invalid_session socket rc \/
  (zone = RAPLCAP_ZONE_OTHER /\
   exists st fd, session_state socket rc = Some st /\ socket_fd st socket = Ok fd) ->
  raplcap_is_zone_enabled dev socket rc zone = Ok (inr EINVAL) /\
  (forall enabled,
     raplcap_set_zone_enabled dev socket rc zone enabled = Ok (dev, inr EINVAL)) /\
  (forall want_long want_short,
     raplcap_get_limits dev socket rc zone want_long want_short
     = Ok (inr EINVAL)) /\
  (forall limit_long limit_short,
     raplcap_set_limits dev socket rc zone limit_long limit_short
     = Ok (dev, inr EINVAL)).
Proof.
  unfold raplcap_is_zone_enabled, raplcap_set_zone_enabled,
    raplcap_get_limits, raplcap_set_limits.
  intros [H | (-> & st & fd & Hst & Hfd)].
  - apply session_state_none in H. rewrite H. repeat split.
  - rewrite Hst, Hfd. repeat split.
Qed.

Lemma invalid_arguments_einval_witness :
  raplcap_get_limits dev0 1 rc0 RAPLCAP_ZONE_PACKAGE true true = Ok (inr EINVAL) /\
  raplcap_set_limits dev0 0 rc0 RAPLCAP_ZONE_OTHER (Some (mk_limit 1 100)) None
  = Ok (dev0, inr EINVAL).
Proof.
  split.
  - apply (invalid_arguments_einval dev0 1 rc0 RAPLCAP_ZONE_PACKAGE).
    left. right. cbn. lia.
  - apply (invalid_arguments_einval dev0 0 rc0 RAPLCAP_ZONE_OTHER).
    right. split; [reflexivity|]. eexists _, 3. split; reflexivity.
Defined.

(** ** What a write changes in the device *)

Lemma write_on_readable (dev : msr_dev) (fd msr w data : Z) :
  read_msr_by_offset dev fd msr = inl w ->
  dev fd msr = Some w /\
  write_msr_by_offset dev fd msr data = (dev_store dev fd msr data, inl 0).
Proof.
  unfold read_msr_by_offset, write_msr_by_offset.
  destruct (msr <? 0); [discriminate|].
  destruct (dev fd msr) as [w0|]; [|discriminate].
  intros [= ->]. split; reflexivity.
Qed.

Lemma set_limits_outcome (dev : msr_dev) (socket : Z) (rc : option raplcap)
    (zone : raplcap_zone) (ll ls : option raplcap_limit)
    (dev' : msr_dev) (r : Z + errno_t) :
  raplcap_set_limits dev socket rc zone ll ls = Ok (dev', r) ->
  write_outcome dev socket rc zone dev' r.
Proof.
  unfold raplcap_set_limits, write_outcome.
  destruct (session_state socket rc) as [st|] eqn:Hst;
    [|intros [= <- <-]; right; split; [now eexists|reflexivity]].
  intros H. apply bind_ok in H as (fd & Hfd & H).
  destruct (read_msr_by_offset dev fd (zone_to_msr_offset zone)) as [w|e] eqn:R;
    [|injection H as <- <-; right; split; [now eexists|reflexivity]].
  destruct zone;
    try (apply bind_ok in H as (w' & _ & H);
         destruct (write_on_readable dev fd _ w w' R) as (Hw & Wr);
         rewrite Wr in H; injection H as <- <-;
         left; split; [reflexivity|]; now exists st, fd, w, w').
  injection H as <- <-. right. split; [now eexists|reflexivity].
Qed.

Lemma set_zone_enabled_outcome (dev : msr_dev) (socket : Z)
    (rc : option raplcap) (zone : raplcap_zone) (enabled : Z)
    (dev' : msr_dev) (r : Z + errno_t) :
  raplcap_set_zone_enabled dev socket rc zone enabled = Ok (dev', r) ->
  write_outcome dev socket rc zone dev' r.
Proof.
  unfold raplcap_set_zone_enabled, write_outcome.
  destruct (session_state socket rc) as [st|] eqn:Hst;
    [|intros [= <- <-]; right; split; [now eexists|reflexivity]].
  intros H. apply bind_ok in H as (fd & Hfd & H).
  destruct (read_msr_by_offset dev fd (zone_to_msr_offset zone)) as [w|e] eqn:R;
    [|injection H as <- <-; right; split; [now eexists|reflexivity]].
  destruct zone;
    try (apply bind_ok in H as (w' & _ & H);
         destruct (write_on_readable dev fd _ w w' R) as (Hw & Wr);
         rewrite Wr in H; injection H as <- <-;
         left; split; [reflexivity|]; now exists st, fd, w, w').
  injection H as <- <-. right. split; [now eexists|reflexivity].
Qed.

(** X2. A call that sets limits or enables a zone either returns 0, and
    then the device differs from the one before in the register of the zone
    on the descriptor of the socket, which was readable, and nowhere else;
    or it returns an error, and then the device is the one before. *)
Theorem write_one_register_or_none (dev : msr_dev) (socket : Z)
    (rc : option raplcap) (zone : raplcap_zone)
    (dev' : msr_dev) (r : Z + errno_t) :
  (exists limit_long limit_short,
     raplcap_set_limits dev socket rc zone limit_long limit_short
     = Ok (dev', r)) \/
  (exists enabled,
     raplcap_set_zone_enabled dev socket rc zone enabled = Ok (dev', r)) ->
  (r = inl 0 /\
   exists st fd w w',
     session_state socket rc = Some st /\ socket_fd st socket = Ok fd /\
     dev fd (zone_to_msr_offset zone) = Some w /\
     dev' = dev_store dev fd (zone_to_msr_offset zone) w' /\
     forall fd' off', (fd', off') <> (fd, zone_to_msr_offset zone) ->
       dev' fd' off' = dev fd' off') \/
  ((exists e, r = inr e) /\ dev' = dev).
Proof.
  intros H.
  assert (O : write_outcome dev socket rc zone dev' r).
  { destruct H as [(ll & ls & H) | (en & H)];
      [eapply set_limits_outcome | eapply set_zone_enabled_outcome]; eassumption. }
  destruct O as [(-> & st & fd & w & w' & Hst & Hfd & Hw & ->) | O];
    [left|right; exact O].
  split; [reflexivity|]. exists st, fd, w, w'. repeat split; try assumption.
  intros fd' off' Hne. now apply dev_store_other.
Qed.

Lemma write_one_register_or_none_witness :
  exists dev' r,
    raplcap_set_zone_enabled dev0 0 rc0 RAPLCAP_ZONE_CORE 1 = Ok (dev', r) /\
    ((r = inl 0 /\
      exists st fd w w',
        session_state 0 rc0 = Some st /\ socket_fd st 0 = Ok fd /\
        dev0 fd (zone_to_msr_offset RAPLCAP_ZONE_CORE) = Some w /\
        dev' = dev_store dev0 fd (zone_to_msr_offset RAPLCAP_ZONE_CORE) w' /\
        forall fd' off', (fd', off') <> (fd, zone_to_msr_offset RAPLCAP_ZONE_CORE) ->
          dev' fd' off' = dev0 fd' off') \/
     ((exists e, r = inr e) /\ dev' = dev0)).
Proof.
  eexists _, _. split; [reflexivity|].
  apply (write_one_register_or_none dev0 0 rc0 RAPLCAP_ZONE_CORE).
  right. exists 1. reflexivity.
Defined.

(** ** Zones and sockets do not interfere *)

Lemma zone_to_msr_offset_inj (z z' : raplcap_zone) :
  zone_to_msr_offset z = zone_to_msr_offset z' -> z = z'.
Proof. destruct z, z'; try reflexivity; intros H; vm_compute in H; discriminate H. Qed.

Lemma session_state_any_socket (socket socket' : Z) (rc : option raplcap)
    (st st' : raplcap_msr) :
  session_state socket rc = Some st -> session_state socket' rc = Some st' ->
  st' = st.
Proof.
  intros H H'. apply session_state_some in H as (r & -> & E & _).
  apply session_state_some in H' as (r' & [= <-] & E' & _). congruence.
Qed.

Lemma read_msr_store_other (dev : msr_dev) (fd off w fd' off' : Z) :
  (fd', off') <> (fd, off) ->
  read_msr_by_offset (dev_store dev fd off w) fd' off'
  = read_msr_by_offset dev fd' off'.
Proof.
  intros H. unfold read_msr_by_offset. now rewrite dev_store_other.
Qed.

(** What the two reading operations return depends on the device through
    the register of the zone on the descriptor of the socket only. *)
Lemma reads_depend_on_register (dev dev' : msr_dev) (socket : Z)
    (rc : option raplcap) (zone : raplcap_zone) :
  (forall st fd,
     session_state socket rc = Some st -> socket_fd st socket = Ok fd ->
     read_msr_by_offset dev' fd (zone_to_msr_offset zone)
     = read_msr_by_offset dev fd (zone_to_msr_offset zone)) ->
  raplcap_is_zone_enabled dev' socket rc zone
  = raplcap_is_zone_enabled dev socket rc zone /\
  forall want_long want_short,
    raplcap_get_limits dev' socket rc zone want_long want_short
    = raplcap_get_limits dev socket rc zone want_long want_short.
Proof.
  intros H. unfold raplcap_is_zone_enabled, raplcap_get_limits.
  destruct (session_state socket rc) as [st|]; [|now split].
  destruct (socket_fd st socket) as [fd|f] eqn:Hfd; [|now split].
  cbn [res_bind]. rewrite (H st fd eq_refl Hfd). now split.
Qed.

(** X3. Setting limits on a zone of a socket, or enabling or disabling it,
    changes nothing of what the session reads for any other zone of that
    socket or for any zone of another socket: whether the zone is enabled
    and the limits decoded from it are as before the call. *)
Theorem write_leaves_other_zones (dev : msr_dev) (socket : Z)
    (rc : option raplcap) (zone : raplcap_zone)
    (dev' : msr_dev) (r : Z + errno_t) (socket' : Z) (zone' : raplcap_zone) :
  (exists limit_long limit_short,
     raplcap_set_limits dev socket rc zone limit_long limit_short
     = Ok (dev', r)) \/
  (exists enabled,
     raplcap_set_zone_enabled dev socket rc zone enabled = Ok (dev', r)) ->
  distinct_descriptors rc -> 0 <= socket -> 0 <= socket' ->
  socket' <> socket \/ zone' <> zone ->
  raplcap_is_zone_enabled dev' socket' rc zone'
  = raplcap_is_zone_enabled dev socket' rc zone' /\
  forall want_long want_short,
    raplcap_get_limits dev' socket' rc zone' want_long want_short
    = raplcap_get_limits dev socket' rc zone' want_long want_short.
Proof.
  intros H Hdist Hs Hs' Hne.
  assert (O : write_outcome dev socket rc zone dev' r).
  { destruct H as [(ll & ls & H) | (en & H)];
      [eapply set_limits_outcome | eapply set_zone_enabled_outcome]; eassumption. }
  destruct O as [(-> & st & fd & w & w' & Hst & Hfd & Hw & ->) | (_ & ->)];
    [|now split].
  apply reads_depend_on_register. intros st' fd' Hst' Hfd'.
  apply read_msr_store_other. intros [= -> Hoff].
  apply zone_to_msr_offset_inj in Hoff.
  destruct Hne as [Hne | Hne]; [|congruence].
  assert (st' = st) as -> by (eapply session_state_any_socket; eassumption).
  apply session_state_some in Hst as (rr & -> & E & _).
  unfold distinct_descriptors in Hdist. rewrite E in Hdist.
  unfold socket_fd in Hfd, Hfd'.
  destruct (fds st) as [a|]; [|discriminate].
  destruct (a !! Z.to_nat socket) as [x|] eqn:L; [|discriminate].
  destruct (a !! Z.to_nat socket') as [x'|] eqn:L'; [|discriminate].
  injection Hfd as ->. injection Hfd' as ->.
  pose proof (NoDup_lookup a _ _ fd Hdist L L'). lia.
Qed.

Lemma write_leaves_other_zones_witness :
  exists dev',
    raplcap_set_limits dev34 1 rc34 RAPLCAP_ZONE_PACKAGE
      (Some (mk_limit 1 100)) None = Ok (dev', inl 0) /\
    raplcap_is_zone_enabled dev' 0 rc34 RAPLCAP_ZONE_PACKAGE
    = raplcap_is_zone_enabled dev34 0 rc34 RAPLCAP_ZONE_PACKAGE /\
    forall want_long want_short,
      raplcap_get_limits dev' 0 rc34 RAPLCAP_ZONE_PACKAGE want_long want_short
      = raplcap_get_limits dev34 0 rc34 RAPLCAP_ZONE_PACKAGE want_long want_short.
Proof.
  eexists. split; [reflexivity|].
  apply (write_leaves_other_zones dev34 1 rc34 RAPLCAP_ZONE_PACKAGE _ (inl 0)
           0 RAPLCAP_ZONE_PACKAGE).
  - left. exists (Some (mk_limit 1 100)), None. reflexivity.
  - cbn. apply NoDup_cons. split; [|apply NoDup_singleton].
    intros H. inversion H as [|? ? ? H']; inversion H'.
  - lia.
  - lia.
  - left. lia.
Defined.

(** ** After teardown *)

Lemma destroy_leaves_no_state (close : Z -> option Z) (rc rc' : option raplcap)
    (d : destroyed) :
  raplcap_destroy close rc = Ok (rc', d) ->
  match rc' with
  | None => rc = None
  | Some r' => state r' = None /\ exists r, rc = Some r /\ nsockets r' = nsockets r
  end.
Proof.
  unfold raplcap_destroy. destruct rc as [r|]; [|now intros [= <- <-]].
  destruct (state r) as [st|] eqn:E.
  - intros H. apply bind_ok in H as ([err cl] & _ & H). injection H as <- <-.
    split; [reflexivity|]. now exists r.
  - intros [= <- <-]. split; [assumption|]. now exists r.
Qed.

(** X4. After [raplcap_destroy] the session has no state: a second
    [raplcap_destroy] closes nothing and returns 0, every operation on the
    session fails with EINVAL without touching the device, and the session
    still reports its socket count. *)
Theorem destroy_twice_closes_once (close : Z -> option Z)
    (rc rc' : option raplcap) (d : destroyed) :
  raplcap_destroy close rc = Ok (rc', d) ->
  raplcap_destroy close rc' = Ok (rc', mk_destroyed [] 0 0) /\
  (forall popen_ok cpuinfo,
     raplcap_get_num_sockets popen_ok cpuinfo rc'
     = raplcap_get_num_sockets popen_ok cpuinfo rc) /\
  (forall dev socket zone,
     raplcap_is_zone_enabled dev socket rc' zone = Ok (inr EINVAL) /\
     (forall enabled,
        raplcap_set_zone_enabled dev socket rc' zone enabled
        = Ok (dev, inr EINVAL)) /\
     (forall want_long want_short,
        raplcap_get_limits dev socket rc' zone want_long want_short
        = Ok (inr EINVAL)) /\
     (forall limit_long limit_short,
        raplcap_set_limits dev socket rc' zone limit_long limit_short
        = Ok (dev, inr EINVAL))).
Proof.
  intros H. apply destroy_leaves_no_state in H.
  destruct rc' as [r'|].
  - destruct H as (E & r & -> & Hn). repeat split.
    + unfold raplcap_destroy. now rewrite E.
    + intros. cbn. assumption.
    + unfold raplcap_is_zone_enabled, session_state. now rewrite E.
    + intros. unfold raplcap_set_zone_enabled, session_state. now rewrite E.
    + intros. unfold raplcap_get_limits, session_state. now rewrite E.
    + intros. unfold raplcap_set_limits, session_state. now rewrite E.
  - subst rc. repeat split.
Qed.

Lemma destroy_twice_closes_once_witness :
  exists rc' d,
    raplcap_destroy close_3_4_fail rc34 = Ok (rc', d) /\
    closed d = [3; 4] /\
    raplcap_destroy close_3_4_fail rc' = Ok (rc', mk_destroyed [] 0 0).
Proof.
  eexists _, _. split; [reflexivity|]. split; [reflexivity|].
  apply (destroy_twice_closes_once close_3_4_fail rc34 _ _ eq_refl).
Defined.

(** ** Zones a build supports *)

(** X5. [raplcap_is_zone_supported] fails with EINVAL when there is no
    session, when the socket is not below the socket count and when the zone
    is outside the enumeration, and in no other case; it succeeds on a
    session without state; package and core zones are always reported as
    supported, and in a build that defines none of the macros every zone of
    the enumeration is; a zone is reported as unsupported only where a
    macro of the build is 0. *)
Theorem zone_supported_cases (macros : build_macros) (socket : Z)
    (rc : option raplcap) (zone : raplcap_zone) :
  (raplcap_is_zone_supported macros socket rc zone = inr EINVAL <->
   rc = None \/ (exists r, rc = Some r /\ nsockets r <= socket) \/
   zone = RAPLCAP_ZONE_OTHER) /\
  (forall e, raplcap_is_zone_supported macros socket rc zone = inr e ->
     e = EINVAL) /\
  (forall r, rc = Some r -> socket < nsockets r ->
     (zone = RAPLCAP_ZONE_PACKAGE \/ zone = RAPLCAP_ZONE_CORE ->
      raplcap_is_zone_supported macros socket rc zone = inl 1) /\
     (zone <> RAPLCAP_ZONE_OTHER ->
      raplcap_is_zone_supported no_macros socket rc zone = inl 1)) /\
  (raplcap_is_zone_supported macros socket rc zone = inl 0 ->
   (zone = RAPLCAP_ZONE_UNCORE /\ RAPL_UNCORE_SUPPORTED macros = Some 0) \/
   (zone = RAPLCAP_ZONE_DRAM /\ RAPL_DRAM_SUPPORTED macros = Some 0) \/
   (zone = RAPLCAP_ZONE_PSYS /\ RAPL_PSYS_SUPPORTED macros = Some 0)).
Proof.
  assert (Hm : forall m, inl (B := errno_t) (macro_or_1 m) = inl 0 -> m = Some 0).
  { intros [v|]; cbn; [intros [= ->]; reflexivity | discriminate]. }
  unfold raplcap_is_zone_supported.
  destruct rc as [r|].
  2:{ split; [|split; [|split]].
      - split; [intros _; now left | reflexivity].
      - congruence.
      - discriminate.
      - discriminate. }
  destruct (socket >=? nsockets r) eqn:G.
  - apply Z.geb_le in G. split; [|split; [|split]].
    + split; [|reflexivity]. intros _. right. left. now exists r.
    + congruence.
    + intros r' [= <-] Hlt. lia.
    + discriminate.
  - rewrite Z.geb_leb in G. apply Z.leb_gt in G. split; [|split; [|split]].
    + split.
      * destruct zone; try discriminate. intros _. now right; right.
      * intros [H | [(r' & [= <-] & H) | ->]]; [discriminate | lia | reflexivity].
    + destruct zone; congruence.
    + intros r' _ _. split.
      * intros [-> | ->]; reflexivity.
      * destruct zone; (reflexivity || congruence).
    + destruct zone; try discriminate; intros H; apply Hm in H; auto.
Qed.

(** ** Sequences of field writes *)

Lemma in_field_in (first last i : Z) :
  first <= i <= last -> in_field first last i = true.
Proof.
  intros H. unfold in_field.
  now rewrite (proj2 (Z.leb_le first i)), (proj2 (Z.leb_le i last)) by lia.
Qed.

Lemma replace_bits_testbit (w v first last w' i : Z) :
  U64.in_range w ->
  0 <= first -> first <= last -> last < 64 -> last - first < 63 ->
  replace_bits w v first last = Ok w' ->
  Z.testbit w' i
  = if in_field first last i then Z.testbit v (i - first) else Z.testbit w i.
Proof.
  intros Hw H0 H1 H2 H3 Hr. unfold in_field.
  destruct (Z.leb_spec first i); cbn [andb];
    [destruct (Z.leb_spec i last); cbn [andb]|].
  - destruct (replace_bits_ok w v first last) as (w2 & E & Hbits); try lia.
    rewrite E in Hr. injection Hr as <-. rewrite Hbits by lia.
    now rewrite (proj2 (Z.leb_le first i)), (proj2 (Z.leb_le i last)) by lia.
  - apply (replace_bits_frame w v first last); (assumption || lia).
  - apply (replace_bits_frame w v first last); (assumption || lia).
Qed.

Lemma replace_all_bits (ws : list field_write) :
  forall w, U64.in_range w -> Forall write_ok ws ->
    exists w', replace_all w ws = Ok w' /\ U64.in_range w' /\
      forall i, Z.testbit w' i = overlay ws (Z.testbit w i) i.
Proof.
  induction ws as [|x more IH]; intros w Hw Hok.
  - exists w. split; [reflexivity | split; [assumption | reflexivity]].
  - apply List.Forall_cons_iff in Hok as [(H0 & H1 & H2 & H3) Hmore].
    destruct (replace_bits_total w (w_data x) (w_first x) (w_last x))
      as (w1 & R); try lia.
    assert (Hw1 : U64.in_range w1)
      by (eapply replace_bits_in_range; [| | | |exact R]; lia).
    destruct (IH w1 Hw1 Hmore) as (w' & E & Hw' & Hbits).
    exists w'. cbn [replace_all overlay]. rewrite R. cbn [res_bind].
    split; [exact E | split; [exact Hw'|]].
    intros i. rewrite Hbits.
    now rewrite (replace_bits_testbit w (w_data x) (w_first x) (w_last x) w1 i)
      by (assumption || lia).
Qed.

Lemma overlay_cases (ws : list field_write) (i : Z) :
  (covers ws i = false /\ forall c, overlay ws c i = c) \/
  (covers ws i = true /\ exists k, forall c, overlay ws c i = k).
Proof.
  induction ws as [|x more IH]; [left; now split|].
  cbn [covers existsb overlay]. fold (covers more i).
  destruct (in_field (w_first x) (w_last x) i); cbn [orb].
  - right. split; [reflexivity|].
    destruct IH as [(_ & H) | (_ & k & H)];
      [eexists; intros c; apply H | exists k; intros c; apply H].
  - destruct IH as [(C & H) | (C & k & H)]; [left | right]; (split; [exact C|]).
    + intros c. apply H.
    + exists k. intros c. apply H.
Qed.

(** Applying the same writes a second time changes nothing. *)
Lemma replace_all_twice (ws : list field_write) (w w1 : Z) :
  U64.in_range w -> Forall write_ok ws ->
  replace_all w ws = Ok w1 -> replace_all w1 ws = Ok w1.
Proof.
  intros Hw Hok H.
  destruct (replace_all_bits ws w Hw Hok) as (w1' & E & Hw1 & B1).
  rewrite E in H. injection H as ->.
  destruct (replace_all_bits ws w1 Hw1 Hok) as (w2 & E2 & Hw2 & B2).
  rewrite E2. f_equal. apply Z.bits_inj'. intros i _.
  rewrite B2, B1.
  destruct (overlay_cases ws i) as [(_ & H) | (_ & k & H)]; now rewrite !H.
Qed.

Lemma replace_all_app (ws1 ws2 : list field_write) (w : Z) :
  replace_all w (ws1 ++ ws2) = do w1 <- replace_all w ws1; replace_all w1 ws2.
Proof.
  revert w. induction ws1 as [|x more IH]; intros w; [reflexivity|].
  cbn [app replace_all].
  destruct (replace_bits w (w_data x) (w_first x) (w_last x)); cbn [res_bind];
    [apply IH | reflexivity].
Qed.

Lemma overlay_app (ws1 ws2 : list field_write) (b : bool) (i : Z) :
  overlay (ws1 ++ ws2) b i = overlay ws2 (overlay ws1 b i) i.
Proof.
  revert b. induction ws1 as [|x more IH]; intros b; [reflexivity|].
  cbn [app overlay]. apply IH.
Qed.

(** Writes to fields that do not meet can be applied in either order. *)
Lemma replace_all_comm (ws1 ws2 : list field_write) (w w1 w2 : Z) :
  U64.in_range w -> Forall write_ok ws1 -> Forall write_ok ws2 ->
  (forall i, covers ws1 i = true -> covers ws2 i = false) ->
  replace_all w ws1 = Ok w1 -> replace_all w1 ws2 = Ok w2 ->
  exists w3, replace_all w ws2 = Ok w3 /\ U64.in_range w3 /\
    replace_all w3 ws1 = Ok w2.
Proof.
  intros Hw Hok1 Hok2 Hdis E1 E2.
  destruct (replace_all_bits ws1 w Hw Hok1) as (x1 & F1 & Hx1 & B1).
  rewrite F1 in E1. injection E1 as ->.
  destruct (replace_all_bits ws2 w1 Hx1 Hok2) as (x2 & F2 & Hx2 & B2).
  rewrite F2 in E2. injection E2 as ->.
  destruct (replace_all_bits ws2 w Hw Hok2) as (w3 & F3 & Hw3 & B3).
  destruct (replace_all_bits ws1 w3 Hw3 Hok1) as (w4 & F4 & Hw4 & B4).
  exists w3. split; [exact F3 | split; [exact Hw3|]].
  rewrite F4. f_equal. apply Z.bits_inj'. intros i _.
  rewrite B4, B3, B2, B1.
  destruct (overlay_cases ws1 i) as [(_ & H1) | (C1 & k1 & H1)].
  - now rewrite !H1.
  - apply Hdis in C1.
    destruct (overlay_cases ws2 i) as [(_ & H2) | (C2 & _)]; [|congruence].
    rewrite !H2. now rewrite !H1.
Qed.

(** ** The limit encoders as sequences of field writes *)

(** Runs both sides of an equation between an encoder and its writes, one
    [replace_bits] and one conversion at a time. *)
Ltac run_writes :=
  repeat first
    [ progress cbn [res_bind app replace_all w_data w_first w_last]
    | match goal with
      | R : replace_bits ?a ?v ?f ?l = Ok _ |- context [replace_bits ?a ?v ?f ?l] =>
          rewrite R
      end
    | match goal with
      | |- context [replace_bits ?a ?v ?f ?l] =>
          let b := fresh "b" in
          let R := fresh "R" in
          destruct (replace_bits_total a v f l) as (b & R); [lia ..|];
          rewrite !R
      end
    | progress read_through
    | rewrite get_bits_field by lia
    | match goal with
      | |- context [res_bind ?m _] =>
          lazymatch m with
          | u64_of_double _ => destruct m
          | u64_of_log2 _ => destruct m
          | to_time_window_F _ => destruct m
          end
      end ].

Lemma set_pkg_platform_writes (w : Z) (st : raplcap_msr)
    (ll ls : option raplcap_limit) :
  set_pkg_platform w st ll ls
  = do ws <- pkg_platform_writes w st ll ls; replace_all w ws.
Proof.
  unfold set_pkg_platform, pkg_platform_writes, power_write, window_write.
  destruct ll as [l|], ls as [s|];
    repeat match goal with
           | |- context [if Qpositive ?x then _ else _] => destruct (Qpositive x)
           end;
    run_writes; reflexivity.
Qed.

Lemma set_core_uncore_dram_writes (w : Z) (st : raplcap_msr)
    (ll : option raplcap_limit) :
  set_core_uncore_dram w st ll
  = do ws <- core_uncore_dram_writes w st ll; replace_all w ws.
Proof.
  unfold set_core_uncore_dram, core_uncore_dram_writes, power_write,
    window_write_F.
  destruct ll as [l|];
    repeat match goal with
           | |- context [if Qpositive ?x then _ else _] => destruct (Qpositive x)
           end;
    run_writes; reflexivity.
Qed.

Lemma set_pkg_platform_enabled_writes (w enabled : Z) :
  set_pkg_platform_enabled w enabled
  = replace_all w (pkg_platform_enabled_writes enabled).
Proof.
  unfold set_pkg_platform_enabled, pkg_platform_enabled_writes.
  cbn [replace_all w_data w_first w_last].
  repeat (match goal with
          | |- res_bind ?m _ = res_bind ?m _ => destruct m; cbn [res_bind]
          end; try reflexivity).
Qed.

Lemma set_core_uncore_dram_enabled_writes (w enabled : Z) :
  set_core_uncore_dram_enabled w enabled
  = replace_all w (core_uncore_dram_enabled_writes enabled).
Proof.
  unfold set_core_uncore_dram_enabled, core_uncore_dram_enabled_writes.
  cbn [replace_all w_data w_first w_last].
  repeat (match goal with
          | |- res_bind ?m _ = res_bind ?m _ => destruct m; cbn [res_bind]
          end; try reflexivity).
Qed.

Lemma write_ok_const (v first last : Z) :
  0 <= first -> first <= last -> last < 64 -> last - first < 63 ->
  write_ok (mk_write v first last).
Proof. intros. repeat split; cbn; lia. Qed.

Lemma power_write_ok (st : raplcap_msr) (l : raplcap_limit) (first last : Z)
    (ws : list field_write) :
  0 <= first -> first <= last -> last < 64 -> last - first < 63 ->
  power_write st l first last = Ok ws ->
  Forall write_ok ws /\
  forall i, covers ws i = true -> in_field first last i = true.
Proof.
  intros H0 H1 H2 H3. unfold power_write.
  destruct (Qpositive (watts l)).
  - intros H. apply bind_ok in H as (r & _ & [= <-]). split.
    + repeat constructor; cbn; lia.
    + cbn. intros i. now rewrite orb_false_r.
  - intros [= <-]. split; [constructor | discriminate].
Qed.

Lemma window_write_ok (w : Z) (st : raplcap_msr) (l : raplcap_limit)
    (z0 z1 first last : Z) (ws : list field_write) :
  0 <= first -> first <= last -> last < 64 -> last - first < 63 ->
  window_write w st l z0 z1 first last = Ok ws ->
  Forall write_ok ws /\
  forall i, covers ws i = true -> in_field first last i = true.
Proof.
  intros H0 H1 H2 H3. unfold window_write.
  destruct (Qpositive (seconds l)).
  - intros H. apply bind_ok in H as (z & _ & H).
    apply bind_ok in H as (y & _ & [= <-]). split.
    + repeat constructor; cbn; lia.
    + cbn. intros i. now rewrite orb_false_r.
  - intros [= <-]. split; [constructor | discriminate].
Qed.

Lemma window_write_F_ok (w : Z) (l : raplcap_limit) (ws : list field_write) :
  window_write_F w l = Ok ws ->
  Forall write_ok ws /\
  forall i, covers ws i = true -> in_field 17 21 i = true.
Proof.
  unfold window_write_F.
  destruct (Qpositive (seconds l)).
  - intros H. apply bind_ok in H as (z & _ & H).
    apply bind_ok in H as (f & _ & H).
    apply bind_ok in H as (y & _ & [= <-]). split.
    + repeat constructor; cbn; lia.
    + cbn. intros i. now rewrite orb_false_r.
  - intros [= <-]. split; [constructor | discriminate].
Qed.

Lemma covers_app (ws1 ws2 : list field_write) (i : Z) :
  covers (ws1 ++ ws2) i = covers ws1 i || covers ws2 i.
Proof. apply existsb_app. Qed.

(** The writes of the encoders are to the power and exponent fields. *)
Lemma pkg_platform_writes_ok (w : Z) (st : raplcap_msr)
    (ll ls : option raplcap_limit) (ws : list field_write) :
  pkg_platform_writes w st ll ls = Ok ws ->
  Forall write_ok ws /\
  forall i, covers ws i = true -> limit_field i = true.
Proof.
  unfold pkg_platform_writes. intros H.
  apply bind_ok in H as (a & Ha & H). apply bind_ok in H as (b & Hb & [= <-]).
  assert (A : Forall write_ok a /\
              forall i, covers a i = true ->
                in_field 0 14 i || in_field 17 21 i = true).
  { destruct ll as [l|]; [|injection Ha as <-; split; [constructor|discriminate]].
    apply bind_ok in Ha as (p & Hp & Ha). apply bind_ok in Ha as (t & Ht & [= <-]).
    apply power_write_ok in Hp as [P1 P2]; try lia.
    apply window_write_ok in Ht as [T1 T2]; try lia.
    split; [now apply Forall_app|]. intros i. rewrite covers_app.
    intros C. apply orb_prop in C as [C|C];
      [apply P2 in C | apply T2 in C]; rewrite C; auto using orb_true_r. }
  assert (B : Forall write_ok b /\
              forall i, covers b i = true ->
                in_field 32 46 i || in_field 49 53 i = true).
  { destruct ls as [l|]; [|injection Hb as <-; split; [constructor|discriminate]].
    apply bind_ok in Hb as (p & Hp & Hb). apply bind_ok in Hb as (t & Ht & [= <-]).
    apply power_write_ok in Hp as [P1 P2]; try lia.
    apply window_write_ok in Ht as [T1 T2]; try lia.
    split; [now apply Forall_app|]. intros i. rewrite covers_app.
    intros C. apply orb_prop in C as [C|C];
      [apply P2 in C | apply T2 in C]; rewrite C; auto using orb_true_r. }
  destruct A as [A1 A2], B as [B1 B2].
  split; [now apply Forall_app|]. intros i. rewrite covers_app.
  unfold limit_field. intros C. apply orb_prop in C as [C|C].
  - apply A2 in C. rewrite C. reflexivity.
  - apply B2 in C. rewrite <- !orb_assoc. rewrite C. now rewrite !orb_true_r.
Qed.

Lemma core_uncore_dram_writes_ok (w : Z) (st : raplcap_msr)
    (ll : option raplcap_limit) (ws : list field_write) :
  core_uncore_dram_writes w st ll = Ok ws ->
  Forall write_ok ws /\
  forall i, covers ws i = true -> limit_field i = true.
Proof.
  unfold core_uncore_dram_writes. intros H.
  destruct ll as [l|]; [|injection H as <-; split; [constructor|discriminate]].
  apply bind_ok in H as (p & Hp & H). apply bind_ok in H as (t & Ht & [= <-]).
  apply power_write_ok in Hp as [P1 P2]; try lia.
  apply window_write_F_ok in Ht as [T1 T2].
  split; [now apply Forall_app|]. intros i. rewrite covers_app.
  unfold limit_field. intros C. apply orb_prop in C as [C|C];
    [apply P2 in C | apply T2 in C]; rewrite C; now rewrite ?orb_true_r.
Qed.

(** Writes that stay off a field leave its value. *)
Lemma replace_all_keeps_field (ws : list field_write) (w w1 a b : Z) :
  U64.in_range w -> Forall write_ok ws ->
  replace_all w ws = Ok w1 ->
  0 <= a -> a <= b -> b < 64 ->
  (forall i, a <= i <= b -> covers ws i = false) ->
  get_bits w1 a b = get_bits w a b.
Proof.
  intros Hw Hok E Ha Hab Hb Hc.
  destruct (replace_all_bits ws w Hw Hok) as (w1' & E' & _ & B).
  rewrite E' in E. injection E as ->.
  apply get_bits_ext; try lia. intros i Hi. rewrite B.
  destruct (overlay_cases ws i) as [(_ & H) | (C & _)]; [apply H|].
  rewrite Hc in C by lia. discriminate.
Qed.

Lemma limit_field_off (i : Z) :
  22 <= i <= 23 \/ 54 <= i <= 55 \/ In i [15; 16; 47; 48] ->
  limit_field i = false.
Proof.
  intros H. unfold limit_field.
  rewrite !in_field_out; [reflexivity|..]; cbn in H; lia.
Qed.

Lemma not_covered (ws : list field_write) (P : Z -> bool) (i : Z) :
  (forall i, covers ws i = true -> P i = true) -> P i = false ->
  covers ws i = false.
Proof.
  intros H E. destruct (covers ws i) eqn:C; [|reflexivity].
  apply H in C. congruence.
Qed.

(** The writes depend on the word through its fraction fields only. *)
Lemma pkg_platform_writes_ext (w w' : Z) (st : raplcap_msr)
    (ll ls : option raplcap_limit) :
  get_bits w' 22 23 = get_bits w 22 23 ->
  get_bits w' 54 55 = get_bits w 54 55 ->
  pkg_platform_writes w' st ll ls = pkg_platform_writes w st ll ls.
Proof.
  intros E1 E2. unfold pkg_platform_writes, window_write. now rewrite E1, E2.
Qed.

Lemma core_uncore_dram_writes_ext (w w' : Z) (st : raplcap_msr)
    (ll : option raplcap_limit) :
  get_bits w' 22 23 = get_bits w 22 23 ->
  core_uncore_dram_writes w' st ll = core_uncore_dram_writes w st ll.
Proof.
  intros E1. unfold core_uncore_dram_writes, window_write_F. now rewrite E1.
Qed.

Lemma set_pkg_platform_twice (w w1 : Z) (st : raplcap_msr)
    (ll ls : option raplcap_limit) :
  U64.in_range w ->
  set_pkg_platform w st ll ls = Ok w1 ->
  U64.in_range w1 /\ set_pkg_platform w1 st ll ls = Ok w1.
Proof.
  intros Hw H. rewrite set_pkg_platform_writes in H.
  apply bind_ok in H as (ws & Hws & E).
  destruct (pkg_platform_writes_ok _ _ _ _ _ Hws) as [Hok Hcov].
  destruct (replace_all_bits ws w Hw Hok) as (w1' & E' & Hw1 & _).
  rewrite E' in E. injection E as ->. split; [assumption|].
  rewrite set_pkg_platform_writes.
  rewrite (pkg_platform_writes_ext w w1), Hws.
  - cbn [res_bind]. now apply (replace_all_twice ws w).
  - apply (replace_all_keeps_field ws); try assumption; try lia.
    intros i Hi. apply (not_covered ws limit_field); [assumption|].
    apply limit_field_off. lia.
  - apply (replace_all_keeps_field ws); try assumption; try lia.
    intros i Hi. apply (not_covered ws limit_field); [assumption|].
    apply limit_field_off. lia.
Qed.

Lemma set_core_uncore_dram_twice (w w1 : Z) (st : raplcap_msr)
    (ll : option raplcap_limit) :
  U64.in_range w ->
  set_core_uncore_dram w st ll = Ok w1 ->
  U64.in_range w1 /\ set_core_uncore_dram w1 st ll = Ok w1.
Proof.
  intros Hw H. rewrite set_core_uncore_dram_writes in H.
  apply bind_ok in H as (ws & Hws & E).
  destruct (core_uncore_dram_writes_ok _ _ _ _ Hws) as [Hok Hcov].
  destruct (replace_all_bits ws w Hw Hok) as (w1' & E' & Hw1 & _).
  rewrite E' in E. injection E as ->. split; [assumption|].
  rewrite set_core_uncore_dram_writes.
  rewrite (core_uncore_dram_writes_ext w w1), Hws.
  - cbn [res_bind]. now apply (replace_all_twice ws w).
  - apply (replace_all_keeps_field ws); try assumption; try lia.
    intros i Hi. apply (not_covered ws limit_field); [assumption|].
    apply limit_field_off. lia.
Qed.

Lemma in_field_point (k i : Z) : in_field k k i = true -> i = k.
Proof.
  unfold in_field. intros H. apply andb_prop in H as [A B].
  apply Z.leb_le in A, B. lia.
Qed.

Lemma pkg_platform_enabled_writes_ok (enabled : Z) :
  Forall write_ok (pkg_platform_enabled_writes enabled) /\
  forall i, covers (pkg_platform_enabled_writes enabled) i = true ->
    In i [15; 16; 47; 48].
Proof.
  split; [repeat constructor; cbn; lia|].
  intros i. cbn. rewrite orb_false_r. intros H.
  repeat (apply orb_prop in H as [H|H]; [apply in_field_point in H; auto|]).
  apply in_field_point in H. auto.
Qed.

Lemma core_uncore_dram_enabled_writes_ok (enabled : Z) :
  Forall write_ok (core_uncore_dram_enabled_writes enabled) /\
  forall i, covers (core_uncore_dram_enabled_writes enabled) i = true ->
    In i [15; 16; 47; 48].
Proof.
  split; [repeat constructor; cbn; lia|].
  intros i. cbn. rewrite orb_false_r. intros H.
  repeat (apply orb_prop in H as [H|H]; [apply in_field_point in H; auto|]).
  apply in_field_point in H. auto.
Qed.

(** Limit writes and enable writes do not meet. *)
Lemma limit_enable_apart (ws es : list field_write) :
  (forall i, covers ws i = true -> limit_field i = true) ->
  (forall i, covers es i = true -> In i [15; 16; 47; 48]) ->
  (forall i, covers ws i = true -> covers es i = false) /\
  (forall i, covers es i = true -> covers ws i = false) /\
  (forall i, 22 <= i <= 23 \/ 54 <= i <= 55 -> covers es i = false).
Proof.
  intros Hl He. repeat split; intros i H.
  - destruct (covers es i) eqn:C; [|reflexivity].
    apply Hl in H. apply He in C. rewrite limit_field_off in H by auto.
    discriminate.
  - destruct (covers ws i) eqn:C; [|reflexivity].
    apply Hl in C. apply He in H. rewrite limit_field_off in C by auto.
    discriminate.
  - destruct (covers es i) eqn:C; [|reflexivity].
    apply He in C. cbn in C. lia.
Qed.

(** An encoder that is a sequence of limit writes computed from the
    fraction fields, and a sequence of enable writes, in either order. *)
Lemma writes_commute (w : Z) (writes : Z -> res (list field_write))
    (es : list field_write) :
  U64.in_range w ->
  (forall w ws, writes w = Ok ws ->
     Forall write_ok ws /\ forall i, covers ws i = true -> limit_field i = true) ->
  (forall w w', get_bits w' 22 23 = get_bits w 22 23 ->
     get_bits w' 54 55 = get_bits w 54 55 -> writes w' = writes w) ->
  Forall write_ok es ->
  (forall i, covers es i = true -> In i [15; 16; 47; 48]) ->
  (forall w1 w2,
     (do ws <- writes w; replace_all w ws) = Ok w1 ->
     replace_all w1 es = Ok w2 ->
     exists w3, replace_all w es = Ok w3 /\ U64.in_range w3 /\
       (do ws <- writes w3; replace_all w3 ws) = Ok w2) /\
  (forall w3 w2,
     replace_all w es = Ok w3 ->
     (do ws <- writes w3; replace_all w3 ws) = Ok w2 ->
     exists w1, (do ws <- writes w; replace_all w ws) = Ok w1 /\
       U64.in_range w1 /\ replace_all w1 es = Ok w2).
Proof.
  intros Hw Hwr Hext Hes Hcov.
  assert (Hfrac : forall w3, replace_all w es = Ok w3 -> writes w3 = writes w).
  { intros w3 E3. apply Hext.
    - apply (replace_all_keeps_field es w); try assumption; try lia.
      intros i Hi. destruct (covers es i) eqn:C; [|reflexivity].
      apply Hcov in C. cbn in C. lia.
    - apply (replace_all_keeps_field es w); try assumption; try lia.
      intros i Hi. destruct (covers es i) eqn:C; [|reflexivity].
      apply Hcov in C. cbn in C. lia. }
  split.
  - intros w1 w2 H1 H2. apply bind_ok in H1 as (ws & Hws & E1).
    destruct (Hwr _ _ Hws) as [Hok Hl].
    destruct (limit_enable_apart ws es Hl Hcov) as (D1 & _ & _).
    destruct (replace_all_comm ws es w w1 w2 Hw Hok Hes D1 E1 H2)
      as (w3 & E3 & Hw3 & E4).
    exists w3. split; [assumption|]. split; [assumption|].
    rewrite (Hfrac w3 E3), Hws. exact E4.
  - intros w3 w2 E3 H2. rewrite (Hfrac w3 E3) in H2.
    apply bind_ok in H2 as (ws & Hws & E4).
    destruct (Hwr _ _ Hws) as [Hok Hl].
    destruct (limit_enable_apart ws es Hl Hcov) as (_ & D2 & _).
    destruct (replace_all_comm es ws w w3 w2 Hw Hes Hok D2 E3 E4)
      as (w1 & E1 & Hw1 & E2).
    exists w1. rewrite Hws. cbn [res_bind].
    split; [assumption | split; assumption].
Qed.

(** ** Session calls as updates of a register word *)

Lemma set_limits_register dev socket rc zone st fd w ll ls :
  zone_register dev socket rc zone st fd w -> zone <> RAPLCAP_ZONE_OTHER ->
  raplcap_set_limits dev socket rc zone ll ls
  = do w' <- zone_limits_word zone w st ll ls;
    Ok (dev_store dev fd (zone_to_msr_offset zone) w', inl 0).
Proof.
  intros Hreg Hz. destruct (zone_classes zone Hz) as [P | P].
  - rewrite (set_limits_pkg_platform _ _ _ _ _ _ _ ll ls Hreg P).
    destruct P as [-> | ->]; reflexivity.
  - rewrite (set_limits_core_uncore_dram _ _ _ _ _ _ _ ll ls Hreg P).
    destruct P as [-> | [-> | ->]]; reflexivity.
Qed.

Lemma set_zone_enabled_register dev socket rc zone st fd w v :
  zone_register dev socket rc zone st fd w -> zone <> RAPLCAP_ZONE_OTHER ->
  raplcap_set_zone_enabled dev socket rc zone v
  = do w' <- zone_enabled_word zone w v;
    Ok (dev_store dev fd (zone_to_msr_offset zone) w', inl 0).
Proof.
  intros Hreg Hz.
  destruct (set_zone_enabled_on_register dev socket rc zone st fd w v Hreg Hz)
    as (w' & E & _ & Ea & Eb).
  rewrite E. destruct (zone_classes zone Hz) as [P | P].
  - specialize (Ea P). destruct P as [-> | ->]; cbn; now rewrite Ea.
  - specialize (Eb P). destruct P as [-> | [-> | ->]]; cbn; now rewrite Eb.
Qed.

Lemma write_succeeds_on_zone dev socket rc zone st fd w :
  zone_register dev socket rc zone st fd w ->
  (forall ll ls dev1,
     raplcap_set_limits dev socket rc zone ll ls = Ok (dev1, inl 0) ->
     zone <> RAPLCAP_ZONE_OTHER) /\
  (forall v dev1,
     raplcap_set_zone_enabled dev socket rc zone v = Ok (dev1, inl 0) ->
     zone <> RAPLCAP_ZONE_OTHER).
Proof.
  intros (Hst & Hfd & _ & _).
  split; intros; intros ->;
    unfold raplcap_set_limits, raplcap_set_zone_enabled in *;
    rewrite Hst, Hfd in *; cbn in *; discriminate.
Qed.

Lemma dev_store_twice (dev : msr_dev) (fd off w w' : Z) :
  same_words (dev_store dev fd off w')
    (dev_store (dev_store dev fd off w) fd off w').
Proof.
  intros fd' off'. unfold dev_store.
  now destruct ((fd' =? fd) && (off' =? off)).
Qed.

Lemma zone_limits_word_twice (zone : raplcap_zone) (w w1 : Z)
    (st : raplcap_msr) (ll ls : option raplcap_limit) :
  U64.in_range w ->
  zone_limits_word zone w st ll ls = Ok w1 ->
  U64.in_range w1 /\ zone_limits_word zone w1 st ll ls = Ok w1.
Proof.
  intros Hw. destruct zone; cbn [zone_limits_word];
    try apply set_pkg_platform_twice; try apply set_core_uncore_dram_twice;
    try assumption.
  intros [= <-]. now split.
Qed.

(** X6. Setting the same limits a second time changes nothing: the
    encoders return the word of the first call, and the device after the
    second call of [raplcap_set_limits] holds the words it held after the
    first. *)
Theorem set_limits_idempotent (w : Z) (st : raplcap_msr)
    (limit_long limit_short : option raplcap_limit) :
  U64.in_range w ->
  (forall w1, set_pkg_platform w st limit_long limit_short = Ok w1 ->
     set_pkg_platform w1 st limit_long limit_short = Ok w1) /\
  (forall w1, set_core_uncore_dram w st limit_long = Ok w1 ->
     set_core_uncore_dram w1 st limit_long = Ok w1) /\
  (forall dev socket rc zone fd dev1,
     zone_register dev socket rc zone st fd w ->
     raplcap_set_limits dev socket rc zone limit_long limit_short
     = Ok (dev1, inl 0) ->
     exists dev2,
       raplcap_set_limits dev1 socket rc zone limit_long limit_short
       = Ok (dev2, inl 0) /\
       same_words dev1 dev2).
Proof.
  intros Hw. split; [|split].
  - intros w1 H. now apply (set_pkg_platform_twice w).
  - intros w1 H. now apply (set_core_uncore_dram_twice w).
  - intros dev socket rc zone fd dev1 Hreg H.
    pose proof (proj1 (write_succeeds_on_zone _ _ _ _ _ _ _ Hreg) _ _ _ H) as Hz.
    rewrite (set_limits_register _ _ _ _ _ _ _ _ _ Hreg Hz) in H.
    apply bind_ok in H as (w1 & E & [= <-]).
    destruct (zone_limits_word_twice zone w w1 st _ _ Hw E) as [Hw1 E1].
    pose proof (zone_register_store _ _ _ _ _ _ _ w1 Hreg Hw1) as Hreg1.
    rewrite (set_limits_register _ _ _ _ _ _ _ _ _ Hreg1 Hz), E1.
    cbn [res_bind]. eexists. split; [reflexivity|].
    intros fd' off'. unfold dev_store.
    now destruct ((fd' =? fd) && (off' =? zone_to_msr_offset zone)).
Qed.

Lemma set_limits_idempotent_witness :
  U64.in_range 0x00DD8000005F8000 /\
  exists w1,
    set_pkg_platform 0x00DD8000005F8000
      (mk_msr (Some [3]) (pow_half 3) (pow_half 10))
      (Some (mk_limit 1 100)) (Some (mk_limit (1 # 100) 120)) = Ok w1 /\
    set_pkg_platform w1 (mk_msr (Some [3]) (pow_half 3) (pow_half 10))
      (Some (mk_limit 1 100)) (Some (mk_limit (1 # 100) 120)) = Ok w1.
Proof.
  assert (Hw : U64.in_range 0x00DD8000005F8000)
    by (unfold U64.in_range, U64.modulus; lia).
  split; [exact Hw|].
  eexists. split; [vm_compute; reflexivity|].
  destruct (set_limits_idempotent 0x00DD8000005F8000
              (mk_msr (Some [3]) (pow_half 3) (pow_half 10))
              (Some (mk_limit 1 100)) (Some (mk_limit (1 # 100) 120)) Hw)
    as (F & _).
  apply F. vm_compute. reflexivity.
Defined.

(** ** Enabling a zone and setting its limits, in either order *)

Lemma limits_then_enabled_word (zone : raplcap_zone) (w : Z)
    (st : raplcap_msr) (ll ls : option raplcap_limit) (enabled : Z) :
  U64.in_range w ->
  (forall w1 w2,
     zone_limits_word zone w st ll ls = Ok w1 ->
     zone_enabled_word zone w1 enabled = Ok w2 ->
     exists w3, zone_enabled_word zone w enabled = Ok w3 /\ U64.in_range w3 /\
       zone_limits_word zone w3 st ll ls = Ok w2) /\
  (forall w3 w2,
     zone_enabled_word zone w enabled = Ok w3 ->
     zone_limits_word zone w3 st ll ls = Ok w2 ->
     exists w1, zone_limits_word zone w st ll ls = Ok w1 /\ U64.in_range w1 /\
       zone_enabled_word zone w1 enabled = Ok w2).
Proof.
  intros Hw.
  pose proof (writes_commute w (fun w => pkg_platform_writes w st ll ls)
                (pkg_platform_enabled_writes enabled) Hw
                (fun w ws => pkg_platform_writes_ok w st ll ls ws)
                (fun w w' => pkg_platform_writes_ext w w' st ll ls)
                (proj1 (pkg_platform_enabled_writes_ok enabled))
                (proj2 (pkg_platform_enabled_writes_ok enabled))) as P.
  pose proof (writes_commute w (fun w => core_uncore_dram_writes w st ll)
                (core_uncore_dram_enabled_writes enabled) Hw
                (fun w ws => core_uncore_dram_writes_ok w st ll ws)
                (fun w w' E _ => core_uncore_dram_writes_ext w w' st ll E)
                (proj1 (core_uncore_dram_enabled_writes_ok enabled))
                (proj2 (core_uncore_dram_enabled_writes_ok enabled))) as Q.
  cbv beta in P, Q.
  destruct zone; cbn [zone_limits_word zone_enabled_word];
    try (split; intros a b H1 H2;
         [rewrite set_pkg_platform_writes in H1;
          rewrite set_pkg_platform_enabled_writes in H2;
          destruct (proj1 P a b H1 H2) as (c & E1 & Hc & E2)
         |rewrite set_pkg_platform_enabled_writes in H1;
          rewrite set_pkg_platform_writes in H2;
          destruct (proj2 P a b H1 H2) as (c & E1 & Hc & E2)];
         exists c;
         rewrite set_pkg_platform_writes, set_pkg_platform_enabled_writes;
         (split; [exact E1 | split; [exact Hc | exact E2]]));
    try (split; intros a b H1 H2;
         [rewrite set_core_uncore_dram_writes in H1;
          rewrite set_core_uncore_dram_enabled_writes in H2;
          destruct (proj1 Q a b H1 H2) as (c & E1 & Hc & E2)
         |rewrite set_core_uncore_dram_enabled_writes in H1;
          rewrite set_core_uncore_dram_writes in H2;
          destruct (proj2 Q a b H1 H2) as (c & E1 & Hc & E2)];
         exists c;
         rewrite set_core_uncore_dram_writes,
           set_core_uncore_dram_enabled_writes;
         (split; [exact E1 | split; [exact Hc | exact E2]])).
  split; intros a b H1 H2;
    assert (a = w) by congruence; assert (b = w) by congruence; subst;
    exists w; (split; [reflexivity | split; [exact Hw | reflexivity]]).
Qed.

Lemma dev_store_over (dev : msr_dev) (fd off a b c : Z) :
  same_words (dev_store (dev_store dev fd off a) fd off c)
    (dev_store (dev_store dev fd off b) fd off c).
Proof.
  intros fd' off'. unfold dev_store.
  now destruct ((fd' =? fd) && (off' =? off)).
Qed.

(** X7. Setting the limits of a zone and enabling or disabling it can be
    done in either order: when one order has a result so has the other, and
    the register word, and the words of the device after the two calls on a
    session, are the same. *)
Theorem enable_and_limits_commute (w : Z) (st : raplcap_msr)
    (limit_long limit_short : option raplcap_limit) (enabled : Z) :
  U64.in_range w ->
  (forall w1 w2,
     set_pkg_platform w st limit_long limit_short = Ok w1 ->
     set_pkg_platform_enabled w1 enabled = Ok w2 ->
     exists w3, set_pkg_platform_enabled w enabled = Ok w3 /\
       set_pkg_platform w3 st limit_long limit_short = Ok w2) /\
  (forall w3 w2,
     set_pkg_platform_enabled w enabled = Ok w3 ->
     set_pkg_platform w3 st limit_long limit_short = Ok w2 ->
     exists w1, set_pkg_platform w st limit_long limit_short = Ok w1 /\
       set_pkg_platform_enabled w1 enabled = Ok w2) /\
  (forall w1 w2,
     set_core_uncore_dram w st limit_long = Ok w1 ->
     set_core_uncore_dram_enabled w1 enabled = Ok w2 ->
     exists w3, set_core_uncore_dram_enabled w enabled = Ok w3 /\
       set_core_uncore_dram w3 st limit_long = Ok w2) /\
  (forall w3 w2,
     set_core_uncore_dram_enabled w enabled = Ok w3 ->
     set_core_uncore_dram w3 st limit_long = Ok w2 ->
     exists w1, set_core_uncore_dram w st limit_long = Ok w1 /\
       set_core_uncore_dram_enabled w1 enabled = Ok w2) /\
  (forall dev socket rc zone fd dev1 dev2,
     zone_register dev socket rc zone st fd w ->
     raplcap_set_limits dev socket rc zone limit_long limit_short
     = Ok (dev1, inl 0) ->
     raplcap_set_zone_enabled dev1 socket rc zone enabled = Ok (dev2, inl 0) ->
     exists dev1' dev2',
       raplcap_set_zone_enabled dev socket rc zone enabled = Ok (dev1', inl 0) /\
       raplcap_set_limits dev1' socket rc zone limit_long limit_short
       = Ok (dev2', inl 0) /\
       same_words dev2 dev2') /\
  (forall dev socket rc zone fd dev1 dev2,
     zone_register dev socket rc zone st fd w ->
     raplcap_set_zone_enabled dev socket rc zone enabled = Ok (dev1, inl 0) ->
     raplcap_set_limits dev1 socket rc zone limit_long limit_short
     = Ok (dev2, inl 0) ->
     exists dev1' dev2',
       raplcap_set_limits dev socket rc zone limit_long limit_short
       = Ok (dev1', inl 0) /\
       raplcap_set_zone_enabled dev1' socket rc zone enabled = Ok (dev2', inl 0) /\
       same_words dev2 dev2').
Proof.
  intros Hw.
  pose proof (limits_then_enabled_word RAPLCAP_ZONE_PACKAGE w st
                limit_long limit_short enabled Hw) as [P1 P2].
  pose proof (limits_then_enabled_word RAPLCAP_ZONE_CORE w st
                limit_long limit_short enabled Hw) as [Q1 Q2].
  cbn [zone_limits_word zone_enabled_word] in P1, P2, Q1, Q2.
  split; [|split; [|split; [|split; [|split]]]].
  - intros w1 w2 H1 H2. destruct (P1 w1 w2 H1 H2) as (w3 & A & _ & B). eauto.
  - intros w3 w2 H1 H2. destruct (P2 w3 w2 H1 H2) as (w1 & A & _ & B). eauto.
  - intros w1 w2 H1 H2. destruct (Q1 w1 w2 H1 H2) as (w3 & A & _ & B). eauto.
  - intros w3 w2 H1 H2. destruct (Q2 w3 w2 H1 H2) as (w1 & A & _ & B). eauto.
  - intros dev socket rc zone fd dev1 dev2 Hreg H1 H2.
    pose proof (proj1 (write_succeeds_on_zone _ _ _ _ _ _ _ Hreg) _ _ _ H1) as Hz.
    rewrite (set_limits_register _ _ _ _ _ _ _ _ _ Hreg Hz) in H1.
    apply bind_ok in H1 as (w1 & E1 & [= <-]).
    assert (Hw1 : U64.in_range w1)
      by (eapply zone_limits_word_twice; eassumption).
    pose proof (zone_register_store _ _ _ _ _ _ _ w1 Hreg Hw1) as Hreg1.
    rewrite (set_zone_enabled_register _ _ _ _ _ _ _ _ Hreg1 Hz) in H2.
    apply bind_ok in H2 as (w2 & E2 & [= <-]).
    destruct (proj1 (limits_then_enabled_word zone w st limit_long limit_short
                       enabled Hw) w1 w2 E1 E2) as (w3 & E3 & Hw3 & E4).
    pose proof (zone_register_store _ _ _ _ _ _ _ w3 Hreg Hw3) as Hreg3.
    eexists _, _.
    rewrite (set_zone_enabled_register _ _ _ _ _ _ _ _ Hreg Hz), E3.
    cbn [res_bind]. split; [reflexivity|].
    rewrite (set_limits_register _ _ _ _ _ _ _ _ _ Hreg3 Hz), E4.
    cbn [res_bind]. split; [reflexivity|]. apply dev_store_over.
  - intros dev socket rc zone fd dev1 dev2 Hreg H1 H2.
    pose proof (proj2 (write_succeeds_on_zone _ _ _ _ _ _ _ Hreg) _ _ H1) as Hz.
    rewrite (set_zone_enabled_register _ _ _ _ _ _ _ _ Hreg Hz) in H1.
    apply bind_ok in H1 as (w3 & E3 & [= <-]).
    destruct (set_zone_enabled_on_register dev socket rc zone st fd w enabled
                Hreg Hz) as (w3' & _ & Hw3 & Ea & Eb).
    assert (w3' = w3) as ->.
    { destruct (zone_classes zone Hz) as [C | C].
      - specialize (Ea C). destruct C as [-> | ->]; cbn in E3; congruence.
      - specialize (Eb C). destruct C as [-> | [-> | ->]]; cbn in E3; congruence. }
    pose proof (zone_register_store _ _ _ _ _ _ _ w3 Hreg Hw3) as Hreg3.
    rewrite (set_limits_register _ _ _ _ _ _ _ _ _ Hreg3 Hz) in H2.
    apply bind_ok in H2 as (w2 & E4 & [= <-]).
    destruct (proj2 (limits_then_enabled_word zone w st limit_long limit_short
                       enabled Hw) w3 w2 E3 E4) as (w1 & E1 & Hw1 & E2).
    pose proof (zone_register_store _ _ _ _ _ _ _ w1 Hreg Hw1) as Hreg1.
    eexists _, _.
    rewrite (set_limits_register _ _ _ _ _ _ _ _ _ Hreg Hz), E1.
    cbn [res_bind]. split; [reflexivity|].
    rewrite (set_zone_enabled_register _ _ _ _ _ _ _ _ Hreg1 Hz), E2.
    cbn [res_bind]. split; [reflexivity|]. apply dev_store_over.
Qed.

Lemma enable_and_limits_commute_witness :
  U64.in_range 0x00DD8000005F8000 /\
  exists w1 w2 w3,
    set_pkg_platform 0x00DD8000005F8000
      (mk_msr (Some [3]) (pow_half 3) (pow_half 10))
      (Some (mk_limit 1 100)) None = Ok w1 /\
    set_pkg_platform_enabled w1 0 = Ok w2 /\
    set_pkg_platform_enabled 0x00DD8000005F8000 0 = Ok w3 /\
    set_pkg_platform w3 (mk_msr (Some [3]) (pow_half 3) (pow_half 10))
      (Some (mk_limit 1 100)) None = Ok w2.
Proof.
  assert (Hw : U64.in_range 0x00DD8000005F8000)
    by (unfold U64.in_range, U64.modulus; lia).
  split; [exact Hw|].
  destruct (enable_and_limits_commute 0x00DD8000005F8000
              (mk_msr (Some [3]) (pow_half 3) (pow_half 10))
              (Some (mk_limit 1 100)) None 0 Hw) as (F & _).
  eexists _, _.
  assert (E1 : set_pkg_platform 0x00DD8000005F8000
                 (mk_msr (Some [3]) (pow_half 3) (pow_half 10))
                 (Some (mk_limit 1 100)) None = Ok 62346707346883360)
    by (vm_compute; reflexivity).
  assert (E2 : set_pkg_platform_enabled 62346707346883360 0
               = Ok 61924494881719072) by (vm_compute; reflexivity).
  destruct (F _ _ E1 E2) as (w3 & A & B).
  exists w3. repeat split; eassumption.
Defined.

(** ** Power requests beyond the field *)

(** [replace_bits] takes from the data the bits that fit the field. *)
Lemma replace_bits_data_mod (w v v' first last : Z) :
  0 <= first -> first <= last -> last < 64 -> last - first < 63 ->
  v mod 2 ^ (last - first + 1) = v' mod 2 ^ (last - first + 1) ->
  replace_bits w v first last = replace_bits w v' first last.
Proof.
  intros H0 H1 H2 H3 Hv.
  destruct (replace_bits_ok w v first last) as (a & Ea & Ba); try lia.
  destruct (replace_bits_ok w v' first last) as (b & Eb & Bb); try lia.
  rewrite Ea, Eb. f_equal. apply Z.bits_inj'. intros i Hi.
  rewrite Ba, Bb by assumption.
  destruct ((first <=? i) && (i <=? last)) eqn:C; [|reflexivity].
  apply andb_prop in C as [C1 C2]. apply Z.leb_le in C1, C2.
  rewrite <- (Z.mod_pow2_bits_low v (last - first + 1)) by lia.
  rewrite <- (Z.mod_pow2_bits_low v' (last - first + 1)) by lia.
  now rewrite Hv.
Qed.

(** X8. The raw count of a power request is cut to the 15 bits of the
    field: two requests whose raw counts agree modulo 2^15 are encoded to
    the same register word, as a long-term or short-term package or
    platform limit and as a core, uncore or DRAM limit. *)
Theorem power_count_wraps (w : Z) (st : raplcap_msr) (T W W' : Q) (r r' : Z) :
  Qpositive W = true -> Qpositive W' = true ->
  u64_of_double (W / power_units st) = Ok r ->
  u64_of_double (W' / power_units st) = Ok r' ->
  r mod 2 ^ 15 = r' mod 2 ^ 15 ->
  (forall limit_short,
     set_pkg_platform w st (Some (mk_limit T W)) limit_short
     = set_pkg_platform w st (Some (mk_limit T W')) limit_short) /\
  (forall limit_long,
     set_pkg_platform w st limit_long (Some (mk_limit T W))
     = set_pkg_platform w st limit_long (Some (mk_limit T W'))) /\
  set_core_uncore_dram w st (Some (mk_limit T W))
  = set_core_uncore_dram w st (Some (mk_limit T W')).
Proof.
  intros HW HW' Hr Hr' Hmod.
  assert (R : forall x first last, 0 <= first -> first <= last -> last < 64 ->
              last - first = 14 ->
              replace_bits x r first last = replace_bits x r' first last).
  { intros x first last H0 H1 H2 H3. apply replace_bits_data_mod; try lia.
    now replace (last - first + 1) with 15 by lia. }
  unfold set_pkg_platform, set_core_uncore_dram.
  cbn [watts seconds]. rewrite HW, HW', Hr, Hr'. cbn [res_bind].
  split; [|split].
  - intros ls. now rewrite R by lia.
  - intros ll.
    match goal with
    | |- res_bind ?m _ = res_bind ?m _ => destruct m as [x|]; [|reflexivity]
    end.
    cbn [res_bind]. now rewrite R by lia.
  - now rewrite R by lia.
Qed.

Lemma power_count_wraps_witness :
  set_pkg_platform 0 (mk_msr (Some [3]) (pow_half 3) (pow_half 10))
    (Some (mk_limit 1 5000)) None
  = set_pkg_platform 0 (mk_msr (Some [3]) (pow_half 3) (pow_half 10))
      (Some (mk_limit 1 904)) None.
Proof.
  destruct (power_count_wraps 0 (mk_msr (Some [3]) (pow_half 3) (pow_half 10))
              1 5000 904 40000 7232) as (F & _).
  - reflexivity.
  - reflexivity.
  - vm_compute. reflexivity.
  - vm_compute. reflexivity.
  - reflexivity.
  - apply F.
Defined.

(** ** The range of the limits a register can hold *)







(** ** The window of a core, uncore or DRAM limit *)




(** ** Opening the register files *)

Lemma open_msr_ge (open_rdwr : msr_file -> Z) (core : Z) :
  -1 <= open_msr open_rdwr core /\
  (open_msr open_rdwr core <? 0) = (open_msr open_rdwr core =? -1).
Proof.
  unfold open_msr.
  destruct (open_rdwr (dev_cpu_msr_safe core) <? 0) eqn:E1.
  - destruct (open_rdwr (dev_cpu_msr core) <? 0) eqn:E2.
    + split; [lia | reflexivity].
    + apply Z.ltb_ge in E2. split; [lia|].
      rewrite (proj2 (Z.ltb_ge _ _)) by lia. symmetry. apply Z.eqb_neq. lia.
  - rewrite E1. apply Z.ltb_ge in E1. split; [lia|].
    rewrite (proj2 (Z.ltb_ge _ _)) by lia. symmetry. apply Z.eqb_neq. lia.
Qed.

Lemma open_each_length (open_rdwr : msr_file -> Z) (coreids : list Z) :
  forall i fds, length (fst (open_each open_rdwr coreids i fds)) = length fds.
Proof.
  induction coreids as [|core more IH]; intros i fds; [reflexivity|].
  cbn [open_each]. destruct (open_msr open_rdwr core <? 0).
  - cbn. apply length_insert.
  - rewrite IH. apply length_insert.
Qed.

(** The loop that opens the files, from index [i] on. *)
Lemma open_each_from (open_rdwr : msr_file -> Z) (coreids : list Z) :
  forall i fds fds' r,
    (i + length coreids <= length fds)%nat ->
    open_each open_rdwr coreids i fds = (fds', r) ->
    (r = inl 0 /\
     fds' = take i fds ++ map (open_msr open_rdwr) coreids
            ++ drop (i + length coreids) fds /\
     Forall (fun fd => 0 <= fd) (map (open_msr open_rdwr) coreids)) \/
    (r = inr EOTHER /\
     exists k core,
       coreids !! k = Some core /\ open_msr open_rdwr core = -1 /\
       fds' = take i fds ++ map (open_msr open_rdwr) (take k coreids)
              ++ [-1] ++ drop (i + S k) fds /\
       Forall (fun fd => 0 <= fd) (map (open_msr open_rdwr) (take k coreids))).
Proof.
  induction coreids as [|core more IH]; intros i fds fds' r Hlen H.
  - cbn in H. injection H as <- <-. left. split; [reflexivity|].
    split; [|constructor]. cbn [map length app].
    now rewrite Nat.add_0_r, take_drop.
  - cbn [open_each] in H. cbn [length] in Hlen.
    destruct (open_msr_ge open_rdwr core) as [Hge Hneg].
    destruct (open_msr open_rdwr core <? 0) eqn:E.
    + injection H as <- <-. right. split; [reflexivity|].
      exists 0%nat, core. symmetry in Hneg. apply Z.eqb_eq in Hneg.
      split; [reflexivity|]. split; [assumption|]. split; [|constructor].
      cbn [take map app]. rewrite Hneg.
      rewrite <- (take_drop i fds) at 1.
      rewrite insert_app_r_alt by (rewrite length_take; lia).
      rewrite length_take, Nat.min_l, Nat.sub_diag by lia.
      destruct (lookup_lt_is_Some_2 fds i ltac:(lia)) as [x Hx].
      rewrite (drop_S fds x i Hx). cbn.
      now replace (i + 1)%nat with (S i) by lia.
    + apply Z.ltb_ge in E.
      apply IH in H; [|rewrite length_insert; lia].
      assert (Htake : take (S i) (<[i:=open_msr open_rdwr core]> fds)
                      = take i fds ++ [open_msr open_rdwr core]).
      { rewrite (take_S_r _ _ (open_msr open_rdwr core)).
        - now rewrite take_insert_ge by lia.
        - apply list_lookup_insert_eq. lia. }
      destruct H as [(-> & -> & Hall) | (-> & k & c & Hk & Hc & -> & Hall)].
      * left. split; [reflexivity|]. split; [|constructor; assumption].
        rewrite Htake, drop_insert_lt by lia. cbn [map app length].
        rewrite <- app_assoc. cbn [app].
        now replace (S i + length more)%nat with (i + S (length more))%nat by lia.
      * right. split; [reflexivity|]. exists (S k), c.
        split; [exact Hk|]. split; [exact Hc|].
        split; [|cbn [take map]; constructor; assumption].
        rewrite Htake, drop_insert_lt by lia. cbn [take map app].
        rewrite <- app_assoc. cbn [app].
        now replace (S i + S k)%nat with (i + S (S k))%nat by lia.
Qed.

Lemma open_msrs_loop_total (sockets : Z) (outputs : list string) :
  forall coreids found,
    length coreids = Z.to_nat sockets -> length found = Z.to_nat sockets ->
    exists r, open_msrs_loop sockets outputs coreids found = Ok r /\
      match r with
      | inl (coreids', found') =>
          length coreids' = Z.to_nat sockets /\ length found' = Z.to_nat sockets
      | inr _ => True
      end.
Proof.
  induction outputs as [|o more IH]; intros coreids found Hc Hf.
  - exists (inl (coreids, found)). now split.
  - cbn [open_msrs_loop].
    destruct (sscanf_u_u o) as [[socket core]|] eqn:Eo;
      [|exists (inr ENOENT); now split].
    destruct (sscanf_u_u_range _ _ _ Eo) as [Hs _].
    destruct (Z.geb_spec socket sockets) as [Hge|Hlt];
      [exists (inr EINVAL); now split|].
    destruct (lookup_lt_is_Some_2 found (Z.to_nat socket) ltac:(lia))
      as [f Ef].
    destruct (lookup_lt_is_Some_2 coreids (Z.to_nat socket) ltac:(lia))
      as [cur Ecur].
    rewrite Ef, Ecur.
    destruct (negb (truthy f) || (core <? cur)); apply IH;
      rewrite ?length_insert; assumption.
Qed.

(** Discovery has a result, and the array it yields has one core for
    every socket. *)
Lemma discover_coreids_total (sockets : Z) (outputs : list string) :
  0 < sockets ->
  exists r, discover_coreids sockets outputs = Ok r /\
    forall coreids, r = inl coreids -> length coreids = Z.to_nat sockets.
Proof.
  intros Hpos. unfold discover_coreids, c_assert.
  rewrite (proj2 (Z.gtb_lt sockets 0)) by lia. cbn [res_bind].
  destruct (open_msrs_loop_total sockets outputs
              (replicate (Z.to_nat sockets) 0) (replicate (Z.to_nat sockets) 0))
    as (r & E & Hr); [apply length_replicate | apply length_replicate |].
  rewrite E. cbn [res_bind]. destruct r as [[c f]|e].
  - destruct (forallb truthy f); eexists; (split; [reflexivity|]).
    + intros coreids [= <-]. apply Hr.
    + discriminate.
  - eexists. split; [reflexivity | discriminate].
Qed.

(** The outcomes of [raplcap_open_msrs] on an array of one entry per
    socket. *)
Lemma raplcap_open_msrs_outcome (popen_ok : bool)
    (cpuinfo : list string) (open_rdwr : msr_file -> Z) (sockets : Z)
    (fds : list Z) :
  0 < sockets -> length fds = Z.to_nat sockets ->
  exists fds' r,
    raplcap_open_msrs popen_ok cpuinfo open_rdwr sockets fds = Ok (fds', r) /\
    length fds' = length fds /\
    (popen_ok = false -> fds' = fds /\ r = inl 0) /\
    (popen_ok = true ->
     (exists e,
        discover_coreids sockets (fgets_all (open_msrs_command cpuinfo))
        = Ok (inr e) /\ r = inr e /\ fds' = fds) \/
     (exists coreids,
        discover_coreids sockets (fgets_all (open_msrs_command cpuinfo))
        = Ok (inl coreids) /\
        ((r = inl 0 /\ fds' = map (open_msr open_rdwr) coreids /\
          Forall (fun fd => 0 <= fd) fds') \/
         (r = inr EOTHER /\
          exists (k : nat) core,
            coreids !! k = Some core /\ open_msr open_rdwr core = -1 /\
            fds' = map (open_msr open_rdwr) (take k coreids)
                   ++ [-1] ++ drop (S k) fds /\
            Forall (fun fd => 0 <= fd)
              (map (open_msr open_rdwr) (take k coreids)))))).
Proof.
  intros Hpos Hlen. unfold raplcap_open_msrs, c_assert.
  rewrite (proj2 (Z.gtb_lt sockets 0)) by lia. cbn [res_bind].
  destruct popen_ok.
  2:{ exists fds, (inl 0). repeat split; congruence. }
  destruct (discover_coreids_total sockets
              (fgets_all (open_msrs_command cpuinfo)) Hpos) as (d & Ed & Hd).
  rewrite Ed. cbn [res_bind]. destruct d as [coreids|e].
  - specialize (Hd coreids eq_refl).
    destruct (open_each open_rdwr coreids 0 fds) as [fds' r] eqn:Eo.
    exists fds', r. split; [reflexivity|].
    split; [|split; [discriminate|]].
    { rewrite <- (open_each_length open_rdwr coreids 0 fds). now rewrite Eo. }
    intros _. right. exists coreids. split; [reflexivity|].
    apply open_each_from in Eo; [|cbn; lia].
    cbn [take app] in Eo. rewrite Nat.add_0_l in Eo.
    destruct Eo as [(-> & -> & Hall) | (-> & k & c & Hk & Hc & -> & Hall)].
    + left. rewrite drop_ge, app_nil_r by lia. repeat split; assumption.
    + right. split; [reflexivity|]. exists k, c. repeat split; assumption.
  - exists fds, (inr e). repeat split; try discriminate.
    intros _. left. exists e. repeat split.
Qed.

(** X13. [raplcap_open_msrs] opens one register file for every socket, in
    the order of the sockets, and stops at the first that cannot be opened:
    on success every entry of the array is the descriptor [open_msr]
    returned for the core of its socket, and none is negative; on a failure
    at socket k the entries before k hold the descriptors that were opened,
    which are left open, entry k holds -1, and the entries after it are as
    they were. When discovery fails, or [popen] does, the array is not
    written; in the second case the function still returns 0. *)
Theorem open_msrs_stops_at_first_failure (popen_ok : bool)
    (cpuinfo : list string) (open_rdwr : msr_file -> Z) (sockets : Z)
    (fds : list Z) :
  0 < sockets -> length fds = Z.to_nat sockets ->
  exists fds' r,
    raplcap_open_msrs popen_ok cpuinfo open_rdwr sockets fds = Ok (fds', r) /\
    length fds' = length fds /\
    (popen_ok = false -> fds' = fds /\ r = inl 0) /\
    (popen_ok = true ->
     (exists e,
        discover_coreids sockets (fgets_all (open_msrs_command cpuinfo))
        = Ok (inr e) /\ r = inr e /\ fds' = fds) \/
     (exists coreids,
        discover_coreids sockets (fgets_all (open_msrs_command cpuinfo))
        = Ok (inl coreids) /\
        ((r = inl 0 /\ fds' = map (open_msr open_rdwr) coreids /\
          Forall (fun fd => 0 <= fd) fds') \/
         (r = inr EOTHER /\
          exists (k : nat) core,
            coreids !! k = Some core /\ open_msr open_rdwr core = -1 /\
            fds' = map (open_msr open_rdwr) (take k coreids)
                   ++ [-1] ++ drop (S k) fds /\
            Forall (fun fd => 0 <= fd)
              (map (open_msr open_rdwr) (take k coreids)))))).
Proof. apply raplcap_open_msrs_outcome. Qed.

Lemma open_msrs_stops_at_first_failure_witness :
  exists fds' r,
    raplcap_open_msrs true cpuinfo_2x2
      (fun f => match f with
                | dev_cpu_msr_safe _ => -1
                | dev_cpu_msr core => if core =? 0 then 3 else -1
                end) 2 [0; 0] = Ok (fds', r) /\
    length fds' = length [0; 0].
Proof.
  destruct (open_msrs_stops_at_first_failure true cpuinfo_2x2
              (fun f => match f with
                        | dev_cpu_msr_safe _ => -1
                        | dev_cpu_msr core => if core =? 0 then 3 else -1
                        end) 2 [0; 0]) as (fds' & r & E & L & _).
  - lia.
  - reflexivity.
  - exists fds', r. split; [exact E | exact L].
Defined.

(** ** Session set-up *)

Lemma count_sockets_loop_range (outputs : list string) :
  forall sockets, 0 <= sockets < 2 ^ 32 ->
    0 <= count_sockets_loop outputs sockets < 2 ^ 32.
Proof.
  induction outputs as [|o more IH]; intros sockets Hs; [exact Hs|].
  cbn [count_sockets_loop]. destruct (strtoul0 o) as [v erange].
  destruct erange; [lia|]. apply IH. apply Z.mod_pos_bound. lia.
Qed.

Lemma count_sockets_range (popen_ok : bool) (cpuinfo : list string) :
  0 <= count_sockets popen_ok cpuinfo < 2 ^ 32.
Proof.
  unfold count_sockets. destruct popen_ok; [|lia].
  apply count_sockets_loop_range. lia.
Qed.

(** The failure path of [raplcap_init] on an array of one descriptor per
    socket: the positive descriptors are closed, the state is released, and
    the error is the one of the step that failed. *)
Lemma init_fail_closes (m : machine) (n : Z) (a : list Z) (e : errno_t) :
  length a = Z.to_nat n ->
  init_fail m n (Some a) e
  = Ok (mk_initialised (Some (mk_raplcap n None)) (inr e) (open_fds a)).
Proof.
  intros Hlen. unfold init_fail, raplcap_destroy. cbn [state nsockets fds].
  rewrite destroy_loop_spec by (cbn; lia).
  rewrite drop_0, <- Hlen, firstn_all. reflexivity.
Qed.

Lemma pow_half_low_bits (k : Z) :
  0 <= k < 16 -> (1 # 32768 <= pow_half k /\ pow_half k <= 1)%Q.
Proof.
  intros H.
  assert (C : k = 0 \/ k = 1 \/ k = 2 \/ k = 3 \/ k = 4 \/ k = 5 \/ k = 6 \/
              k = 7 \/ k = 8 \/ k = 9 \/ k = 10 \/ k = 11 \/ k = 12 \/
              k = 13 \/ k = 14 \/ k = 15) by lia.
  repeat (destruct C as [-> | C]; [split; vm_compute; discriminate|]).
  subst k. split; vm_compute; discriminate.
Qed.

Lemma land_0xf (x : Z) : 0 <= Z.land x 0xf < 16.
Proof.
  change 0xf with (Z.ones 4). rewrite Z.land_ones by lia.
  apply Z.mod_pos_bound. lia.
Qed.

(** X11. [raplcap_init] always has a result: its assertion holds and no
    array is read or written out of bounds, whatever the machine. When it
    returns 0 the session holds the socket count that was discovered,
    which is positive, and an array of one descriptor per socket, none of
    them negative; its power and time units are 2^-k for the k in bits 0 to
    3 and in bits 16 to 19 of the unit register, read through the
    descriptor of socket 0, so that both lie between 1/32768 and 1; and
    nothing was closed. *)
Theorem raplcap_init_result (m : machine) (rc : option raplcap) :
  exists i, raplcap_init m rc = Ok i /\
    (init_ret i = inl 0 ->
     exists a fd0 msrval st,
       init_rc i
       = Some (mk_raplcap (count_sockets (popen_count_ok m) (cpuinfo m))
                 (Some st)) /\
       0 < count_sockets (popen_count_ok m) (cpuinfo m) /\
       fds st = Some a /\
       length a = Z.to_nat (count_sockets (popen_count_ok m) (cpuinfo m)) /\
       Forall (fun fd => 0 <= fd) a /\
       a !! 0%nat = Some fd0 /\
       dev m fd0 MSR_RAPL_POWER_UNIT = Some msrval /\
       power_units st = pow_half (Z.land msrval 0xf) /\
       time_units st = pow_half (Z.land (Z.shiftr msrval 16) 0xf) /\
       (1 # 32768 <= power_units st /\ power_units st <= 1)%Q /\
       (1 # 32768 <= time_units st /\ time_units st <= 1)%Q /\
       init_closed i = [] /\
       session_well_formed (init_rc i)).
Proof.
  unfold raplcap_init. destruct rc as [r|].
  2:{ eexists. split; [reflexivity|]. discriminate. }
  cbn [raplcap_get_num_sockets].
  set (n := count_sockets (popen_count_ok m) (cpuinfo m)).
  pose proof (count_sockets_range (popen_count_ok m) (cpuinfo m)) as Hn.
  fold n in Hn.
  destruct (Z.eqb_spec n 0) as [Hz|Hz]; cbn [orb].
  { eexists. split; [reflexivity|]. discriminate. }
  destruct (malloc_ok m); cbn [negb].
  2:{ eexists. split; [reflexivity|]. discriminate. }
  destruct (calloc_ok m); cbn [negb].
  2:{ unfold init_fail, raplcap_destroy. cbn. eexists. split; [reflexivity|].
      discriminate. }
  destruct (raplcap_open_msrs_outcome (popen_open_ok m) (cpuinfo m)
              (open_rdwr m) n (replicate (Z.to_nat n) 0))
    as (a & ret & E & Hlen & Hno & Hyes); [lia | apply length_replicate |].
  rewrite length_replicate in Hlen.
  rewrite E. cbn [res_bind].
  destruct ret as [z|e].
  2:{ rewrite init_fail_closes by assumption. eexists. split; [reflexivity|].
      discriminate. }
  destruct (lookup_lt_is_Some_2 a 0%nat ltac:(lia)) as [fd0 Hfd0].
  rewrite Hfd0.
  destruct (read_msr_by_offset (dev m) fd0 MSR_RAPL_POWER_UNIT)
    as [msrval|e] eqn:R.
  2:{ rewrite init_fail_closes by assumption. eexists. split; [reflexivity|].
      discriminate. }
  eexists. split; [reflexivity|]. intros _. cbn [init_rc init_closed].
  exists a, fd0, msrval. eexists. split; [reflexivity|]. cbn [fds power_units time_units].
  assert (Hall : Forall (fun fd => 0 <= fd) a).
  { destruct (popen_open_ok m).
    - destruct (Hyes eq_refl) as [(e & _ & He & _) | (c & _ & Hc)];
        [discriminate|].
      destruct Hc as [(_ & _ & Hall) | (He & _)]; [assumption|discriminate].
    - destruct (Hno eq_refl) as [-> _].
      apply Forall_forall. intros x Hx. apply elem_of_replicate in Hx. lia. }
  assert (Hdev : dev m fd0 MSR_RAPL_POWER_UNIT = Some msrval).
  { unfold read_msr_by_offset in R. cbn in R.
    destruct (dev m fd0 MSR_RAPL_POWER_UNIT); congruence. }
  split; [lia|]. split; [reflexivity|]. split; [assumption|].
  split; [assumption|]. split; [assumption|]. split; [assumption|].
  split; [reflexivity|]. split; [reflexivity|].
  split; [apply pow_half_low_bits, land_0xf|].
  split; [apply pow_half_low_bits, land_0xf|].
  split; [reflexivity|]. cbn. exists a. now split.
Qed.

(** X12. When [raplcap_init] fails after it has allocated the state, it
    tears the session down before it returns: the state is released, every
    positive descriptor that [raplcap_open_msrs] left in the array has been
    passed to [close], and the error reported is the one of the step that
    failed ([raplcap_open_msrs], or the read of the unit register through
    the descriptor of socket 0), not one of [close]. When no socket is
    found, or the state cannot be allocated, the session keeps the state it
    came with and nothing is closed. *)
Theorem raplcap_init_failure_releases (m : machine) (r : raplcap)
    (i : initialised) (e : errno_t) :
  raplcap_init m (Some r) = Ok i -> init_ret i = inr e ->
  exists st',
    init_rc i
    = Some (mk_raplcap (count_sockets (popen_count_ok m) (cpuinfo m)) st') /\
    (((count_sockets (popen_count_ok m) (cpuinfo m) = 0 \/ malloc_ok m = false) /\
      st' = state r /\ init_closed i = []) \/
     (0 < count_sockets (popen_count_ok m) (cpuinfo m) /\ malloc_ok m = true /\
      st' = None /\
      ((calloc_ok m = false /\ init_closed i = []) \/
       (calloc_ok m = true /\
        exists a ret,
          raplcap_open_msrs (popen_open_ok m) (cpuinfo m) (open_rdwr m)
            (count_sockets (popen_count_ok m) (cpuinfo m))
            (replicate
               (Z.to_nat (count_sockets (popen_count_ok m) (cpuinfo m))) 0)
          = Ok (a, ret) /\
          init_closed i = open_fds a /\
          (ret = inr e \/
           (ret = inl 0 /\
            exists fd0, a !! 0%nat = Some fd0 /\
              read_msr_by_offset (dev m) fd0 MSR_RAPL_POWER_UNIT = inr e)))))).
Proof.
  unfold raplcap_init. cbn [raplcap_get_num_sockets].
  set (n := count_sockets (popen_count_ok m) (cpuinfo m)).
  pose proof (count_sockets_range (popen_count_ok m) (cpuinfo m)) as Hn.
  fold n in Hn.
  destruct (Z.eqb_spec n 0) as [Hz|Hz]; cbn [orb].
  { intros [= <-] _. eexists. split; [reflexivity|]. left. auto. }
  destruct (malloc_ok m); cbn [negb].
  2:{ intros [= <-] _. eexists. split; [reflexivity|]. left. auto. }
  destruct (calloc_ok m); cbn [negb].
  2:{ unfold init_fail, raplcap_destroy. cbn. intros [= <-] _.
      eexists. split; [reflexivity|]. right.
      repeat split; try lia. left. auto. }
  destruct (raplcap_open_msrs_outcome (popen_open_ok m) (cpuinfo m)
              (open_rdwr m) n (replicate (Z.to_nat n) 0))
    as (a & ret & E & Hlen & Hno & Hyes); [lia | apply length_replicate |].
  rewrite length_replicate in Hlen.
  assert (Hret : ret = inl 0 \/ exists e', ret = inr e').
  { destruct (popen_open_ok m).
    - destruct (Hyes eq_refl) as [(e' & _ & -> & _) | (c & _ & Hc)]; [eauto|].
      destruct Hc as [(-> & _) | (-> & _)]; eauto.
    - destruct (Hno eq_refl) as [_ ->]. now left. }
  rewrite E. cbn [res_bind].
  destruct Hret as [-> | (e' & ->)].
  - destruct (lookup_lt_is_Some_2 a 0%nat ltac:(lia)) as [fd0 Hfd0].
    rewrite Hfd0.
    destruct (read_msr_by_offset (dev m) fd0 MSR_RAPL_POWER_UNIT)
      as [msrval|e'] eqn:R; [intros [= <-]; discriminate|].
    rewrite init_fail_closes by assumption. intros [= <-] [= <-].
    eexists. split; [reflexivity|]. right.
    split; [lia|]. split; [reflexivity|]. split; [reflexivity|]. right.
    split; [reflexivity|]. exists a, (inl 0). split; [reflexivity|].
    split; [reflexivity|]. right. split; [reflexivity|]. now exists fd0.
  - rewrite init_fail_closes by assumption. intros [= <-] [= <-].
    eexists. split; [reflexivity|]. right.
    split; [lia|]. split; [reflexivity|]. split; [reflexivity|]. right.
    split; [reflexivity|]. eexists a, _. split; [reflexivity|].
    split; [reflexivity|]. now left.
Qed.

(** ** The order of sort *)

Lemma ascii_compare_refl (a : ascii) : Ascii.compare a a = Eq.
Proof. unfold Ascii.compare. apply N.compare_refl. Qed.

Lemma string_compare_refl (s : string) : String.compare s s = Eq.
Proof.
  induction s as [|a s IH]; [reflexivity|].
  cbn [String.compare]. now rewrite ascii_compare_refl.
Qed.

Lemma line_lt_trans (a b c : string) : line_lt a b -> line_lt b c -> line_lt a c.
Proof.
  unfold line_lt. revert b c.
  induction a as [|x a IH]; intros [|y b] [|z c]; cbn [String.compare];
    try discriminate; try reflexivity.
  unfold Ascii.compare.
  destruct (N.compare_spec (N_of_ascii x) (N_of_ascii y)) as [E1|L1|G1];
    try discriminate;
    destruct (N.compare_spec (N_of_ascii y) (N_of_ascii z)) as [E2|L2|G2];
    try discriminate; intros H1 H2.
  - rewrite E1, E2, N.compare_refl. eapply IH; eassumption.
  - rewrite E1. now rewrite (proj2 (N.compare_lt_iff _ _) L2).
  - rewrite <- E2. now rewrite (proj2 (N.compare_lt_iff _ _) L1).
  - assert (L : (N_of_ascii x < N_of_ascii z)%N) by lia.
    now rewrite (proj2 (N.compare_lt_iff _ _) L).
Qed.

Lemma line_lt_of_gt (a b : string) : String.compare a b = Gt -> line_lt b a.
Proof.
  unfold line_lt. intros H. rewrite String.compare_antisym, H. reflexivity.
Qed.

Lemma insert_uniq_In (x z : string) (l : list string) :
  In z (insert_uniq x l) <-> z = x \/ In z l.
Proof.
  induction l as [|y l IH]; cbn [insert_uniq].
  - cbn. intuition congruence.
  - destruct (String.compare x y) eqn:C.
    + apply String.compare_eq_iff in C. subst y. cbn. intuition congruence.
    + cbn. intuition congruence.
    + cbn [In]. rewrite IH. intuition congruence.
Qed.

Lemma sort_u_In (z : string) (l : list string) : In z (sort_u l) <-> In z l.
Proof.
  unfold sort_u. induction l as [|x l IH]; [reflexivity|].
  cbn [fold_right In]. rewrite insert_uniq_In, IH. intuition congruence.
Qed.

Lemma insert_uniq_sorted (x : string) (l : list string) :
  StronglySorted line_lt l -> StronglySorted line_lt (insert_uniq x l).
Proof.
  induction 1 as [|y l Hs IH Hy]; cbn [insert_uniq].
  - repeat constructor.
  - destruct (String.compare x y) eqn:C.
    + now constructor.
    + constructor; [now constructor|]. constructor; [exact C|].
      eapply List.Forall_impl; [|exact Hy]. intros z Hz.
      eapply line_lt_trans; eassumption.
    + constructor; [exact IH|].
      apply List.Forall_forall. intros z Hz. apply insert_uniq_In in Hz.
      destruct Hz as [-> | Hz]; [now apply line_lt_of_gt|].
      rewrite List.Forall_forall in Hy. now apply Hy.
Qed.

Lemma sort_u_sorted (l : list string) : StronglySorted line_lt (sort_u l).
Proof.
  unfold sort_u. induction l as [|x l IH]; [constructor|].
  cbn [fold_right]. now apply insert_uniq_sorted.
Qed.

Lemma sorted_last_greatest (l : list string) (m : string) :
  StronglySorted line_lt l -> last l = Some m ->
  forall x, In x l -> x = m \/ line_lt x m.
Proof.
  induction 1 as [|y l Hs IH Hy]; [discriminate|].
  intros Hl x Hx. destruct l as [|y' l'].
  - cbn in Hl. injection Hl as <-. destruct Hx as [-> | []]. now left.
  - rewrite last_cons_cons in Hl. destruct Hx as [<- | Hx].
    + right. rewrite List.Forall_forall in Hy. apply Hy.
      apply last_Some in Hl as [l'' ->]. apply in_or_app. right. now left.
    + now apply IH.
Qed.

(** The line [sort -u | tail -n 1] leaves: the greatest of the lines in the
    order of their bytes. *)
Lemma tail1_sort_u (l : list string) :
  l <> [] ->
  exists m, tail1 (sort_u l) = [m] /\ In m l /\
    forall x, In x l -> x = m \/ line_lt x m.
Proof.
  intros Hne. unfold tail1.
  destruct (last (sort_u l)) as [m|] eqn:El.
  - exists m. split; [reflexivity|].
    assert (Hm : In m (sort_u l)).
    { apply last_Some in El as [l' ->]. apply in_or_app. right. now left. }
    split; [now apply sort_u_In|].
    intros x Hx. apply (sorted_last_greatest (sort_u l)).
    + apply sort_u_sorted.
    + exact El.
    + now apply sort_u_In.
  - apply last_None in El. destruct l as [|x l]; [congruence|].
    assert (In x (sort_u (x :: l))) by (apply sort_u_In; now left).
    rewrite El in H. destruct H.
Qed.

(** ** Counting sockets whose ids have one digit *)

Lemma digit_code (c : ascii) (d : Z) :
  digit_of 10 c = Some d ->
  Z.of_nat (nat_of_ascii c) = 48 + d /\ 0 <= d <= 9.
Proof.
  unfold digit_of. set (n := Z.of_nat (nat_of_ascii c)).
  destruct ((48 <=? n) && (n <=? 57)) eqn:C1.
  - apply andb_prop in C1 as [A B]. apply Z.leb_le in A, B.
    destruct (n - 48 <? 10); [|discriminate]. intros [= <-]. lia.
  - destruct ((97 <=? n) && (n <=? 122)) eqn:C2.
    + apply andb_prop in C2 as [A B]. apply Z.leb_le in A, B.
      destruct (Z.ltb_spec (n - 87) 10); [lia | discriminate].
    + destruct ((65 <=? n) && (n <=? 90)) eqn:C3.
      * apply andb_prop in C3 as [A B]. apply Z.leb_le in A, B.
        destruct (Z.ltb_spec (n - 55) 10); [lia | discriminate].
      * cbn. discriminate.
Qed.

Lemma one_digit_value (c : ascii) (d : Z) :
  digit_of 10 c = Some d -> value_of (String c EmptyString) = d.
Proof.
  intros H. unfold value_of. cbn [numeral_value]. rewrite H. cbn. lia.
Qed.

Lemma one_digit_of_numeral (s : string) :
  numeral s -> String.length s = 1%nat -> one_digit s.
Proof.
  intros [Hne Hd] Hl. destruct s as [|c [|c' s]]; try discriminate.
  cbn [all_digits] in Hd. apply andb_prop in Hd as [Hd _].
  destruct (digit_of 10 c) as [d|] eqn:E; [|discriminate].
  now exists c, d.
Qed.

(** On numerals of one digit the order of the text is the order of the
    numbers. *)
Lemma one_digit_order (a b : string) :
  one_digit a -> one_digit b ->
  a = b \/ line_lt a b -> value_of a <= value_of b.
Proof.
  intros (c & d & -> & Hc) (c' & d' & -> & Hc') [E | L].
  - rewrite E. lia.
  - rewrite (one_digit_value c d Hc), (one_digit_value c' d' Hc').
    apply digit_code in Hc as [Ec _]. apply digit_code in Hc' as [Ec' _].
    unfold line_lt in L. cbn [String.compare] in L.
    unfold Ascii.compare in L.
    destruct (N.compare_spec (N_of_ascii c) (N_of_ascii c')) as [E|Hlt|Hgt];
      try discriminate.
    unfold nat_of_ascii in Ec, Ec'. lia.
Qed.

(** [strtoul] on a line of one digit. *)
Lemma strtoul0_one_digit (c : ascii) (d : Z) :
  digit_of 10 c = Some d ->
  strtoul0 (String c (String newline EmptyString)) = (d, false).
Proof.
  intros H.
  destruct c as [[|] [|] [|] [|] [|] [|] [|] [|]];
    vm_compute in H; try discriminate H;
    injection H as <-; vm_compute; reflexivity.
Qed.

Lemma fold_max_greatest (x : Z) (l : list Z) (v : Z) :
  In v (x :: l) -> (forall y, In y (x :: l) -> y <= v) ->
  fold_right Z.max x l = v.
Proof.
  revert v. induction l as [|y l IH]; intros v Hin Hmax.
  - destruct Hin as [<- | []]. reflexivity.
  - cbn [fold_right].
    assert (Hy : y <= v) by (apply Hmax; right; now left).
    assert (Hx : x <= v) by (apply Hmax; now left).
    assert (Hb : forall z, In z (x :: l) -> z <= v).
    { intros z [<- | Hz]; [assumption|]. apply Hmax. right. now right. }
    destruct Hin as [<- | [<- | Hin]].
    + rewrite (IH x); [lia | now left | assumption].
    + assert (Hf : fold_right Z.max x l <= y).
      { clear IH Hmax Hy Hx. induction l as [|z l IHl]; cbn [fold_right].
        - apply Hb. now left.
        - apply Z.max_lub.
          + apply Hb. right. now left.
          + apply IHl. intros w [<- | Hw]; apply Hb; [now left|].
            right. now right. }
      lia.
    + rewrite (IH v); [lia | now right | assumption].
Qed.

Lemma physical_ids_app (l1 l2 : list string) :
  physical_ids (l1 ++ l2) = physical_ids l1 ++ physical_ids l2.
Proof. unfold physical_ids. apply omap_app. Qed.

Lemma scan_u32_space (s : string) : scan_u32 (String " " s) = scan_u32 s.
Proof. reflexivity. Qed.

Lemma physical_ids_record (p ph c : string) :
  numeral p -> numeral ph -> numeral c -> value_of ph < 2 ^ 32 ->
  physical_ids (cpu_record p ph c) = [value_of ph].
Proof.
  intros [_ Hp] Hph [_ Hc] Hv. unfold physical_ids, cpu_record.
  assert (E1 : contains "physical id" ("processor" ++ String tab (": " ++ p))
               = false).
  { change (contains "physical id" ("processor" ++ String tab (": " ++ p)))
      with (contains "physical id" p). now apply digits_no_physical_id. }
  assert (E2 : contains "physical id"
                 ("core id" ++ String tab (String tab (": " ++ c))) = false).
  { change (contains "physical id"
              ("core id" ++ String tab (String tab (": " ++ c))))
      with (contains "physical id" c). now apply digits_no_physical_id. }
  assert (E3 : contains "physical id" ("physical id" ++ String tab (": " ++ ph))
               = true) by reflexivity.
  assert (E4 : scan_u32 (cut_d_colon_f2
                           ("physical id" ++ String tab (": " ++ ph)))
               = Some (value_of ph, EmptyString)).
  { rewrite cut_physical_id_line by apply Hph. rewrite scan_u32_space.
    rewrite <- (append_nil_r ph) at 1. now apply scan_u32_numeral. }
  cbn [omap list_omap]. rewrite E1, E2, E3, E4. reflexivity.
Qed.

Lemma physical_ids_topology (cpus : list cpu) :
  Forall cpu_numerals cpus ->
  Forall (fun c => value_of (cpu_physical_id c) < 2 ^ 32) cpus ->
  physical_ids (cpuinfo_of cpus)
  = map (fun c => value_of (cpu_physical_id c)) cpus.
Proof.
  intros Hn Hv. unfold cpuinfo_of.
  induction Hn as [|c cpus (Hp & Hph & Hc) _ IH]; [reflexivity|].
  apply List.Forall_cons_iff in Hv as [Hv Hvs].
  cbn [flat_map map]. rewrite physical_ids_app, (IH Hvs).
  now rewrite physical_ids_record.
Qed.

(** X14. On the text of a topology whose physical ids have one digit each,
    [count_sockets] returns the largest physical id plus one (and 0 for a
    topology without CPUs): with ids from 0 to 9 the order of the text, in
    which the command sorts, is the order of the numbers. *)
Theorem count_sockets_one_digit_ids (cpus : list cpu) :
  Forall cpu_numerals cpus ->
  Forall (fun c => String.length (cpu_physical_id c) = 1%nat) cpus ->
  physical_ids (cpuinfo_of cpus)
  = map (fun c => value_of (cpu_physical_id c)) cpus /\
  count_sockets true (cpuinfo_of cpus)
  = largest_physical_id_plus_one (cpuinfo_of cpus) /\
  raplcap_get_num_sockets true (cpuinfo_of cpus) None
  = largest_physical_id_plus_one (cpuinfo_of cpus).
Proof.
  intros Hn Hl.
  assert (Hone : Forall one_digit (map cpu_physical_id cpus)).
  { apply Forall_map. apply Forall_forall. intros c Hc.
    rewrite Forall_forall in Hn, Hl.
    destruct (Hn c Hc) as (_ & Hph & _). apply one_digit_of_numeral;
      [exact Hph | now apply Hl]. }
  assert (Hv : Forall (fun c => value_of (cpu_physical_id c) < 2 ^ 32) cpus).
  { apply Forall_forall. intros c Hc. rewrite Forall_forall in Hone.
    destruct (Hone (cpu_physical_id c)) as (a & d & E & Hd).
    { apply list_elem_of_fmap. now exists c. }
    rewrite E, (one_digit_value a d Hd). apply digit_code in Hd. lia. }
  pose proof (physical_ids_topology cpus Hn Hv) as Hids.
  split; [exact Hids|].
  assert (Hcount : count_sockets true (cpuinfo_of cpus)
                   = largest_physical_id_plus_one (cpuinfo_of cpus)).
  { unfold count_sockets, largest_physical_id_plus_one.
    rewrite count_sockets_command_last by assumption. rewrite Hids.
    destruct cpus as [|c0 cpus']; [reflexivity|].
    set (cpus := c0 :: cpus') in *.
    destruct (tail1_sort_u (map cpu_physical_id cpus)) as (m & Em & Hin & Hmax);
      [discriminate|].
    rewrite Em.
    assert (Hm : one_digit m).
    { rewrite Forall_forall in Hone. apply Hone. now apply list_elem_of_In. }
    destruct Hm as (a & d & -> & Hd).
    unfold fgets_all. cbn [flat_map]. rewrite fgets_short_line by (cbn; lia).
    cbn [app count_sockets_loop String.append].
    rewrite (strtoul0_one_digit a d Hd).
    pose proof (digit_code a d Hd) as [_ Hd9].
    rewrite Z.mod_small by lia. f_equal.
    change (map (fun c => value_of (cpu_physical_id c)) cpus)
      with (value_of (cpu_physical_id c0)
            :: map (fun c => value_of (cpu_physical_id c)) cpus').
    symmetry. apply fold_max_greatest.
    - change (In d (map (fun c => value_of (cpu_physical_id c)) cpus)).
      rewrite <- (one_digit_value a d Hd).
      rewrite <- (map_map cpu_physical_id value_of). now apply in_map.
    - intros y Hy.
      change (In y (map (fun c => value_of (cpu_physical_id c)) cpus)) in Hy.
      rewrite <- (map_map cpu_physical_id value_of) in Hy.
      apply in_map_iff in Hy as (s & <- & Hs).
      rewrite <- (one_digit_value a d Hd).
      apply one_digit_order.
      + rewrite Forall_forall in Hone. apply Hone. now apply list_elem_of_In.
      + now exists a, d.
      + now apply Hmax. }
  split; [exact Hcount | exact Hcount].
Qed.

Lemma count_sockets_one_digit_ids_witness :
  count_sockets true cpuinfo_2x2 = largest_physical_id_plus_one cpuinfo_2x2.
Proof.
  destruct (count_sockets_one_digit_ids topology_2x2) as (_ & E & _).
  - repeat constructor; discriminate.
  - repeat constructor.
  - exact E.
Defined.

Lemma raplcap_init_failure_releases_witness :
  exists i,
    raplcap_init machine_only_cpu0 (Some (mk_raplcap 0 None)) = Ok i /\
    init_ret i = inr EOTHER /\
    init_closed i = [3] /\
    init_rc i = Some (mk_raplcap 2 None).
Proof.
  eexists. split; [vm_compute; reflexivity|].
  split; [reflexivity|].
  destruct (raplcap_init_failure_releases machine_only_cpu0
              (mk_raplcap 0 None) _ EOTHER
              ltac:(vm_compute; reflexivity) eq_refl) as (st' & E & _).
  split; reflexivity.
Defined.

(** ** A machine without physical ids *)




(** ** The descriptors of a topology *)

Lemma processors_of_In (socket p : Z) (cpus : list cpu) :
  In p (processors_of socket cpus) ->
  exists c, In c cpus /\ value_of (cpu_processor c) = p.
Proof.
  induction cpus as [|c cpus IH]; [intros []|].
  rewrite processors_of_cons.
  destruct (value_of (cpu_physical_id c) =? socket).
  - intros [<- | H].
    + exists c. split; [now left | reflexivity].
    + destruct (IH H) as (c' & Hc' & E). exists c'. split; [now right | exact E].
  - intros H. destruct (IH H) as (c' & Hc' & E).
    exists c'. split; [now right | exact E].
Qed.

Lemma open_msr_opens (open_rdwr : msr_file -> Z) (core : Z) :
  0 <= open_rdwr (dev_cpu_msr_safe core) \/ 0 <= open_rdwr (dev_cpu_msr core) ->
  0 <= open_msr open_rdwr core /\
  open_msr open_rdwr core
  = if 0 <=? open_rdwr (dev_cpu_msr_safe core)
    then open_rdwr (dev_cpu_msr_safe core)
    else open_rdwr (dev_cpu_msr core).
Proof.
  intros H. unfold open_msr.
  destruct (Z.ltb_spec (open_rdwr (dev_cpu_msr_safe core)) 0) as [L|G].
  - rewrite (proj2 (Z.leb_gt _ _)) by lia.
    destruct H as [H|H]; [lia|].
    rewrite (proj2 (Z.ltb_ge _ _)) by lia. split; [lia | reflexivity].
  - rewrite (proj2 (Z.leb_le _ _)) by lia.
    rewrite (proj2 (Z.ltb_ge _ _)) by lia. split; [lia | reflexivity].
Qed.

(** X16. On the text of a topology in which every socket below the count
    has a CPU, and on a machine where one of the two register files of
    every processor can be opened, [raplcap_open_msrs] returns 0 and leaves,
    for every socket, the descriptor of the smallest processor number of
    the socket: the one of its [msr_safe] file when that can be opened, and
    the one of its [msr] file otherwise. *)
Theorem open_msrs_on_topology (cpus : list cpu) (sockets : Z)
    (open_rdwr : msr_file -> Z) :
  0 < sockets ->
  Forall cpu_fits cpus ->
  Forall (fun c => value_of (cpu_physical_id c) < sockets) cpus ->
  (forall s, 0 <= s < sockets -> processors_of s cpus <> []) ->
  Forall (msr_file_opens open_rdwr) cpus ->
  exists fds',
    raplcap_open_msrs true (cpuinfo_of cpus) open_rdwr sockets
      (replicate (Z.to_nat sockets) 0) = Ok (fds', inl 0) /\
    length fds' = Z.to_nat sockets /\
    forall s, 0 <= s < sockets ->
      exists p,
        minimum_of (processors_of s cpus) p /\
        fds' !! Z.to_nat s = Some (open_msr open_rdwr p) /\
        0 <= open_msr open_rdwr p /\
        open_msr open_rdwr p
        = if 0 <=? open_rdwr (dev_cpu_msr_safe p)
          then open_rdwr (dev_cpu_msr_safe p)
          else open_rdwr (dev_cpu_msr p).
Proof.
  intros Hpos Hfit Hlt Hall Hopen.
  set (rows := fgets_all (open_msrs_command (cpuinfo_of cpus))).
  destruct (discover_coreids_on_rows sockets rows Hpos) as (Hgood & _).
  destruct Hgood as (coreids & Ed & Hlen & Hmin).
  { now apply rows_of_topology_good. }
  { intros s Hs. unfold rows. rewrite cores_of_topology by assumption.
    now apply Hall. }
  assert (Hcore : forall s, 0 <= s < sockets ->
            exists p, coreids !! Z.to_nat s = Some p /\
              minimum_of (processors_of s cpus) p /\
              (0 <= open_rdwr (dev_cpu_msr_safe p) \/
               0 <= open_rdwr (dev_cpu_msr p))).
  { intros s Hs. destruct (Hmin s Hs) as (p & Hp & Hm).
    unfold rows in Hm. rewrite cores_of_topology in Hm by assumption.
    exists p. split; [exact Hp|]. split; [exact Hm|].
    destruct Hm as [Hin _]. apply processors_of_In in Hin as (c & Hc & <-).
    rewrite List.Forall_forall in Hopen. now apply Hopen. }
  destruct (raplcap_open_msrs_outcome true (cpuinfo_of cpus) open_rdwr sockets
              (replicate (Z.to_nat sockets) 0) Hpos (length_replicate _ _))
    as (fds' & r & E & Hl & _ & Hyes).
  rewrite length_replicate in Hl.
  destruct (Hyes eq_refl) as [(e & Ee & _) | (c & Ec & Hc)].
  { fold rows in Ee. congruence. }
  fold rows in Ec. assert (c = coreids) as -> by congruence.
  destruct Hc as [(-> & -> & Hnn) | (_ & k & core & Hk & Hfail & _)].
  - exists (map (open_msr open_rdwr) coreids). split; [exact E|].
    split; [exact Hl|]. intros s Hs.
    destruct (Hcore s Hs) as (p & Hp & Hm & Ho).
    exists p. split; [exact Hm|].
    split; [now rewrite list_lookup_fmap, Hp|].
    now apply open_msr_opens.
  - exfalso.
    assert (Hk' : (k < Z.to_nat sockets)%nat).
    { rewrite <- Hlen. eapply lookup_lt_Some. exact Hk. }
    destruct (Hcore (Z.of_nat k) ltac:(lia)) as (p & Hp & _ & Ho).
    rewrite Nat2Z.id, Hk in Hp. injection Hp as ->.
    apply open_msr_opens in Ho. lia.
Qed.

Lemma open_msrs_on_topology_witness :
  exists fds',
    raplcap_open_msrs true cpuinfo_2x2
      (fun f => match f with
                | dev_cpu_msr_safe _ => -1
                | dev_cpu_msr core => 3 + core
                end) 2 (replicate (Z.to_nat 2) 0) = Ok (fds', inl 0) /\
    length fds' = Z.to_nat 2.
Proof.
  destruct (open_msrs_on_topology topology_2x2 2
              (fun f => match f with
                        | dev_cpu_msr_safe _ => -1
                        | dev_cpu_msr core => 3 + core
                        end)) as (fds' & E & L & _).
  - lia.
  - repeat constructor; (discriminate || (cbn; lia)).
  - repeat constructor.
  - intros s Hs. assert (s = 0 \/ s = 1) as [-> | ->] by lia; discriminate.
  - repeat (apply List.Forall_cons; [right; vm_compute; discriminate|]).
    apply List.Forall_nil.
  - exists fds'. split; [exact E | exact L].
Defined.

(** * Properties of rapl-configure *)

Section ConfigureProperties.

Import RaplConfigure.

Context {W : Type} (lib : raplcap_h W).

(** ** Setting limits from the command line *)

Lemma until_failure_trace (plan : list event) (w : W) :
  forall ret w' t, until_failure lib plan w = (ret, w', t) ->
    (ret = 0 /\ t = plan) \/
    (ret <> 0 /\
     exists (k : nat) e wk,
       plan !! k = Some e /\
       t = take (S k) plan ++ [Perror (failure_message e)] /\
       plan_call lib e wk = (w', ret)).
Proof.
  revert w. induction plan as [|e more IH]; intros w ret w' t H.
  - cbn in H. injection H as <- <- <-. now left.
  - cbn [until_failure] in H.
    destruct (plan_call lib e w) as [w1 r] eqn:E.
    destruct (truthy r) eqn:Tr.
    + injection H as <- <- <-. right. split.
      * unfold truthy in Tr. apply negb_true_iff, Z.eqb_neq in Tr. exact Tr.
      * exists 0%nat, e, w. repeat split. exact E.
    + destruct (until_failure lib more w1) as [[r' w''] t'] eqn:U.
      injection H as <- <- <-.
      destruct (IH w1 r' w'' t' U) as [(-> & ->) | (Hr & k & e' & wk & Hk & Ht & Hc)].
      * now left.
      * right. split; [exact Hr|]. exists (S k), e', wk.
        split; [exact Hk|]. split; [|exact Hc]. now rewrite Ht.
Qed.

(** Runs the code of the program on a state, one call and one test at a
    time. *)
Ltac run_prog :=
  unfold prog_bind, pure, emit, call, print_error_continue;
  repeat first
    [ progress cbn beta iota
    | match goal with
      | E : ?x = (_, _) |- context [let '(_, _) := ?x in _] => rewrite E
      end
    | match goal with
      | |- context [let '(_, _) := ?op ?w in _] =>
          let w' := fresh "w" in
          let r := fresh "r" in
          let E := fresh "E" in
          destruct (op w) as [w' r] eqn:E
      end
    | match goal with
      | |- context [if truthy ?r then _ else _] => destruct (truthy r) eqn:?
      end ].

Lemma configure_limits_until_failure (c : rapl_configure_ctx) (w : W)
    (t0 : list event) :
  configure_limits lib c c (w, t0)
  = let '(ret, w', t) := until_failure lib (configure_plan c) w in
    (ret, (w', t0 ++ t)).
Proof.
  unfold configure_limits, configure_plan.
  destruct (truthy (set_enabled c) && negb (truthy (enabled c)));
    destruct (truthy (set_long c) || truthy (set_short c));
    cbn [app until_failure plan_call negb andb];
    run_prog; cbn [andb failure_message Z.eqb];
    rewrite <- ?app_assoc, ?app_nil_r; try reflexivity; try congruence.
Qed.

Lemma In_take {A : Type} (n : nat) (l : list A) (x : A) :
  In x (take n l) -> In x l.
Proof.
  revert n. induction l as [|y l IH]; intros [|n]; cbn; try tauto.
  intros [-> | H]; [now left | right; eauto].
Qed.

(** X17. [configure_limits] makes the calls of its plan in their order
    (the zone is disabled first when [-e 0] was given, the limits are set
    when there are any, the zone is enabled last otherwise) and stops at
    the first call that does not return 0, which it reports and whose
    value it returns; when every call returns 0 it returns 0. A zone that
    is to be disabled is never enabled, and a zone that is not is never
    disabled. *)
Theorem configure_limits_protocol (c : rapl_configure_ctx) (w : W)
    (t0 : list event) :
  exists ret w' t,
    configure_limits lib c c (w, t0) = (ret, (w', t0 ++ t)) /\
    ((ret = 0 /\ t = configure_plan c) \/
     (ret <> 0 /\
      exists (k : nat) e wk,
        configure_plan c !! k = Some e /\
        t = take (S k) (configure_plan c) ++ [Perror (failure_message e)] /\
        plan_call lib e wk = (w', ret))) /\
    (truthy (set_enabled c) && negb (truthy (enabled c)) = true ->
     forall s z, ~ In (Call_set_zone_enabled s z 1) t) /\
    (truthy (set_enabled c) && negb (truthy (enabled c)) = false ->
     forall s z, ~ In (Call_set_zone_enabled s z 0) t).
Proof.
  rewrite configure_limits_until_failure.
  destruct (until_failure lib (configure_plan c) w) as [[ret w'] t] eqn:U.
  exists ret, w', t. split; [reflexivity|].
  pose proof (until_failure_trace _ _ _ _ _ U) as Ht.
  split; [exact Ht|].
  assert (Hsub : forall e, In e t -> is_setter_call e = true ->
                   In e (configure_plan c)).
  { intros e He Hs.
    destruct Ht as [(_ & ->) | (_ & k & e' & wk & _ & -> & _)]; [exact He|].
    apply in_app_or in He as [He | [<- | []]]; [|discriminate].
    eapply In_take. exact He. }
  split; intros Hd s z Hin; apply Hsub in Hin; try reflexivity;
    unfold configure_plan in Hin; rewrite Hd in Hin;
    destruct (truthy (set_long c) || truthy (set_short c));
    cbn in Hin; intuition discriminate.
Qed.

(** ** Reading limits from the command line *)

(** [print_limits] appends its lines to the events, whatever they are,
    and leaves the world alone. *)
Lemma print_limits_appends (enabled locked : Z)
    (watts_long seconds_long watts_short seconds_short joules joules_max : Q) :
  exists out,
    (forall (w : W) t,
       print_limits enabled locked watts_long seconds_long watts_short
         seconds_short joules joules_max (w, t) = (tt, (w, t ++ out))) /\
    (forall e, In e out ->
       is_call e = false /\ forall msg, e <> Perror msg).
Proof.
  unfold print_limits.
  generalize (if enabled <? 0 then "unknown"%string
              else if truthy enabled then "true"%string else "false"%string).
  generalize (if locked <? 0 then "unknown"%string
              else if truthy locked then "true"%string else "false"%string).
  intros lck en.
  destruct (Qpositive seconds_short), (Qle_bool 0 joules),
    (Qle_bool 0 joules_max);
    (eexists; split;
     [intros w t; run_prog; rewrite <- ?app_assoc; cbn [app]; reflexivity
     |intros e He; cbn in He;
      repeat (destruct He as [<- | He];
              [split; [reflexivity | discriminate]|]); destruct He]).
Qed.

(** X19. [print_limits] writes the report and calls nothing: the enabled
    flag first and the locked flag last, each as [unknown] when negative,
    [true] when not zero and [false] otherwise; between them the power and
    the window of both limits in the wide layout when the short-term window
    is positive, and of the long-term limit alone in the narrow layout
    otherwise; and each energy counter exactly when it is not negative. *)
Theorem print_limits_layout (enabled locked : Z)
    (watts_long seconds_long watts_short seconds_short joules joules_max : Q)
    (w : W) (t0 : list event) :
  exists out,
    print_limits enabled locked watts_long seconds_long watts_short
      seconds_short joules joules_max (w, t0) = (tt, (w, t0 ++ out)) /\
    (forall e, In e out -> is_call e = false) /\
    (forall msg, ~ In (Perror msg) out) /\
    (Qpositive seconds_short = true ->
     head out = Some (Printf_s 13 "enabled" (flag_text enabled)) /\
     last out = Some (Printf_s 13 "locked" (flag_text locked)) /\
     In (Printf_f 13 "watts_long" watts_long) out /\
     In (Printf_f 13 "seconds_long" seconds_long) out /\
     In (Printf_f 13 "watts_short" watts_short) out /\
     In (Printf_f 13 "seconds_short" seconds_short) out) /\
    (Qpositive seconds_short = false ->
     head out = Some (Printf_s 7 "enabled" (flag_text enabled)) /\
     last out = Some (Printf_s 7 "locked" (flag_text locked)) /\
     In (Printf_f 7 "watts" watts_long) out /\
     In (Printf_f 7 "seconds" seconds_long) out /\
     forall width label v, In (Printf_f width label v) out ->
       label <> "watts_short"%string /\ label <> "seconds_short"%string) /\
    ((exists width, In (Printf_f width "joules" joules) out) <->
     Qle_bool 0 joules = true) /\
    ((exists width, In (Printf_f width "joules_max" joules_max) out) <->
     Qle_bool 0 joules_max = true).
Proof.
  unfold print_limits. fold (flag_text enabled). fold (flag_text locked).
  destruct (Qpositive seconds_short), (Qle_bool 0 joules),
    (Qle_bool 0 joules_max); run_prog; rewrite <- ?app_assoc; cbn [app];
    (eexists; split; [reflexivity|]);
    (split; [intros e He; cbn in He;
             repeat (destruct He as [<- | He]; [reflexivity|]); destruct He|]);
    (split; [intros msg He; cbn in He; intuition discriminate|]);
    (split; [intros Hp; try discriminate Hp; cbn; intuition (try discriminate)|]);
    (split; [intros Hp; try discriminate Hp; cbn;
             repeat (split; [tauto|]);
             intros width label v He;
             repeat (destruct He as [He | He]; [inversion He; split; discriminate|]);
             try destruct He|]);
    (split; (split; [intros (width & He); cbn in He;
                     intuition (try discriminate; try congruence)
                    |intros Hj; try discriminate Hj; eexists; cbn; eauto 10])).
Qed.

Lemma truthy_false (r : Z) : truthy r = false <-> r = 0.
Proof.
  unfold truthy. rewrite negb_false_iff. apply Z.eqb_eq.
Qed.

Lemma truthy_true (r : Z) : truthy r = true <-> r <> 0.
Proof.
  unfold truthy. rewrite negb_true_iff. apply Z.eqb_neq.
Qed.

(** X18. [get_limits] of the program asks whether the zone is enabled and
    whether it is locked, then reads the limits into two limits that it has
    zeroed, and returns what [raplcap_get_limits] returned. A failure of
    the first two questions does not stop it: when the enabled question
    fails it writes both warnings, also the one about the lock, and a
    failing lock question by itself is not reported. When the limits cannot
    be read it reports that, prints nothing and makes no further call;
    otherwise it reads the two energy counters and ends with the report of
    [print_limits]. It never calls a setter. *)
Theorem get_limits_report (socket : Z) (zone : raplcap_zone) (w w1 w2 w3 : W)
    (enabled locked ret : Z) (ll ls : raplcap_limit) (t0 : list event) :
  raplcap_is_zone_enabled lib socket zone w = (w1, enabled) ->
  raplcap_is_zone_locked lib socket zone w1 = (w2, locked) ->
  raplcap_get_limits lib socket zone (mk_limit 0 0) (mk_limit 0 0) w2
  = (w3, (ret, ll, ls)) ->
  exists w' t,
    get_limits lib socket zone (w, t0) = (ret, (w', t0 ++ t)) /\
    (In (Perror "Failed to determine if zone is enabled") t <-> enabled < 0) /\
    (In (Perror "Failed to determine if zone is locked") t <-> enabled < 0) /\
    (forall e, In e t -> is_setter_call e = false) /\
    (ret <> 0 ->
     w' = w3 /\ last t = Some (Perror "Failed to get limits") /\
     List.filter is_call t
     = [Call_is_zone_enabled socket zone; Call_is_zone_locked socket zone;
        Call_get_limits socket zone] /\
     forall e, In e t ->
       match e with
       | Printf_s _ _ _ | Printf_f _ _ _ => False
       | _ => True
       end) /\
    (ret = 0 ->
     exists w4 joules joules_max pre out,
       raplcap_get_energy_counter lib socket zone w3 = (w4, joules) /\
       raplcap_get_energy_counter_max lib socket zone w4 = (w', joules_max) /\
       t = pre ++ out /\
       List.filter is_call pre
       = [Call_is_zone_enabled socket zone; Call_is_zone_locked socket zone;
          Call_get_limits socket zone; Call_get_energy_counter socket zone;
          Call_get_energy_counter_max socket zone] /\
       (forall e, In e pre ->
          match e with
          | Printf_s _ _ _ | Printf_f _ _ _ => False
          | _ => True
          end) /\
       print_limits enabled locked (watts ll) (seconds ll) (watts ls)
         (seconds ls) joules joules_max (w', []) = (tt, (w', out))).
Proof.
  intros E1 E2 E3.
  destruct (raplcap_get_energy_counter lib socket zone w3) as [w4 joules] eqn:E4.
  destruct (raplcap_get_energy_counter_max lib socket zone w4)
    as [w5 joules_max] eqn:E5.
  destruct (print_limits_appends enabled locked (watts ll) (seconds ll)
              (watts ls) (seconds ls) joules joules_max) as (out & Hout & Hno).
  unfold get_limits, print_error_continue, prog_bind, call, pure, emit.
  cbn beta iota. rewrite E1. cbn beta iota.
  destruct (enabled <? 0) eqn:Hneg; cbn beta iota; rewrite E2; cbn beta iota;
    rewrite E3; cbn beta iota;
    (destruct (truthy ret) eqn:Hret;
     [apply truthy_true in Hret
     |apply truthy_false in Hret; rewrite E4; cbn beta iota; rewrite E5;
      cbn beta iota; rewrite Hout]);
    rewrite <- ?app_assoc; cbn [app];
    [apply Z.ltb_lt in Hneg | apply Z.ltb_lt in Hneg
    |apply Z.ltb_ge in Hneg | apply Z.ltb_ge in Hneg].
  - exists w3. eexists. split; [reflexivity|].
    split; [cbn; intuition|]. split; [cbn; intuition|].
    split; [intros e He; cbn in He;
            repeat (destruct He as [<- | He]; [reflexivity|]); destruct He|].
    split; [|intros ->; congruence].
    intros _. split; [reflexivity|]. split; [reflexivity|].
    split; [reflexivity|].
    intros e He; cbn in He.
    repeat (destruct He as [<- | He]; [exact I|]). destruct He.
  - exists w5. eexists. split; [reflexivity|].
    split; [cbn; intuition|]. split; [cbn; intuition|].
    split.
    { intros e He. cbn in He.
      repeat (destruct He as [<- | He]; [reflexivity|]).
      apply Hno in He as [Hc _]. destruct e; try reflexivity; discriminate Hc. }
    split; [intros Hn; congruence|].
    intros _. exists w4, joules, joules_max.
    exists [Call_is_zone_enabled socket zone;
            Perror "Failed to determine if zone is enabled";
            Stderr "Trying to proceed anyway...";
            Call_is_zone_locked socket zone;
            Perror "Failed to determine if zone is locked";
            Stderr "Trying to proceed anyway...";
            Call_get_limits socket zone; Call_get_energy_counter socket zone;
            Call_get_energy_counter_max socket zone], out.
    split; [reflexivity|]. split; [exact E5|]. split; [reflexivity|].
    split; [reflexivity|].
    split; [|apply Hout].
    intros e He; cbn in He.
    repeat (destruct He as [<- | He]; [exact I|]). destruct He.
  - exists w3. eexists. split; [reflexivity|].
    split; [cbn; split; [intros H; intuition discriminate|lia]|].
    split; [cbn; split; [intros H; intuition discriminate|lia]|].
    split; [intros e He; cbn in He;
            repeat (destruct He as [<- | He]; [reflexivity|]); destruct He|].
    split; [|intros ->; congruence].
    intros _. split; [reflexivity|]. split; [reflexivity|].
    split; [reflexivity|].
    intros e He; cbn in He.
    repeat (destruct He as [<- | He]; [exact I|]). destruct He.
  - exists w5. eexists. split; [reflexivity|].
    assert (Hperr : forall msg,
              In (Perror msg)
                (Call_is_zone_enabled socket zone
                 :: Call_is_zone_locked socket zone
                 :: Call_get_limits socket zone
                 :: Call_get_energy_counter socket zone
                 :: Call_get_energy_counter_max socket zone :: out) -> False).
    { intros msg He. cbn in He.
      repeat (destruct He as [He | He]; [discriminate He|]).
      apply Hno in He as [_ Hp]. exact (Hp msg eq_refl). }
    split; [split; [intros H; destruct (Hperr _ H)|lia]|].
    split; [split; [intros H; destruct (Hperr _ H)|lia]|].
    split.
    { intros e He. cbn in He.
      repeat (destruct He as [<- | He]; [reflexivity|]).
      apply Hno in He as [Hc _]. destruct e; try reflexivity; discriminate Hc. }
    split; [intros Hn; congruence|].
    intros _. exists w4, joules, joules_max.
    exists [Call_is_zone_enabled socket zone; Call_is_zone_locked socket zone;
            Call_get_limits socket zone; Call_get_energy_counter socket zone;
            Call_get_energy_counter_max socket zone], out.
    split; [reflexivity|]. split; [exact E5|]. split; [reflexivity|].
    split; [reflexivity|].
    split; [|apply Hout].
    intros e He; cbn in He.
    repeat (destruct He as [<- | He]; [exact I|]). destruct He.
Qed.

(** ** The whole program *)

Lemma get_limits_events (socket : Z) (zone : raplcap_zone) (w : W) :
  exists ret w' t,
    (forall t0, get_limits lib socket zone (w, t0) = (ret, (w', t0 ++ t))) /\
    (forall e, In e t ->
       is_setter_call e = false /\
       (is_call e = true -> call_zone e = Some (socket, zone))).
Proof.
  destruct (raplcap_is_zone_enabled lib socket zone w) as [w1 enabled] eqn:E1.
  destruct (raplcap_is_zone_locked lib socket zone w1) as [w2 locked] eqn:E2.
  destruct (raplcap_get_limits lib socket zone (mk_limit 0 0) (mk_limit 0 0) w2)
    as [w3 [[ret ll] ls]] eqn:E3.
  destruct (raplcap_get_energy_counter lib socket zone w3) as [w4 joules] eqn:E4.
  destruct (raplcap_get_energy_counter_max lib socket zone w4)
    as [w5 joules_max] eqn:E5.
  destruct (print_limits_appends enabled locked (watts ll) (seconds ll)
              (watts ls) (seconds ls) joules joules_max) as (out & Hout & Hno).
  assert (Hq : forall e, In e out ->
            is_setter_call e = false /\
            (is_call e = true -> call_zone e = Some (socket, zone))).
  { intros e He. apply Hno in He as [Hc _].
    split; [destruct e; try reflexivity; discriminate Hc|congruence]. }
  exists ret.
  destruct (enabled <? 0) eqn:Hneg, (truthy ret) eqn:Hret;
    eexists _, _;
    (split;
     [intros t0;
      unfold get_limits, print_error_continue, prog_bind, call, pure, emit;
      cbn beta iota; rewrite E1; cbn beta iota; rewrite Hneg; cbn beta iota;
      rewrite E2; cbn beta iota; rewrite E3; cbn beta iota; rewrite Hret;
      cbn beta iota; rewrite ?E4; cbn beta iota; rewrite ?E5; cbn beta iota;
      rewrite ?Hout; rewrite <- ?app_assoc; cbn [app]; reflexivity
     |intros e He; cbn in He;
      repeat (destruct He as [<- | He];
              [split; [reflexivity | try reflexivity; discriminate]|]);
      try (destruct He); try (apply Hq; exact He)]).
Qed.

Lemma configure_limits_events (c : rapl_configure_ctx) (w : W) :
  exists ret w' t,
    (forall t0, configure_limits lib c c (w, t0) = (ret, (w', t0 ++ t))) /\
    (forall e, In e t -> is_call e = true -> In e (configure_plan c)).
Proof.
  destruct (until_failure lib (configure_plan c) w) as [[ret w'] t] eqn:U.
  exists ret, w', t. split.
  - intros t0. rewrite configure_limits_until_failure, U. reflexivity.
  - intros e He Hc.
    destruct (until_failure_trace _ _ _ _ _ U)
      as [(_ & ->) | (_ & k & e' & wk & _ & -> & _)]; [exact He|].
    apply in_app_or in He as [He | [<- | []]]; [|discriminate].
    eapply In_take. exact He.
Qed.

Lemma configure_plan_calls (c : rapl_configure_ctx) (e : event) :
  In e (configure_plan c) ->
  is_setter_call e = true /\ call_zone e = Some (socket c, zone c).
Proof.
  unfold configure_plan.
  destruct (truthy (set_enabled c) && negb (truthy (enabled c)));
    destruct (truthy (set_long c) || truthy (set_short c)); cbn;
    intuition (subst; reflexivity).
Qed.


(** The action of [main] on the zone. *)
Lemma main_action_events (ctx : rapl_configure_ctx) (w : W) :
  exists ret w' act,
    (forall t0,
       (if is_read_only ctx then get_limits lib (socket ctx) (zone ctx)
        else configure_limits lib ctx ctx) (w, t0)
       = (ret, (w', t0 ++ act))) /\
    (forall e, In e act -> is_call e = true ->
       call_zone e = Some (socket ctx, zone ctx) /\
       (is_setter_call e = true ->
        is_read_only ctx = false /\ In e (configure_plan ctx))).
Proof.
  destruct (is_read_only ctx).
  - destruct (get_limits_events (socket ctx) (zone ctx) w)
      as (ret & w' & t & Hrun & Hev).
    exists ret, w', t. split; [exact Hrun|].
    intros e He Hc. destruct (Hev e He) as [Hs Hz].
    split; [auto|]. congruence.
  - destruct (configure_limits_events ctx w) as (ret & w' & t & Hrun & Hev).
    exists ret, w', t. split; [exact Hrun|].
    intros e He Hc. pose proof (Hev e He Hc) as Hin.
    split; [apply configure_plan_calls; exact Hin|auto].
Qed.

(** What [main] does after the option loop, when the number of sockets was
    not asked for. *)
Lemma main_run_outcome (ctx : rapl_configure_ctx) (w w1 : W) (r : Z) :
  truthy (get_sockets ctx) = false ->
  raplcap_init lib w = (w1, r) ->
  exists ret w' t,
    (forall t0, main_run lib ctx (w, t0) = (ret, (w', t0 ++ t))) /\
    ((r <> 0 /\ ret = 1 /\ w' = w1 /\
      t = (if is_read_only ctx then [Setenv_read_only] else [])
          ++ [Call_init; Perror "Failed to initialize"]) \/
     (r = 0 /\
      exists w2 supported body w3 d,
        raplcap_is_zone_supported lib (socket ctx) (zone ctx) w1
        = (w2, supported) /\
        raplcap_destroy lib w3 = (w', d) /\
        t = (if is_read_only ctx then [Setenv_read_only] else [])
            ++ [Call_init; Call_is_zone_supported (socket ctx) (zone ctx)]
            ++ body
            ++ Call_destroy
               :: (if truthy d then [Perror "Failed to clean up"] else []) /\
        ((supported = 0 /\ ret = -1 /\ w3 = w2 /\
          body = [Stderr "Zone not supported"]) \/
         (supported <> 0 /\
          exists act,
            body = (if supported <? 0
                    then [Perror "Failed to determine if zone is supported";
                          Stderr "Trying to proceed anyway..."]
                    else []) ++ act /\
            (forall t0,
               (if is_read_only ctx
                then get_limits lib (socket ctx) (zone ctx)
                else configure_limits lib ctx ctx) (w2, t0)
               = (ret, (w3, t0 ++ act))) /\
            (forall e, In e act -> is_call e = true ->
               call_zone e = Some (socket ctx, zone ctx) /\
               (is_setter_call e = true ->
                is_read_only ctx = false /\ In e (configure_plan ctx))))))).
Proof.
  intros Hg Ei.
  destruct (raplcap_is_zone_supported lib (socket ctx) (zone ctx) w1)
    as [w2 supported] eqn:Es.
  destruct (main_action_events ctx w2) as (ret & w3 & act & Hact & Hev).
  assert (Hmain : forall s, main_run lib ctx s =
            (run _ <- (if is_read_only ctx then emit Setenv_read_only
                       else pure tt);
             run r <- call Call_init (raplcap_init lib);
             if truthy r then
               run _ <- emit (Perror "Failed to initialize"); pure 1
             else
               run supported <-
                 call (Call_is_zone_supported (socket ctx) (zone ctx))
                   (raplcap_is_zone_supported lib (socket ctx) (zone ctx));
               run ret <-
                 (if supported =? 0 then
                    run _ <- emit (Stderr "Zone not supported"); pure (-1)
                  else
                    run _ <- (if supported <? 0
                              then print_error_continue
                                     "Failed to determine if zone is supported"
                              else pure tt);
                    if is_read_only ctx
                    then get_limits lib (socket ctx) (zone ctx)
                    else configure_limits lib ctx ctx);
               run d <- call Call_destroy (raplcap_destroy lib);
               run _ <- (if truthy d then emit (Perror "Failed to clean up")
                         else pure tt);
               pure ret) s).
  { intros s. unfold main_run. rewrite Hg. reflexivity. }
  destruct (truthy r) eqn:Hr.
  - exists 1, w1.
    exists ((if is_read_only ctx then [Setenv_read_only] else [])
            ++ [Call_init; Perror "Failed to initialize"]).
    split.
    + intros t0. rewrite Hmain.
      unfold print_error_continue, prog_bind, call, pure, emit.
      destruct (is_read_only ctx); cbn beta iota; rewrite Ei; cbn beta iota;
        rewrite Hr; cbn beta iota; rewrite <- ?app_assoc; cbn [app];
        reflexivity.
    + left. apply truthy_true in Hr.
      destruct (is_read_only ctx); repeat split; assumption.
  - apply truthy_false in Hr.
    destruct (supported =? 0) eqn:H0.
    + destruct (raplcap_destroy lib w2) as [w' d] eqn:Ed.
      exists (-1), w'.
      exists ((if is_read_only ctx then [Setenv_read_only] else [])
              ++ [Call_init; Call_is_zone_supported (socket ctx) (zone ctx)]
              ++ [Stderr "Zone not supported"]
              ++ Call_destroy
                 :: (if truthy d then [Perror "Failed to clean up"] else [])).
      split.
      * intros t0. rewrite Hmain.
        unfold print_error_continue, prog_bind, call, pure, emit.
        destruct (is_read_only ctx), (truthy d) eqn:Hd; cbn beta iota;
          rewrite Ei; cbn beta iota; rewrite (proj2 (truthy_false r) Hr);
          cbn beta iota; rewrite Es; cbn beta iota; rewrite H0;
          cbn beta iota; rewrite Ed; cbn beta iota; rewrite Hd;
          cbn beta iota; rewrite <- ?app_assoc; cbn [app]; reflexivity.
      * right. split; [exact Hr|].
        exists w2, supported, [Stderr "Zone not supported"], w2, d.
        split; [reflexivity|]. split; [exact Ed|].
        split; [reflexivity|].
        left. apply Z.eqb_eq in H0. repeat split; assumption.
    + destruct (raplcap_destroy lib w3) as [w' d] eqn:Ed.
      exists ret, w'.
      exists ((if is_read_only ctx then [Setenv_read_only] else [])
              ++ [Call_init; Call_is_zone_supported (socket ctx) (zone ctx)]
              ++ ((if supported <? 0
                   then [Perror "Failed to determine if zone is supported";
                         Stderr "Trying to proceed anyway..."]
                   else []) ++ act)
              ++ Call_destroy
                 :: (if truthy d then [Perror "Failed to clean up"] else [])).
      split.
      * intros t0. rewrite Hmain.
        unfold print_error_continue, prog_bind, call, pure, emit.
        cbn beta iota.
        destruct (is_read_only ctx), (truthy d) eqn:Hd,
          (supported <? 0) eqn:Hneg; cbn beta iota;
          rewrite Ei; cbn beta iota; rewrite (proj2 (truthy_false r) Hr);
          cbn beta iota; rewrite Es; cbn beta iota; rewrite H0;
          cbn beta iota; rewrite ?Hneg; cbn beta iota;
          rewrite Hact; cbn beta iota; rewrite Ed; cbn beta iota;
          rewrite Hd; cbn beta iota; rewrite <- ?app_assoc; cbn [app];
          reflexivity.
      * right. split; [exact Hr|].
        exists w2, supported.
        exists ((if supported <? 0
                 then [Perror "Failed to determine if zone is supported";
                       Stderr "Trying to proceed anyway..."]
                 else []) ++ act), w3, d.
        split; [reflexivity|]. split; [exact Ed|].
        split; [reflexivity|].
        right. apply Z.eqb_neq in H0. split; [exact H0|].
        exists act. split; [reflexivity|]. split; [exact Hact|exact Hev].
Qed.

Lemma main_run_nsockets (ctx : rapl_configure_ctx) (w w1 : W) (n : Z)
    (t0 : list event) :
  truthy (get_sockets ctx) = true ->
  raplcap_get_num_sockets lib w = (w1, n) ->
  main_run lib ctx (w, t0)
  = (if n =? 0 then 1 else 0,
     (w1, t0 ++ [Call_get_num_sockets;
                 if n =? 0 then Perror "Failed to get number of sockets"
                 else Printf_u32 n])).
Proof.
  intros Hg En. unfold main_run. rewrite Hg.
  unfold prog_bind, call, pure, emit. cbn beta iota. rewrite En.
  cbn beta iota. destruct (n =? 0); cbn beta iota;
    rewrite <- ?app_assoc; reflexivity.
Qed.

(** ** The option loop *)

Section Options.

Variable atoi : string -> Z.
Variable atof : string -> Q.

Lemma SET_VAL_cases (optarg : string) :
  (SET_VAL atof optarg = inl (atof optarg) /\ (0 < atof optarg)%Q) \/
  (SET_VAL atof optarg
   = inr ([Stderr "Time window and power limit values must be > 0";
           Print_usage 1], 1) /\ (atof optarg <= 0)%Q).
Proof.
  unfold SET_VAL. destruct (Qle_bool (atof optarg) 0) eqn:E.
  - right. split; [reflexivity|]. apply Qle_bool_iff. exact E.
  - left. split; [reflexivity|]. apply Qnot_le_lt. intros H.
    apply Qle_bool_iff in H. congruence.
Qed.

(** Takes the body of the option loop apart, one test at a time. *)
Ltac option_cases :=
  repeat match goal with
    | |- context [if Ascii.eqb ?c ?k then _ else _] =>
        destruct (Ascii.eqb c k) eqn:?
    | |- context [if String.eqb ?a ?b then _ else _] =>
        destruct (String.eqb a b) eqn:?
    | |- context [SET_VAL atof ?a] =>
        let P := fresh "P" in
        destruct (SET_VAL_cases a) as [[-> P] | [-> P]]
    end.

Lemma main_option_usage (ctx : rapl_configure_ctx) (o : parsed_option)
    (text : list event) (code : Z) :
  main_option atoi atof ctx o = inr (text, code) ->
  (forall e, In e text -> is_call e = false) /\
  last text = Some (Print_usage code) /\ (code = 0 \/ code = 1).
Proof.
  destruct o as [c optarg], ctx. unfold main_option. option_cases;
    intros H; try discriminate H; injection H as <- <-;
    (split; [intros e He; cbn in He; intuition (subst; reflexivity)|]);
    (split; [reflexivity|]); auto.
Qed.


Lemma main_option_read_only (ctx ctx' : rapl_configure_ctx)
    (o : parsed_option) :
  is_set_option o = false ->
  main_option atoi atof ctx o = inl ctx' ->
  is_read_only ctx' = is_read_only ctx.
Proof.
  destruct o as [c optarg], ctx. unfold is_set_option. cbn [fst].
  intros Hs. repeat (apply orb_false_iff in Hs as [Hs ?]).
  unfold main_option. option_cases; try congruence;
    intros Hm; try discriminate Hm; injection Hm as <-; reflexivity.
Qed.

Lemma main_option_get_sockets (ctx ctx' : rapl_configure_ctx)
    (o : parsed_option) :
  main_option atoi atof ctx o = inl ctx' ->
  truthy (get_sockets ctx) = true \/ fst o = "n"%char ->
  truthy (get_sockets ctx') = true.
Proof.
  destruct o as [c optarg], ctx. cbn [fst RaplConfigure.get_sockets].
  unfold main_option. option_cases;
    intros H; try discriminate H; injection H as <-;
    cbn [RaplConfigure.get_sockets]; intros [Hg | ->];
    try exact Hg; try reflexivity; discriminate.
Qed.

Lemma main_option_nonpositive (ctx : rapl_configure_ctx) (c : ascii)
    (optarg : string) :
  In c ["s"; "w"; "S"; "W"]%char ->
  (atof optarg <= 0)%Q ->
  exists x, main_option atoi atof ctx (c, optarg) = inr x.
Proof.
  intros Hc Hv. destruct ctx. unfold main_option.
  assert (Hset : SET_VAL atof optarg
                 = inr ([Stderr "Time window and power limit values must be > 0";
                         Print_usage 1], 1)).
  { destruct (SET_VAL_cases optarg) as [[_ P] | [E _]]; [|exact E].
    exfalso. apply (Qlt_not_le _ _ P). exact Hv. }
  rewrite Hset. cbn in Hc.
  destruct Hc as [<- | [<- | [<- | [<- | []]]]]; cbn; eexists; reflexivity.
Qed.

Lemma main_options_usage (opts : list parsed_option) :
  forall ctx text code,
    main_options atoi atof ctx opts = inr (text, code) ->
    (forall e, In e text -> is_call e = false) /\
    last text = Some (Print_usage code) /\ (code = 0 \/ code = 1).
Proof.
  induction opts as [|o more IH]; intros ctx text code H; [discriminate H|].
  cbn [main_options] in H.
  destruct (main_option atoi atof ctx o) as [ctx' | [text' code']] eqn:E.
  - eapply IH. exact H.
  - injection H as <- <-. eapply main_option_usage. exact E.
Qed.


Lemma main_options_read_only (opts : list parsed_option) :
  forall ctx ctx',
    (forall o, In o opts -> is_set_option o = false) ->
    main_options atoi atof ctx opts = inl ctx' ->
    is_read_only ctx' = is_read_only ctx.
Proof.
  induction opts as [|o more IH]; intros ctx ctx' Hs H.
  - injection H as <-. reflexivity.
  - cbn [main_options] in H.
    destruct (main_option atoi atof ctx o) as [ctx1 | x] eqn:E;
      [|discriminate H].
    rewrite (IH ctx1 ctx'); [|intros o' Ho'; apply Hs; now right|exact H].
    eapply main_option_read_only; [|exact E]. apply Hs. now left.
Qed.

Lemma main_options_get_sockets (opts : list parsed_option) :
  forall ctx ctx',
    main_options atoi atof ctx opts = inl ctx' ->
    truthy (get_sockets ctx) = true
    \/ (exists a, In ("n"%char, a) opts) ->
    truthy (get_sockets ctx') = true.
Proof.
  induction opts as [|o more IH]; intros ctx ctx' H Hn.
  - injection H as <-. destruct Hn as [Hg | (a & [])]. exact Hg.
  - cbn [main_options] in H.
    destruct (main_option atoi atof ctx o) as [ctx1 | x] eqn:E;
      [|discriminate H].
    apply (IH ctx1 ctx' H).
    destruct Hn as [Hg | (a & [-> | Ha])].
    + left. eapply main_option_get_sockets; [exact E|]. now left.
    + left. eapply main_option_get_sockets; [exact E|]. now right.
    + right. exists a. exact Ha.
Qed.

Lemma main_options_nonpositive (opts : list parsed_option) (c : ascii)
    (optarg : string) :
  In (c, optarg) opts ->
  In c ["s"; "w"; "S"; "W"]%char ->
  (atof optarg <= 0)%Q ->
  forall ctx, exists x, main_options atoi atof ctx opts = inr x.
Proof.
  intros Hin Hc Hv.
  induction opts as [|o more IH]; intros ctx; [destruct Hin|].
  cbn [main_options].
  destruct Hin as [-> | Hin].
  - destruct (main_option_nonpositive ctx c optarg Hc Hv) as (x & ->).
    exists x. reflexivity.
  - destruct (main_option atoi atof ctx o) as [ctx1 | x];
      [apply IH; exact Hin | exists x; reflexivity].
Qed.


Lemma is_setter_is_call (e : event) : is_setter_call e = true -> is_call e = true.
Proof.
  destruct e; try discriminate; reflexivity.
Qed.

(** What [main] does: it ends in the usage text without a call, or runs
    with the context the options leave. *)
Lemma main_events (opts : list parsed_option) (w : W) :
  exists code w' t,
    (forall t0, main lib atoi atof opts (w, t0) = (code, (w', t0 ++ t))) /\
    ((main_options atoi atof ctx_zero opts = inr (t, code) /\ w' = w) \/
     (exists ctx,
        main_options atoi atof ctx_zero opts = inl ctx /\
        (forall e, In e t -> is_setter_call e = true ->
           is_read_only ctx = false /\ In e (configure_plan ctx)) /\
        (In Call_init t ->
         exists more,
           t = (if is_read_only ctx then [Setenv_read_only] else [])
               ++ Call_init :: more))).
Proof.
  unfold main.
  destruct (main_options atoi atof ctx_zero opts) as [ctx | [text code]] eqn:E.
  - destruct (truthy (get_sockets ctx)) eqn:Hg.
    + destruct (raplcap_get_num_sockets lib w) as [w1 n] eqn:En.
      eexists _, _, _. split.
      { intros t0. apply main_run_nsockets; eassumption. }
      right. exists ctx. split; [reflexivity|]. split.
      * intros e He. cbn in He.
        destruct He as [<- | [<- | []]]; [discriminate|].
        destruct (n =? 0); discriminate.
      * intros Hi. cbn in Hi.
        destruct Hi as [Hi | [Hi | []]]; [discriminate Hi|].
        destruct (n =? 0); discriminate Hi.
    + destruct (raplcap_init lib w) as [w1 r] eqn:Ei.
      destruct (main_run_outcome ctx w w1 r Hg Ei)
        as (ret & w' & t & Hrun & Hcases).
      exists ret, w', t. split; [exact Hrun|].
      right. exists ctx. split; [reflexivity|].
      destruct Hcases
        as [(_ & _ & _ & ->)
           | (_ & w2 & sup & body & w3 & d & _ & _ & -> & Hbody)].
      * split; [|intros _; eexists; reflexivity].
        intros e He. apply in_app_or in He as [He | He].
        -- destruct (is_read_only ctx); cbn in He;
             intuition (subst; discriminate).
        -- cbn in He. intuition (subst; discriminate).
      * split; [|intros _; eexists; reflexivity].
        intros e He Hs.
        apply in_app_or in He as [He | He].
        { destruct (is_read_only ctx); cbn in He;
            intuition (subst; discriminate). }
        cbn [app] in He. destruct He as [<- | [<- | He]]; try discriminate Hs.
        apply in_app_or in He as [He | He].
        -- destruct Hbody as [(_ & _ & _ & ->) | (_ & act & -> & _ & Hev)].
           ++ destruct He as [<- | []]. discriminate Hs.
           ++ apply in_app_or in He as [He | He].
              ** destruct (sup <? 0); cbn in He;
                   intuition (subst; discriminate).
              ** destruct (Hev e He (is_setter_is_call e Hs)) as [_ Hx].
                 exact (Hx Hs).
        -- destruct He as [<- | He]; [discriminate Hs|].
           destruct (truthy d); cbn in He; intuition (subst; discriminate).
  - exists code, w, text. split; [intros t0; reflexivity|].
    left. split; reflexivity.
Qed.

(** X20. When no option of the command line asks for a change (none of
    [-e], [-s], [-w], [-S], [-W]), the program calls no setter of the
    library, whatever the library answers; and when it initialises the
    library it has asked for read-only access just before. *)
Theorem main_without_set_option (opts : list parsed_option) (w : W)
    (t0 : list event) :
  (forall o, In o opts -> is_set_option o = false) ->
  exists code w' t,
    main lib atoi atof opts (w, t0) = (code, (w', t0 ++ t)) /\
    (forall e, In e t -> is_setter_call e = false) /\
    (In Call_init t ->
     exists more, t = Setenv_read_only :: Call_init :: more).
Proof.
  intros Hs.
  destruct (main_events opts w) as (code & w' & t & Hrun & Hcases).
  exists code, w', t. split; [apply Hrun|].
  destruct Hcases as [(E & _) | (ctx & E & Hset & Hinit)].
  - destruct (main_options_usage _ _ _ _ E) as (Hno & _ & _). split.
    + intros e He. apply Hno in He.
      destruct e; try reflexivity; discriminate He.
    + intros Hi. apply Hno in Hi. discriminate Hi.
  - pose proof (main_options_read_only _ _ _ Hs E) as Hro.
    change (is_read_only ctx_zero) with true in Hro.
    rewrite Hro in Hset, Hinit. split; [|exact Hinit].
    intros e He. destruct (is_setter_call e) eqn:Hc; [|reflexivity].
    destruct (Hset e He Hc) as [Hf _]. discriminate Hf.
Qed.

(** X21. When the options are accepted and [-n] is not among them, the
    program asks for read-only access first exactly when no change is
    asked for, and then initialises the library. When that fails it exits
    with 1 after this one call. Otherwise it asks whether the zone is
    supported, makes calls only about the chosen socket and zone, and
    calls [raplcap_destroy] as its last call, also when the action has
    failed; when the zone is not supported it makes no call in between
    and returns -1. *)
Theorem main_session (opts : list parsed_option) (ctx : rapl_configure_ctx)
    (w w1 : W) (r : Z) (t0 : list event) :
  main_options atoi atof ctx_zero opts = inl ctx ->
  truthy (get_sockets ctx) = false ->
  raplcap_init lib w = (w1, r) ->
  exists code w' t,
    main lib atoi atof opts (w, t0) = (code, (w', t0 ++ t)) /\
    (head t = Some Setenv_read_only <-> is_read_only ctx = true) /\
    (r <> 0 -> code = 1 /\ w' = w1 /\ List.filter is_call t = [Call_init]) /\
    (r = 0 ->
     exists mid,
       List.filter is_call t
       = Call_init :: Call_is_zone_supported (socket ctx) (zone ctx)
         :: mid ++ [Call_destroy] /\
       (forall e, In e mid -> call_zone e = Some (socket ctx, zone ctx)) /\
       (forall w2,
          raplcap_is_zone_supported lib (socket ctx) (zone ctx) w1 = (w2, 0) ->
          mid = [] /\ code = -1)).
Proof.
  intros E Hg Ei. unfold main. rewrite E.
  destruct (main_run_outcome ctx w w1 r Hg Ei)
    as (ret & w' & t & Hrun & Hcases).
  exists ret, w', t. split; [apply Hrun|].
  destruct Hcases
    as [(Hr & -> & -> & ->)
       | (Hr & w2 & sup & body & w3 & d & Es & _ & -> & Hbody)].
  - split; [destruct (is_read_only ctx); cbn; intuition discriminate|].
    split; [|intros H0; contradiction].
    intros _. split; [reflexivity|]. split; [reflexivity|].
    destruct (is_read_only ctx); reflexivity.
  - split; [destruct (is_read_only ctx); cbn; intuition discriminate|].
    split; [intros Hn; contradiction|].
    intros _. exists (List.filter is_call body). split.
    { rewrite !List.filter_app.
      destruct (is_read_only ctx), (truthy d); reflexivity. }
    split.
    + intros e He. apply List.filter_In in He as [He Hc].
      destruct Hbody as [(_ & _ & _ & ->) | (_ & act & -> & _ & Hev)].
      * destruct He as [<- | []]. discriminate Hc.
      * apply in_app_or in He as [He | He].
        -- destruct (sup <? 0); cbn in He;
             intuition (subst; discriminate).
        -- apply Hev; assumption.
    + intros w2' Es'. rewrite Es in Es'. injection Es' as _ ->.
      destruct Hbody as [(_ & -> & _ & ->) | (Hn & _)];
        [split; reflexivity | contradiction].
Qed.


(** X23. A time window or a power limit that is not positive, anywhere on
    the command line, ends the program in the usage text: it makes no call
    of the library, also not for the options before it, and leaves the
    world as it was. *)
Theorem main_rejects_nonpositive (opts : list parsed_option) (c : ascii)
    (optarg : string) (w : W) (t0 : list event) :
  In (c, optarg) opts ->
  In c ["s"; "w"; "S"; "W"]%char ->
  (atof optarg <= 0)%Q ->
  exists code text,
    main lib atoi atof opts (w, t0) = (code, (w, t0 ++ text)) /\
    (forall e, In e text -> is_call e = false) /\
    last text = Some (Print_usage code) /\ (code = 0 \/ code = 1).
Proof.
  intros Hin Hc Hv.
  destruct (main_options_nonpositive opts c optarg Hin Hc Hv ctx_zero)
    as ([text code] & E).
  exists code, text. split; [unfold main; rewrite E; reflexivity|].
  eapply main_options_usage. exact E.
Qed.

(** X24. With [-n] anywhere on the command line the program either ends
    in the usage text without a call, or makes one call,
    [raplcap_get_num_sockets], and nothing else: it does not initialise
    the library and sets nothing, whatever the other options ask for. It
    prints the number and returns 0, or reports the failure and returns 1
    when the number is 0. *)
Theorem main_nsockets (opts : list parsed_option) (a : string) (w w1 : W)
    (n : Z) (t0 : list event) :
  In ("n"%char, a) opts ->
  raplcap_get_num_sockets lib w = (w1, n) ->
  exists code w' t,
    main lib atoi atof opts (w, t0) = (code, (w', t0 ++ t)) /\
    ((w' = w /\ (forall e, In e t -> is_call e = false) /\
      last t = Some (Print_usage code)) \/
     (w' = w1 /\ code = (if n =? 0 then 1 else 0) /\
      t = [Call_get_num_sockets;
           if n =? 0 then Perror "Failed to get number of sockets"
           else Printf_u32 n])).
Proof.
  intros Hin En. unfold main.
  destruct (main_options atoi atof ctx_zero opts) as [ctx | [text code]] eqn:E.
  - assert (Hg : truthy (get_sockets ctx) = true).
    { eapply main_options_get_sockets; [exact E|]. right. exists a. exact Hin. }
    eexists _, _, _. split; [apply main_run_nsockets; eassumption|].
    right. repeat split.
  - exists code, w, text. split; [reflexivity|]. left.
    destruct (main_options_usage _ _ _ _ E) as (Hno & Hlast & _).
    repeat split; assumption.
Qed.

End Options.

End ConfigureProperties.

Lemma get_limits_report_witness :
  exists t,
    RaplConfigure.get_limits
      (lib_fixed 0 (-1) 1 (mk_limit 1 100) (mk_limit 0 0) 5)
      0 RAPLCAP_ZONE_PACKAGE (tt, [])
    = (0, (tt, t)) /\
    In (RaplConfigure.Perror "Failed to determine if zone is locked") t.
Proof.
  destruct (get_limits_report
              (lib_fixed 0 (-1) 1 (mk_limit 1 100) (mk_limit 0 0) 5)
              0 RAPLCAP_ZONE_PACKAGE tt tt tt tt (-1) 1 0
              (mk_limit 1 100) (mk_limit 0 0) [] eq_refl eq_refl eq_refl)
    as (w' & t & E & _ & H & _).
  exists t. destruct w'. split; [exact E|]. apply H. lia.
Defined.

Lemma main_without_set_option_witness :
  exists code t,
    RaplConfigure.main
      (lib_fixed 0 1 0 (mk_limit 1 100) (mk_limit 0 0) 5)
      (fun _ => 1) (fun _ => 50%Q)
      [("c"%char, "1"%string); ("z"%char, "DRAM"%string)] (tt, [])
    = (code, (tt, t)) /\
    forall e, In e t -> is_setter_call e = false.
Proof.
  assert (H : forall o,
            In o [("c"%char, "1"%string); ("z"%char, "DRAM"%string)] ->
            is_set_option o = false).
  { intros o [<- | [<- | []]]; reflexivity. }
  destruct (main_without_set_option
              (lib_fixed 0 1 0 (mk_limit 1 100) (mk_limit 0 0) 5)
              (fun _ => 1) (fun _ => 50%Q)
              [("c"%char, "1"%string); ("z"%char, "DRAM"%string)] tt [] H)
    as (code & w' & t & E & Hs & _).
  exists code, t. destruct w'. split; [exact E | exact Hs].
Defined.

Lemma main_session_witness :
  exists code t mid,
    RaplConfigure.main
      (lib_fixed 0 1 0 (mk_limit 1 100) (mk_limit 0 0) 5)
      (fun _ => 1) (fun _ => 50%Q) [("w"%char, "50"%string)] (tt, [])
    = (code, (tt, t)) /\
    List.filter is_call t
    = RaplConfigure.Call_init
      :: RaplConfigure.Call_is_zone_supported 0 RAPLCAP_ZONE_PACKAGE
      :: mid ++ [RaplConfigure.Call_destroy].
Proof.
  destruct (main_session
              (lib_fixed 0 1 0 (mk_limit 1 100) (mk_limit 0 0) 5)
              (fun _ => 1) (fun _ => 50%Q) [("w"%char, "50"%string)]
              (RaplConfigure.mk_ctx 0 RAPLCAP_ZONE_PACKAGE 0 0 0 1 50 0 0 0 0)
              tt tt 0 [] eq_refl eq_refl eq_refl)
    as (code & w' & t & E & _ & _ & H).
  destruct (H eq_refl) as (mid & Hmid & _).
  exists code, t, mid. destruct w'. split; [exact E | exact Hmid].
Defined.

Lemma main_rejects_nonpositive_witness :
  exists code text,
    RaplConfigure.main
      (lib_fixed 0 1 0 (mk_limit 1 100) (mk_limit 0 0) 5)
      (fun _ => 1) (fun s => if String.eqb s "0" then 0%Q else 50%Q)
      [("w"%char, "50"%string); ("s"%char, "0"%string)] (tt, [])
    = (code, (tt, text)) /\
    forall e, In e text -> is_call e = false.
Proof.
  assert (Hin : In ("s"%char, "0"%string)
                  [("w"%char, "50"%string); ("s"%char, "0"%string)]).
  { right. left. reflexivity. }
  assert (Hc : In "s"%char ["s"; "w"; "S"; "W"]%char).
  { left. reflexivity. }
  assert (Hv : ((if String.eqb "0" "0" then 0 else 50) <= 0)%Q).
  { vm_compute. discriminate. }
  destruct (main_rejects_nonpositive
              (lib_fixed 0 1 0 (mk_limit 1 100) (mk_limit 0 0) 5)
              (fun _ => 1) (fun s => if String.eqb s "0" then 0%Q else 50%Q)
              [("w"%char, "50"%string); ("s"%char, "0"%string)]
              "s"%char "0"%string tt [] Hin Hc Hv)
    as (code & text & E & Hno & _).
  exists code, text. split; [exact E | exact Hno].
Defined.

Lemma main_nsockets_witness :
  exists code t,
    RaplConfigure.main
      (lib_fixed 0 1 0 (mk_limit 1 100) (mk_limit 0 0) 5)
      (fun _ => 1) (fun _ => 50%Q)
      [("w"%char, "50"%string); ("n"%char, EmptyString)] (tt, [])
    = (code, (tt, t)) /\
    (forall e, In e t -> is_setter_call e = false).
Proof.
  assert (Hin : In ("n"%char, EmptyString)
                  [("w"%char, "50"%string); ("n"%char, EmptyString)]).
  { right. left. reflexivity. }
  destruct (main_nsockets
              (lib_fixed 0 1 0 (mk_limit 1 100) (mk_limit 0 0) 5)
              (fun _ => 1) (fun _ => 50%Q)
              [("w"%char, "50"%string); ("n"%char, EmptyString)]
              EmptyString tt tt 2 [] Hin eq_refl)
    as (code & w' & t & E & [(_ & Hno & _) | (_ & _ & ->)]).
  - exists code, t. destruct w'. split; [exact E|].
    intros e He. apply Hno in He.
    destruct e; try reflexivity; discriminate He.
  - exists code. eexists. destruct w'. split; [exact E|].
    intros e [<- | [<- | []]]; reflexivity.
Defined.
